(** * Chou-Fasman secondary structure prediction: a verified model

    A shallow embedding of [chou_fasman_predictor.py].  Python [int]s are
    [Z], Python [float]s are IEEE-754 binary64 primitive floats, Python lists
    are [list]s read and written through [getitem], [slice] and [setitem],
    which follow Python's rules for negative and out-of-range positions.
    The [while] loops run on fuel; every theorem that speaks about a result
    shows that the fuel the model supplies is enough. *)

From Stdlib Require Import ZArith List Bool Lia Ascii.
From Stdlib Require String.
Import String.StringSyntax.
Delimit Scope string_scope with string.
From Stdlib Require Import Floats Uint63.
From Stdlib Require Import Sorting.Sorted Sorting.Permutation.
Import ListNotations.

Set Warnings "-inexact-float".
Local Open Scope Z_scope.

(* ================================================================= *)
(** ** Outcomes of Python code *)

(** The exceptions the script can meet. *)
Inductive exn : Type := IndexError | ZeroDivisionError.

(** A run either returns a value, raises an exception, or is cut off by the
    model's fuel. *)
Inductive outcome (A : Type) : Type :=
| Returns (a : A)
| Raises (e : exn)
| OutOfFuel.

Arguments Returns {A} a.
Arguments Raises {A} e.
Arguments OutOfFuel {A}.

Definition bind {A B : Type} (m : outcome A) (k : A -> outcome B) : outcome B :=
  match m with
  | Returns a => k a
  | Raises e => Raises e
  | OutOfFuel => OutOfFuel
  end.

Notation "x <- m ;; k" := (bind m (fun x => k))
  (at level 61, m at next level, right associativity).
Notation "' p <- m ;; k" := (bind m (fun x => match x with p => k end))
  (at level 61, p pattern, m at next level, right associativity).

(** [for x in xs: acc = body(acc, x)] with a body that may raise. *)
Fixpoint for_each {A S : Type} (xs : list A) (body : S -> A -> outcome S) (acc : S)
  : outcome S :=
  match xs with
  | [] => Returns acc
  | x :: xs' => acc' <- body acc x ;; for_each xs' body acc'
  end.

(* ================================================================= *)
(** ** Python lists *)

Definition len {A : Type} (l : list A) : Z := Z.of_nat (length l).

(** [l[i]]: a negative position counts from the end; outside the list the
    access raises. *)
Definition getitem {A : Type} (l : list A) (i : Z) : outcome A :=
  let j := if i <? 0 then i + len l else i in
  if (j <? 0) || (len l <=? j) then Raises IndexError
  else match nth_error l (Z.to_nat j) with
       | Some x => Returns x
       | None => Raises IndexError
       end.

(** A slice bound is shifted when negative and then clamped to [0..len]. *)
Definition slice_bound (n i : Z) : Z :=
  if i <? 0 then Z.max (i + n) 0 else Z.min i n.

(** [l[lo:hi]] never raises. *)
Definition slice {A : Type} (l : list A) (lo hi : Z) : list A :=
  let a := slice_bound (len l) lo in
  let b := slice_bound (len l) hi in
  firstn (Z.to_nat (b - a)) (skipn (Z.to_nat a) l).

(** [l[lo:]]. *)
Definition slice_from {A : Type} (l : list A) (lo : Z) : list A :=
  skipn (Z.to_nat (slice_bound (len l) lo)) l.

Fixpoint replace_nth {A : Type} (n : nat) (l : list A) (v : A) : list A :=
  match l, n with
  | [], _ => []
  | _ :: t, O => v :: t
  | h :: t, S n' => h :: replace_nth n' t v
  end.

(** [l[i] = v]. *)
Definition setitem {A : Type} (l : list A) (i : Z) (v : A) : outcome (list A) :=
  let j := if i <? 0 then i + len l else i in
  if (j <? 0) || (len l <=? j) then Raises IndexError
  else Returns (replace_nth (Z.to_nat j) l v).

(** [range(a, b)]. *)
Definition range (a b : Z) : list Z :=
  map (fun k => a + Z.of_nat k) (seq 0 (Z.to_nat (b - a))).

(** [sum(vals)] over floats: left to right from zero.  (CPython 3.12 and
    later compensate the rounding; see [py_sum_compensated].) *)
Definition py_sum (vals : list float) : float :=
  fold_left PrimFloat.add vals 0%float.

(** [int] to [float]; exact below [2^53] in absolute value, which covers
    every list length. *)
Definition float_of_Z (z : Z) : float :=
  if z <? 0 then PrimFloat.opp (PrimFloat.of_uint63 (Uint63.of_Z (- z)))
  else PrimFloat.of_uint63 (Uint63.of_Z z).

(** [x / n] for a float [x] and an int [n]. *)
Definition py_div (x : float) (n : Z) : outcome float :=
  if n =? 0 then Raises ZeroDivisionError
  else Returns (PrimFloat.div x (float_of_Z n)).

(* ================================================================= *)
(** ** Propensity tables *)

Definition P_ALPHA : list (ascii * float) :=
  [ ("E"%char, 1.53%float); ("A"%char, 1.45%float); ("L"%char, 1.34%float);
    ("H"%char, 1.24%float); ("M"%char, 1.20%float); ("Q"%char, 1.17%float);
    ("W"%char, 1.14%float); ("V"%char, 1.14%float); ("F"%char, 1.12%float);
    ("K"%char, 1.07%float); ("I"%char, 1.00%float); ("D"%char, 0.98%float);
    ("T"%char, 0.82%float); ("S"%char, 0.79%float); ("R"%char, 0.79%float);
    ("C"%char, 0.77%float); ("N"%char, 0.73%float); ("Y"%char, 0.61%float);
    ("P"%char, 0.59%float); ("G"%char, 0.53%float) ].

Definition P_BETA : list (ascii * float) :=
  [ ("M"%char, 1.67%float); ("V"%char, 1.65%float); ("I"%char, 1.60%float);
    ("C"%char, 1.30%float); ("Y"%char, 1.29%float); ("F"%char, 1.28%float);
    ("Q"%char, 1.23%float); ("L"%char, 1.22%float); ("T"%char, 1.20%float);
    ("W"%char, 1.19%float); ("A"%char, 0.97%float); ("R"%char, 0.90%float);
    ("G"%char, 0.81%float); ("D"%char, 0.80%float); ("K"%char, 0.74%float);
    ("S"%char, 0.72%float); ("H"%char, 0.71%float); ("N"%char, 0.65%float);
    ("P"%char, 0.62%float); ("E"%char, 0.26%float) ].

(** [table.get(res, default)]. *)
Fixpoint dict_get (table : list (ascii * float)) (res : ascii) (default : float) : float :=
  match table with
  | [] => default
  | (k, v) :: rest => if Ascii.eqb k res then v else dict_get rest res default
  end.

Definition pa (res : ascii) : float := dict_get P_ALPHA res 0.0%float.
Definition pb (res : ascii) : float := dict_get P_BETA res 0.0%float.

(* ================================================================= *)
(** ** Helpers of the predictor *)

(** [sum(v > 1.0 for v in vals)]. *)
Definition count_over_1 (vals : list float) : Z :=
  fold_left (fun acc v => acc + (if (1.0 <? v)%float then 1 else 0)) vals 0.

Definition window_has_min_over_1 (vals : list float) (min_count : Z) : bool :=
  min_count <=? count_over_1 vals.

(** One pass through the body of the [while changed] loop of
    [extend_segment]: the left test, then the right test on the boundaries
    the left test left behind. *)
Definition extend_round (prop_list : list float) (threshold_sum : float) (seq_len : Z)
    (start end_ : Z) : outcome (Z * Z * bool) :=
  '(start, changed) <-
     (if (0 <? start) && (3 <=? end_ - start + 1) then
        x <- getitem prop_list (start - 1) ;;
        let w_left := [x] ++ slice prop_list start (start + 3) in
        if (threshold_sum <=? py_sum w_left)%float
        then Returns (start - 1, true)
        else Returns (start, false)
      else Returns (start, false)) ;;
  if (end_ <? seq_len - 1) && (3 <=? end_ - start + 1) then
    y <- getitem prop_list (end_ + 1) ;;
    let w_right := slice prop_list (end_ - 2) (end_ + 1) ++ [y] in
    if (threshold_sum <=? py_sum w_right)%float
    then Returns (start, end_ + 1, true)
    else Returns (start, end_, changed)
  else Returns (start, end_, changed).

(** The loop itself: [changed] starts true, so the body always runs once. *)
Fixpoint extend_loop (fuel : nat) (prop_list : list float) (threshold_sum : float)
    (seq_len : Z) (start end_ : Z) : outcome (Z * Z) :=
  match fuel with
  | O => OutOfFuel
  | S fuel' =>
      '(start', end', changed) <- extend_round prop_list threshold_sum seq_len start end_ ;;
      if (changed : bool)
      then extend_loop fuel' prop_list threshold_sum seq_len start' end'
      else Returns (start', end')
  end.

(** Rounds granted to a call: one more than the room left of [start] plus
    the room right of [end_]. *)
Definition extend_fuel (start end_ seq_len : Z) : nat :=
  S (Z.to_nat start + Z.to_nat (seq_len - 1 - end_)).

Definition extend_segment (start end_ : Z) (prop_list : list float)
    (threshold_sum : float) (seq_len : Z) : outcome (Z * Z) :=
  extend_loop (extend_fuel start end_ seq_len) prop_list threshold_sum seq_len start end_.


(* ================================================================= *)
(** ** Merging *)

(** Python orders tuples lexicographically. *)
Definition seg_leb (a b : Z * Z) : bool :=
  (fst a <? fst b) || ((fst a =? fst b) && (snd a <=? snd b)).

Fixpoint insert_sorted (x : Z * Z) (l : list (Z * Z)) : list (Z * Z) :=
  match l with
  | [] => [x]
  | y :: t => if seg_leb x y then x :: l else y :: insert_sorted x t
  end.

(** [sorted(segments)].  The order on pairs of ints is total and two pairs
    that compare equal are the same pair, so every sorting algorithm gives
    this list. *)
Definition sorted (segments : list (Z * Z)) : list (Z * Z) :=
  fold_right insert_sorted [] segments.

(** Body of the [for s, e in segments[1:]] loop. *)
Definition merge_step (merged : list (Z * Z)) (seg : Z * Z) : outcome (list (Z * Z)) :=
  let '(s, e) := seg in
  '(ms, me) <- getitem merged (-1) ;;
  if s <=? me + 1
  then setitem merged (-1) (ms, Z.max me e)
  else Returns (merged ++ [(s, e)]).

Definition merge_segments (segments : list (Z * Z)) : outcome (list (Z * Z)) :=
  match segments with
  | [] => Returns []
  | _ :: _ =>
      let segments := sorted segments in
      first <- getitem segments 0 ;;
      for_each (slice_from segments 1) merge_step [first]
  end.

(* ================================================================= *)
(** ** Core prediction *)

(** The nucleation loops: [for i in range(0, N - w + 1)], a window of width
    [w] that has [min_count] values over 1.0 is extended and collected. *)
Definition nucleate (w min_count : Z) (threshold_sum : float)
    (prop_list : list float) (N : Z) : outcome (list (Z * Z)) :=
  for_each (range 0 (N - w + 1))
    (fun segments i =>
       let vals := slice prop_list i (i + w) in
       if window_has_min_over_1 vals min_count then
         '(s, e) <- extend_segment i (i + w - 1) prop_list threshold_sum N ;;
         Returns (segments ++ [(s, e)])
       else Returns segments)
    [].

Definition wH : Z := 6.
Definition wS : Z := 5.

Definition helix_segments (Palpha_list : list float) (N : Z) : outcome (list (Z * Z)) :=
  segs <- nucleate wH 4 4.0%float Palpha_list N ;;
  merge_segments segs.

Definition strand_segments (Pbeta_list : list float) (N : Z) : outcome (list (Z * Z)) :=
  segs <- nucleate wS 3 4.0000001%float Pbeta_list N ;;
  merge_segments segs.

(** [labels = ['-'] * N], then every position of every segment is set to
    [mark]. *)
Definition paint (segments : list (Z * Z)) (mark : ascii) (N : Z) : outcome (list ascii) :=
  for_each segments
    (fun labels '(s, e) =>
       for_each (range s (e + 1)) (fun labels k => setitem labels k mark) labels)
    (repeat "-"%char (Z.to_nat N)).

(** [[(labels_H[i] == 'H' and labels_S[i] == 'S') for i in range(N)]]. *)
Definition conflict_mask (labels_H labels_S : list ascii) (N : Z) : outcome (list bool) :=
  for_each (range 0 N)
    (fun mask i =>
       h <- getitem labels_H i ;;
       if Ascii.eqb h "H" then
         s <- getitem labels_S i ;;
         Returns (mask ++ [Ascii.eqb s "S"])
       else Returns (mask ++ [false]))
    [].

(** [while j + 1 < N and conflict_mask[j + 1]: j += 1]. *)
Fixpoint run_end (fuel : nat) (mask : list bool) (N j : Z) : outcome Z :=
  match fuel with
  | O => OutOfFuel
  | S fuel' =>
      if j + 1 <? N then
        b <- getitem mask (j + 1) ;;
        if (b : bool) then run_end fuel' mask N (j + 1) else Returns j
      else Returns j
  end.

(** [while i < N: ...], collecting the maximal runs of the mask. *)
Fixpoint find_conflicts (fuel : nat) (mask : list bool) (N i : Z)
    (conflict_regions : list (Z * Z)) : outcome (list (Z * Z)) :=
  match fuel with
  | O => OutOfFuel
  | S fuel' =>
      if i <? N then
        b <- getitem mask i ;;
        if (b : bool) then
          j <- run_end fuel mask N i ;;
          find_conflicts fuel' mask N (j + 1) (conflict_regions ++ [(i, j)])
        else find_conflicts fuel' mask N (i + 1) conflict_regions
      else Returns conflict_regions
  end.

Definition conflict_regions (mask : list bool) (N : Z) : outcome (list (Z * Z)) :=
  find_conflicts (S (Z.to_nat N)) mask N 0 [].

(** First pass over the final labels: helix, strand, or ['X'] where both
    claim the residue. *)
Definition mark_labels (labels_H labels_S : list ascii) (N : Z) : outcome (list ascii) :=
  for_each (range 0 N)
    (fun final_labels i =>
       h <- getitem labels_H i ;;
       final_labels <- (if Ascii.eqb h "H" then setitem final_labels i "H"%char
                        else Returns final_labels) ;;
       s <- getitem labels_S i ;;
       if Ascii.eqb s "S" then
         f <- getitem final_labels i ;;
         setitem final_labels i (if Ascii.eqb f "-" then "S"%char else "X"%char)
       else Returns final_labels)
    (repeat "-"%char (Z.to_nat N)).

(** A row of [resolved_choices]: (start, end, chosen, avg_Pa, avg_Pb). *)
Definition choice : Type := Z * Z * ascii * float * float.

(** Body of [for s, e in conflict_regions]. *)
Definition resolve_region (Palpha_list Pbeta_list : list float)
    (st : list ascii * list choice) (region : Z * Z)
  : outcome (list ascii * list choice) :=
  let '(final_labels, resolved_choices) := st in
  let '(s, e) := region in
  let pa_sum := py_sum (slice Palpha_list s (e + 1)) in
  let pb_sum := py_sum (slice Pbeta_list s (e + 1)) in
  let length := e - s + 1 in
  avg_pa <- py_div pa_sum length ;;
  avg_pb <- py_div pb_sum length ;;
  let chosen := if (avg_pa <? avg_pb)%float then "S"%char else "H"%char in
  final_labels <-
    for_each (range s (e + 1)) (fun fl k => setitem fl k chosen) final_labels ;;
  Returns (final_labels, resolved_choices ++ [(s, e, chosen, avg_pa, avg_pb)]).

Definition resolve_conflicts (Palpha_list Pbeta_list : list float)
    (final_labels : list ascii) (regions : list (Z * Z))
  : outcome (list ascii * list choice) :=
  for_each regions (resolve_region Palpha_list Pbeta_list) (final_labels, []).

(** The closing loop that turns a left-over ['X'] into ['H']. *)
Definition clean_residual (final_labels : list ascii) (N : Z) : outcome (list ascii) :=
  for_each (range 0 N)
    (fun final_labels i =>
       f <- getitem final_labels i ;;
       if Ascii.eqb f "X" then setitem final_labels i "H"%char
       else Returns final_labels)
    final_labels.

(** The script's variables once it has run.  [pr_marked] is [final_labels]
    after the first pass, [pr_resolved] after the region loop, [pr_final]
    after the closing loop. *)
Record prediction : Type := {
  pr_helix : list (Z * Z);
  pr_strand : list (Z * Z);
  pr_labels_H : list ascii;
  pr_labels_S : list ascii;
  pr_mask : list bool;
  pr_conflicts : list (Z * Z);
  pr_marked : list ascii;
  pr_choices : list choice;
  pr_resolved : list ascii;
  pr_final : list ascii
}.

(** Everything from the propensity arrays to the final labels. *)
Definition predict_arrays (Palpha_list Pbeta_list : list float) (N : Z) : outcome prediction :=
  hs <- helix_segments Palpha_list N ;;
  ss <- strand_segments Pbeta_list N ;;
  labels_H <- paint hs "H"%char N ;;
  labels_S <- paint ss "S"%char N ;;
  mask <- conflict_mask labels_H labels_S N ;;
  regions <- conflict_regions mask N ;;
  marked <- mark_labels labels_H labels_S N ;;
  '(resolved, choices) <- resolve_conflicts Palpha_list Pbeta_list marked regions ;;
  final <- clean_residual resolved N ;;
  Returns {| pr_helix := hs; pr_strand := ss;
             pr_labels_H := labels_H; pr_labels_S := labels_S; pr_mask := mask;
             pr_conflicts := regions; pr_marked := marked;
             pr_choices := choices; pr_resolved := resolved; pr_final := final |}.

(** The script on a sequence [SEQ] (already upper-cased and stripped). *)
Definition predict (SEQ : list ascii) : outcome prediction :=
  predict_arrays (map pa SEQ) (map pb SEQ) (len SEQ).

Definition final_str (SEQ : String.string) : outcome String.string :=
  p <- predict (String.list_ascii_of_string SEQ) ;;
  Returns (String.string_of_list_ascii (pr_final p)).

(* ================================================================= *)
(** ** Vocabulary of the specification *)

(** The propensity at a position inside the array. *)
Definition value_at (prop_list : list float) (i : Z) : float :=
  nth (Z.to_nat i) prop_list 0%float.

(** The left growth test in the specification's words: room on the left,
    a segment of at least three residues, and the four values at
    [start-1 .. start+2] summing to the threshold or more. *)
Definition left_step_taken (prop_list : list float) (threshold_sum : float)
    (start end_ : Z) : bool :=
  (0 <? start) && (3 <=? end_ - start + 1) &&
  (threshold_sum <=?
     py_sum [value_at prop_list (start - 1); value_at prop_list start;
             value_at prop_list (start + 1); value_at prop_list (start + 2)])%float.

(** Its mirror: the last three residues and the candidate at [end_+1]. *)
Definition right_step_taken (prop_list : list float) (threshold_sum : float)
    (seq_len : Z) (start end_ : Z) : bool :=
  (end_ <? seq_len - 1) && (3 <=? end_ - start + 1) &&
  (threshold_sum <=?
     py_sum [value_at prop_list (end_ - 2); value_at prop_list (end_ - 1);
             value_at prop_list end_; value_at prop_list (end_ + 1)])%float.

(** One round: at most one residue on each side. *)
Definition grow_round (prop_list : list float) (threshold_sum : float)
    (seq_len : Z) (seg : Z * Z) : Z * Z :=
  let '(start, end_) := seg in
  (if left_step_taken prop_list threshold_sum start end_ then start - 1 else start,
   if right_step_taken prop_list threshold_sum seq_len start end_ then end_ + 1 else end_).

(** A segment as the data model has it. *)
Definition segment_ok (seq_len : Z) (seg : Z * Z) : Prop :=
  0 <= fst seg /\ fst seg <= snd seg /\ snd seg <= seq_len - 1.

(** The Window Scanner: the positions at which the nucleation loop's test
    succeeds, in the order the loop visits them. *)
Definition seed_positions (w min_count : Z) (prop_list : list float) (N : Z) : list Z :=
  filter (fun i => window_has_min_over_1 (slice prop_list i (i + w)) min_count)
         (range 0 (N - w + 1)).

(** How many of the [w] values at [i .. i+w-1] are strictly above 1.0. *)
Definition over_1_in_window (prop_list : list float) (i w : Z) : Z :=
  len (filter (fun k => (1.0 <? value_at prop_list (i + k))%float) (range 0 w)).

(** What the nucleation loop does at an accepted position. *)
Definition nucleate_at (w : Z) (threshold_sum : float) (prop_list : list float) (N : Z)
    (segments : list (Z * Z)) (i : Z) : outcome (list (Z * Z)) :=
  '(s, e) <- extend_segment i (i + w - 1) prop_list threshold_sum N ;;
  Returns (segments ++ [(s, e)]).

(** The merge rule in the specification's words: walking the sorted
    segments with a current accumulator [acc], a segment whose start is at
    most [acc.end + 1] stretches the accumulator's end to the larger of the
    two ends, any other segment closes the accumulator and opens a new
    one. *)
Fixpoint merge_fold (closed : list (Z * Z)) (acc : Z * Z) (rest : list (Z * Z))
  : list (Z * Z) :=
  match rest with
  | [] => closed ++ [acc]
  | (s, e) :: rest' =>
      if s <=? snd acc + 1
      then merge_fold closed (fst acc, Z.max (snd acc) e) rest'
      else merge_fold (closed ++ [acc]) (s, e) rest'
  end.

Definition merge_by_rule (segments : list (Z * Z)) : list (Z * Z) :=
  match segments with
  | [] => []
  | first :: rest => merge_fold [] first rest
  end.

(** Starts in ascending order. *)
Definition by_start (a b : Z * Z) : Prop := fst a <= fst b.

(** [a] lies before [b] and the two neither overlap nor touch. *)
Definition apart (a b : Z * Z) : Prop := fst a <= fst b /\ snd a + 1 < fst b.

(** A residue code without an entry in a table. *)
Definition absent_from (table : list (ascii * float)) (res : ascii) : Prop :=
  ~ In res (map fst table).

(** Position [k] lies inside a window the scan accepts as a seed. *)
Definition in_seed (w min_count : Z) (prop_list : list float) (k : Z) : Prop :=
  exists i, In i (seed_positions w min_count prop_list (len prop_list)) /\
            i <= k < i + w.

(** The Extender with the window test left open: [accept w] stands where
    the code has [sum(w) >= threshold_sum]. *)
Definition extend_round_by (accept : list float -> bool) (prop_list : list float)
    (seq_len : Z) (start end_ : Z) : outcome (Z * Z * bool) :=
  '(start, changed) <-
     (if (0 <? start) && (3 <=? end_ - start + 1) then
        x <- getitem prop_list (start - 1) ;;
        let w_left := [x] ++ slice prop_list start (start + 3) in
        if accept w_left
        then Returns (start - 1, true)
        else Returns (start, false)
      else Returns (start, false)) ;;
  if (end_ <? seq_len - 1) && (3 <=? end_ - start + 1) then
    y <- getitem prop_list (end_ + 1) ;;
    let w_right := slice prop_list (end_ - 2) (end_ + 1) ++ [y] in
    if accept w_right
    then Returns (start, end_ + 1, true)
    else Returns (start, end_, changed)
  else Returns (start, end_, changed).

Fixpoint extend_loop_by (fuel : nat) (accept : list float -> bool)
    (prop_list : list float) (seq_len : Z) (start end_ : Z) : outcome (Z * Z) :=
  match fuel with
  | O => OutOfFuel
  | S fuel' =>
      '(start', end', changed) <- extend_round_by accept prop_list seq_len start end_ ;;
      if (changed : bool)
      then extend_loop_by fuel' accept prop_list seq_len start' end'
      else Returns (start', end')
  end.

Definition extend_segment_by (accept : list float -> bool) (start end_ : Z)
    (prop_list : list float) (seq_len : Z) : outcome (Z * Z) :=
  extend_loop_by (extend_fuel start end_ seq_len) accept prop_list seq_len start end_.

(** The strand test as the code writes it, as a strict comparison of the
    float sum, and as a strict comparison of the exact decimal sum. *)
Definition accept_emulated (w : list float) : bool := (4.0000001 <=? py_sum w)%float.
Definition accept_strict (w : list float) : bool := (4.0 <? py_sum w)%float.

(** The strand table's values and the default, each with the decimal it
    is written as, in hundredths. *)
Definition beta_decimals : list (float * Z) :=
  [ (1.67%float, 167); (1.65%float, 165); (1.60%float, 160); (1.30%float, 130);
    (1.29%float, 129); (1.28%float, 128); (1.23%float, 123); (1.22%float, 122);
    (1.20%float, 120); (1.19%float, 119); (0.97%float, 97); (0.90%float, 90);
    (0.81%float, 81); (0.80%float, 80); (0.74%float, 74); (0.72%float, 72);
    (0.71%float, 71); (0.65%float, 65); (0.62%float, 62); (0.26%float, 26);
    (0.0%float, 0) ].

Definition beta_values : list float := map fst beta_decimals.

Fixpoint hundredths_in (table : list (float * Z)) (v : float) : Z :=
  match table with
  | [] => 0
  | (x, c) :: rest => if PrimFloat.eqb x v then c else hundredths_in rest v
  end.

Definition hundredths (v : float) : Z := hundredths_in beta_decimals v.

Definition accept_exact (w : list float) : bool :=
  400 <? fold_left Z.add (map hundredths w) 0.

(** [sum(vals)] the way CPython computes it from version 3.12 on: the first
    value is added to the int zero, the others with Neumaier's compensation,
    and the compensation joins the result at the end. *)
Fixpoint compensated_loop (vals : list float) (f_result c : float) : float :=
  match vals with
  | [] => if negb (PrimFloat.is_zero c) && PrimFloat.is_finite c then (f_result + c)%float else f_result
  | x :: rest =>
      let t := (f_result + x)%float in
      let c := if (PrimFloat.abs x <=? PrimFloat.abs f_result)%float
               then (c + ((f_result - t) + x))%float
               else (c + ((x - t) + f_result))%float in
      compensated_loop rest t c
  end.

Definition py_sum_compensated (vals : list float) : float :=
  match vals with
  | [] => 0%float
  | x :: rest => compensated_loop rest (0 + x)%float 0%float
  end.

Definition accept_emulated_compensated (w : list float) : bool :=
  (4.0000001 <=? py_sum_compensated w)%float.
Definition accept_strict_compensated (w : list float) : bool :=
  (4.0 <? py_sum_compensated w)%float.

(** All windows of at most [n] more values after [prefix] pass [test]. *)
Fixpoint windows_pass (test : list float -> bool) (n : nat) (prefix : list float) : bool :=
  test prefix &&
  match n with
  | O => true
  | S n' => forallb (fun v => windows_pass test n' (prefix ++ [v])) beta_values
  end.

(** The label at a position. *)
Definition label_at (labels : list ascii) (k : Z) : ascii :=
  nth (Z.to_nat k) labels "-"%char.

(** Position [k] is labelled helix in one array and strand in the other. *)
Definition both_claim (labels_H labels_S : list ascii) (k : Z) : bool :=
  Ascii.eqb (label_at labels_H k) "H" && Ascii.eqb (label_at labels_S k) "S".

(** The mean of the propensities at exactly the positions [s .. e]. *)
Definition mean_over (prop_list : list float) (s e : Z) : float :=
  PrimFloat.div (py_sum (map (value_at prop_list) (range s (e + 1))))
                (float_of_Z (e - s + 1)).

(** Strand when the strand mean is strictly the larger, helix otherwise. *)
Definition chosen_for (Palpha_list Pbeta_list : list float) (s e : Z) : ascii :=
  if (mean_over Palpha_list s e <? mean_over Pbeta_list s e)%float
  then "S"%char else "H"%char.

(** The label the first pass gives a position. *)
Definition mark_of (h s : ascii) : ascii :=
  if Ascii.eqb h "H"
  then (if Ascii.eqb s "S" then "X"%char else "H"%char)
  else (if Ascii.eqb s "S" then "S"%char else "-"%char).

(** The conflict mask at a position. *)
Definition mask_at (mask : list bool) (k : Z) : bool := nth (Z.to_nat k) mask false.

(** [r] is a maximal run of the mask: inside the sequence, marked
    throughout, and not marked just before or just after. *)
Definition maximal_run (mask : list bool) (N : Z) (r : Z * Z) : Prop :=
  0 <= fst r /\ fst r <= snd r /\ snd r <= N - 1 /\
  (forall k, fst r <= k <= snd r -> mask_at mask k = true) /\
  (fst r = 0 \/ mask_at mask (fst r - 1) = false) /\
  (snd r = N - 1 \/ mask_at mask (snd r + 1) = false).

(** The row of [resolved_choices] the specification asks for a region. *)
Definition choice_of (Palpha_list Pbeta_list : list float) (r : Z * Z) : choice :=
  (fst r, snd r, chosen_for Palpha_list Pbeta_list (fst r) (snd r),
   mean_over Palpha_list (fst r) (snd r), mean_over Pbeta_list (fst r) (snd r)).

(* ================================================================= *)
(** ** Vocabulary for the further properties *)

(** Position [k] lies in the segment. *)
Definition covers (seg : Z * Z) (k : Z) : Prop := fst seg <= k <= snd seg.

(** Position [k] lies in one of the segments. *)
Definition covered_by (segments : list (Z * Z)) (k : Z) : Prop :=
  exists seg, In seg segments /\ covers seg k.

(** The extension test on the four values at [a .. a+3]. *)
Definition window_passes (prop_list : list float) (threshold_sum : float) (a : Z) : bool :=
  (threshold_sum <=?
     py_sum [value_at prop_list a; value_at prop_list (a + 1);
             value_at prop_list (a + 2); value_at prop_list (a + 3)])%float.

(** The order Python puts on pairs of ints. *)
Definition lex_le (a b : Z * Z) : Prop :=
  fst a < fst b \/ (fst a = fst b /\ snd a <= snd b).

(** A segment inside the sequence with at least [w] residues. *)
Definition long_segment (N w : Z) (seg : Z * Z) : Prop :=
  0 <= fst seg /\ snd seg <= N - 1 /\ w <= snd seg - fst seg + 1.

(** [segments_from_labels]: the inner loop
    [while j + 1 < n and labels[j + 1] == target: j += 1]. *)
Fixpoint label_run_end (fuel : nat) (labels : list ascii) (target : ascii) (n j : Z)
  : outcome Z :=
  match fuel with
  | O => OutOfFuel
  | S fuel' =>
      if j + 1 <? n then
        c <- getitem labels (j + 1) ;;
        if Ascii.eqb c target then label_run_end fuel' labels target n (j + 1)
        else Returns j
      else Returns j
  end.

(** The outer loop [while i < n]. *)
Fixpoint segments_loop (fuel : nat) (labels : list ascii) (target : ascii) (n i : Z)
    (out : list (Z * Z)) : outcome (list (Z * Z)) :=
  match fuel with
  | O => OutOfFuel
  | S fuel' =>
      if i <? n then
        c <- getitem labels i ;;
        if Ascii.eqb c target then
          j <- label_run_end fuel labels target n i ;;
          segments_loop fuel' labels target n (j + 1) (out ++ [(i, j)])
        else segments_loop fuel' labels target n (i + 1) out
      else Returns out
  end.

Definition segments_from_labels (labels : list ascii) (target : ascii)
  : outcome (list (Z * Z)) :=
  let n := len labels in
  segments_loop (S (Z.to_nat n)) labels target n 0 [].

(** Reading the input: [SEQ.upper()] and [c.isalpha()].  Python works on
    Unicode text; these definitions are its behaviour on ASCII characters
    (codes below 128), which is all the script's sequence holds. *)
Definition is_ascii (c : ascii) : bool := Nat.ltb (nat_of_ascii c) 128.
Definition is_upper (c : ascii) : bool :=
  Nat.leb 65 (nat_of_ascii c) && Nat.leb (nat_of_ascii c) 90.
Definition is_lower (c : ascii) : bool :=
  Nat.leb 97 (nat_of_ascii c) && Nat.leb (nat_of_ascii c) 122.
Definition isalpha (c : ascii) : bool := is_upper c || is_lower c.
Definition upper (c : ascii) : ascii :=
  if is_lower c then ascii_of_nat (nat_of_ascii c - 32) else c.

(** ["".join([c for c in SEQ.upper() if c.isalpha()])]. *)
Definition clean_sequence (text : list ascii) : list ascii :=
  filter isalpha (map upper text).

(** The report's
    [next(r for r in resolved_choices if r[0]==c[0] and r[1]==c[1])]: the
    first row of the region, [None] where Python raises [StopIteration]. *)
Definition next_row (resolved_choices : list choice) (c : Z * Z) : option choice :=
  find (fun r => match r with
                 | (s, e, _, _, _) => (s =? fst c) && (e =? snd c)
                 end) resolved_choices.

(** One row of the conflict report: the bounds of the region and the three
    values looked up for it. *)
Definition report_row (resolved_choices : list choice) (c : Z * Z) : option choice :=
  match next_row resolved_choices c, next_row resolved_choices c,
        next_row resolved_choices c with
  | Some (_, _, chosen, _, _), Some (_, _, _, avg_pa, _), Some (_, _, _, _, avg_pb) =>
      Some (fst c, snd c, chosen, avg_pa, avg_pb)
  | _, _, _ => None
  end.

Fixpoint report_rows (conflict_regions : list (Z * Z)) (resolved_choices : list choice)
  : option (list choice) :=
  match conflict_regions with
  | [] => Some []
  | c :: rest =>
      match report_row resolved_choices c, report_rows rest resolved_choices with
      | Some row, Some rows => Some (row :: rows)
      | _, _ => None
      end
  end.

(** [range(start, stop, step)] for a positive [step]. *)
Definition range_step (start stop step : Z) : list Z :=
  map (fun k => start + step * Z.of_nat k)
      (seq 0 (Z.to_nat ((stop - start + step - 1) / step))).

(** The blocked view at the end of the report: for each block the two
    header numbers, [block_seq] and [block_ann]. *)
Definition report_blocks (SEQ final_str : list ascii) (N : Z)
  : list (Z * Z * list ascii * list ascii) :=
  map (fun i =>
         let block_seq := slice SEQ i (i + 60) in
         let block_ann := slice final_str i (i + 60) in
         (i + 1, i + len block_seq, block_seq, block_ann))
      (range_step 0 N 60).

Definition block_seq_of (b : Z * Z * list ascii * list ascii) : list ascii :=
  match b with (_, _, block_seq, _) => block_seq end.
Definition block_ann_of (b : Z * Z * list ascii * list ascii) : list ascii :=
  match b with (_, _, _, block_ann) => block_ann end.

(* ================================================================= *)
(** ** Sanity checks on concrete sequences *)

Example final_EEEEEE : final_str "EEEEEE"%string = Returns "HHHHHH"%string.
Proof. vm_compute. reflexivity. Qed.

Example final_VVVVV : final_str "VVVVV"%string = Returns "SSSSS"%string.
Proof. vm_compute. reflexivity. Qed.

(* ================================================================= *)
(** ** Python lists: access inside the bounds *)

Lemma len_nonneg {A : Type} (l : list A) : 0 <= len l.
Proof. unfold len. lia. Qed.

Lemma getitem_in_range {A : Type} (l : list A) (i : Z) (d : A) :
  0 <= i < len l -> getitem l i = Returns (nth (Z.to_nat i) l d).
Proof.
  intros Hi. unfold getitem.
  replace (i <? 0) with false by (symmetry; apply Z.ltb_ge; lia).
  replace (i <? 0) with false by (symmetry; apply Z.ltb_ge; lia).
  replace (len l <=? i) with false by (symmetry; apply Z.leb_gt; lia).
  simpl.
  destruct (nth_error l (Z.to_nat i)) as [x|] eqn:E.
  - rewrite (nth_error_nth _ _ d E). reflexivity.
  - apply nth_error_None in E. unfold len in Hi. lia.
Qed.

Lemma slice_bound_in_range (n i : Z) : 0 <= i <= n -> slice_bound n i = i.
Proof.
  intros Hi. unfold slice_bound.
  replace (i <? 0) with false by (symmetry; apply Z.ltb_ge; lia).
  lia.
Qed.

Lemma slice_in_range {A : Type} (l : list A) (lo hi : Z) :
  0 <= lo -> lo <= hi -> hi <= len l ->
  slice l lo hi = firstn (Z.to_nat (hi - lo)) (skipn (Z.to_nat lo) l).
Proof.
  intros H0 H1 H2. unfold slice.
  rewrite !slice_bound_in_range by lia. reflexivity.
Qed.

Lemma firstn_skipn_cons {A : Type} (d : A) (n k : nat) (l : list A) :
  (k < length l)%nat ->
  firstn (S n) (skipn k l) = nth k l d :: firstn n (skipn (S k) l).
Proof.
  revert l. induction k as [|k IH]; intros l Hk.
  - destruct l as [|x l]; simpl in *; [lia | reflexivity].
  - destruct l as [|x l]; simpl in Hk; [lia |].
    change (skipn (S k) (x :: l)) with (skipn k l).
    change (skipn (S (S k)) (x :: l)) with (skipn (S k) l).
    change (nth (S k) (x :: l) d) with (nth k l d).
    apply IH. lia.
Qed.

(** A slice of three elements inside the list is those three elements. *)
Lemma slice_three (l : list float) (a : Z) :
  0 <= a -> a + 3 <= len l ->
  slice l a (a + 3) = [value_at l a; value_at l (a + 1); value_at l (a + 2)].
Proof.
  intros H0 H1. rewrite slice_in_range by lia.
  replace (Z.to_nat (a + 3 - a)) with 3%nat by lia.
  unfold value_at, len in *.
  rewrite (firstn_skipn_cons 0%float) by lia.
  rewrite (firstn_skipn_cons 0%float) by lia.
  rewrite (firstn_skipn_cons 0%float) by lia.
  rewrite firstn_O.
  replace (Z.to_nat (a + 1)) with (S (Z.to_nat a)) by lia.
  replace (Z.to_nat (a + 2)) with (S (S (Z.to_nat a))) by lia.
  reflexivity.
Qed.

(** The last three elements up to position [e]. *)
Lemma slice_last_three (l : list float) (e : Z) :
  2 <= e -> e + 1 <= len l ->
  slice l (e - 2) (e + 1) = [value_at l (e - 2); value_at l (e - 1); value_at l e].
Proof.
  intros H0 H1.
  replace (e + 1) with (e - 2 + 3) by lia.
  rewrite slice_three by lia.
  replace (e - 2 + 1) with (e - 1) by lia.
  replace (e - 2 + 2) with e by lia.
  reflexivity.
Qed.

(* ================================================================= *)
(** ** The Segment Extender *)

Section Extender.

Variable prop_list : list float.
Variable threshold_sum : float.
Variable seq_len : Z.

Let round := extend_round prop_list threshold_sum seq_len.
Let grow := grow_round prop_list threshold_sum seq_len.

(** A round that reports no change has moved neither boundary. *)
Lemma extend_round_unchanged (start end_ s' e' : Z) :
  round start end_ = Returns (s', e', false) -> s' = start /\ e' = end_.
Proof.
  unfold round, extend_round.
  destruct ((0 <? start) && (3 <=? end_ - start + 1)).
  - destruct (getitem prop_list (start - 1)) as [x| |]; simpl; try discriminate.
    destruct (threshold_sum <=? _)%float; simpl.
    + destruct ((end_ <? seq_len - 1) && (3 <=? end_ - (start - 1) + 1)).
      * destruct (getitem prop_list (end_ + 1)) as [y| |]; simpl; try discriminate.
        destruct (threshold_sum <=? _)%float; discriminate.
      * discriminate.
    + destruct ((end_ <? seq_len - 1) && (3 <=? end_ - start + 1)).
      * destruct (getitem prop_list (end_ + 1)) as [y| |]; simpl; try discriminate.
        destruct (threshold_sum <=? _)%float; [discriminate|].
        intros H; injection H; auto.
      * intros H; injection H; auto.
  - simpl.
    destruct ((end_ <? seq_len - 1) && (3 <=? end_ - start + 1)).
    + destruct (getitem prop_list (end_ + 1)) as [y| |]; simpl; try discriminate.
      destruct (threshold_sum <=? _)%float; [discriminate|].
      intros H; injection H; auto.
    + intros H; injection H; auto.
Qed.

(** Whatever a round returns lies within one step of where it started, and
    a change uses up room on the left or on the right. *)
Lemma extend_round_step (start end_ s' e' : Z) (changed : bool) :
  round start end_ = Returns (s', e', changed) ->
  (s' = start \/ (s' = start - 1 /\ 0 < start)) /\
  (e' = end_ \/ (e' = end_ + 1 /\ end_ < seq_len - 1)) /\
  (changed = true -> s' <> start \/ e' <> end_).
Proof.
  unfold round, extend_round.
  destruct ((0 <? start) && (3 <=? end_ - start + 1)) eqn:EL.
  - apply andb_prop in EL as [EL _]. apply Z.ltb_lt in EL.
    destruct (getitem prop_list (start - 1)) as [x| |]; simpl; try discriminate.
    destruct (threshold_sum <=? _)%float; simpl.
    + destruct ((end_ <? seq_len - 1) && (3 <=? end_ - (start - 1) + 1)) eqn:ER.
      * apply andb_prop in ER as [ER _]. apply Z.ltb_lt in ER.
        destruct (getitem prop_list (end_ + 1)) as [y| |]; simpl; try discriminate.
        destruct (threshold_sum <=? _)%float; intros H; injection H as <- <- <-;
          repeat split; auto; intros _; left; lia.
      * intros H; injection H as <- <- <-. repeat split; auto. intros _; left; lia.
    + destruct ((end_ <? seq_len - 1) && (3 <=? end_ - start + 1)) eqn:ER.
      * apply andb_prop in ER as [ER _]. apply Z.ltb_lt in ER.
        destruct (getitem prop_list (end_ + 1)) as [y| |]; simpl; try discriminate.
        destruct (threshold_sum <=? _)%float; intros H; injection H as <- <- <-;
          repeat split; auto; try (intros _; right; lia); discriminate.
      * intros H; injection H as <- <- <-. repeat split; auto. discriminate.
  - simpl.
    destruct ((end_ <? seq_len - 1) && (3 <=? end_ - start + 1)) eqn:ER.
    + apply andb_prop in ER as [ER _]. apply Z.ltb_lt in ER.
      destruct (getitem prop_list (end_ + 1)) as [y| |]; simpl; try discriminate.
      destruct (threshold_sum <=? _)%float; intros H; injection H as <- <- <-;
        repeat split; auto; try (intros _; right; lia); discriminate.
    + intros H; injection H as <- <- <-. repeat split; auto. discriminate.
Qed.

(** On a well-formed segment of an array that covers the sequence the code's
    round is the specification's round: the slices are the three values the
    specification names, no access raises, and [changed] is set exactly when
    a boundary moved. *)
Ltac right_window :=
  rewrite (getitem_in_range prop_list (_ + 1) 0%float) by lia;
  rewrite slice_last_three by lia; cbn [bind app];
  match goal with
  | |- context [nth (Z.to_nat ?i) prop_list 0%float] =>
      fold (value_at prop_list i)
  end;
  destruct (threshold_sum <=? _)%float; reflexivity.

Lemma extend_round_grow (start end_ : Z) :
  segment_ok seq_len (start, end_) -> seq_len <= len prop_list ->
  round start end_ =
    Returns (fst (grow (start, end_)), snd (grow (start, end_)),
             left_step_taken prop_list threshold_sum start end_
             || right_step_taken prop_list threshold_sum seq_len start end_).
Proof.
  intros (H0 & H1 & H2) HN. simpl in H0, H1, H2.
  unfold round, grow, extend_round, grow_round, left_step_taken, right_step_taken.
  cbn [fst snd].
  destruct (0 <? start) eqn:E0; cbn [andb].
  - apply Z.ltb_lt in E0.
    destruct (3 <=? end_ - start + 1) eqn:E3; cbn [andb].
    + apply Z.leb_le in E3.
      rewrite (getitem_in_range prop_list (start - 1) 0%float) by lia.
      rewrite slice_three by lia. cbn [bind app].
      fold (value_at prop_list (start - 1)).
      destruct (threshold_sum <=? _)%float; cbn [bind].
      * replace (3 <=? end_ - (start - 1) + 1) with true by (symmetry; apply Z.leb_le; lia).
        destruct (end_ <? seq_len - 1) eqn:E1; cbn [andb orb]; [|reflexivity].
        apply Z.ltb_lt in E1.
        right_window.
      * replace (3 <=? end_ - start + 1) with true by (symmetry; apply Z.leb_le; lia).
        destruct (end_ <? seq_len - 1) eqn:E1; cbn [andb orb]; [|reflexivity].
        apply Z.ltb_lt in E1.
        right_window.
    + cbn [bind]. rewrite E3. rewrite andb_false_r. reflexivity.
  - cbn [bind].
    destruct (3 <=? end_ - start + 1) eqn:E3.
    + apply Z.leb_le in E3.
      destruct (end_ <? seq_len - 1) eqn:E1; cbn [andb orb]; [|reflexivity].
      apply Z.ltb_lt in E1.
      right_window.
    + rewrite andb_false_r. reflexivity.
Qed.

(** The specification's round keeps a well-formed segment well-formed and
    moves each boundary outwards by at most one. *)
Lemma grow_round_ok (seg : Z * Z) :
  segment_ok seq_len seg ->
  segment_ok seq_len (grow seg) /\
  fst seg - 1 <= fst (grow seg) <= fst seg /\
  snd seg <= snd (grow seg) <= snd seg + 1.
Proof.
  destruct seg as [s e]. unfold segment_ok, grow, grow_round,
    left_step_taken, right_step_taken. cbn [fst snd].
  intros (H0 & H1 & H2).
  destruct (0 <? s) eqn:E0; destruct (e <? seq_len - 1) eqn:E1; cbn [andb];
    try apply Z.ltb_lt in E0; try apply Z.ltb_lt in E1;
    repeat match goal with
           | |- context [if ?b then _ else _] => destruct b
           end; lia.
Qed.

Lemma grow_round_fixed (seg : Z * Z) :
  grow seg = seg <->
  left_step_taken prop_list threshold_sum (fst seg) (snd seg)
  || right_step_taken prop_list threshold_sum seq_len (fst seg) (snd seg) = false.
Proof.
  destruct seg as [s e]. unfold grow, grow_round. cbn [fst snd].
  destruct (left_step_taken _ _ _ _), (right_step_taken _ _ _ _ _); cbn [orb];
    split; intros H; try reflexivity; try discriminate;
    injection H; intros; lia.
Qed.

Lemma iter_grow_ok (n : nat) (seg : Z * Z) :
  segment_ok seq_len seg ->
  segment_ok seq_len (Nat.iter n grow seg) /\
  fst (Nat.iter n grow seg) <= fst seg /\
  snd seg <= snd (Nat.iter n grow seg).
Proof.
  intros Hseg. induction n as [|n IH].
  - simpl. repeat split; try apply Hseg; lia.
  - rewrite Nat.iter_succ. destruct IH as (IH1 & IH2 & IH3).
    destruct (grow_round_ok _ IH1) as (G1 & G2 & G3).
    repeat split; try apply G1; lia.
Qed.

(** The loop, with fuel above the room that is left, follows the
    specification's rounds up to their first fixed point. *)
Lemma extend_loop_run (fuel : nat) (start end_ : Z) :
  segment_ok seq_len (start, end_) -> seq_len <= len prop_list ->
  (Z.to_nat (seq_len - (end_ - start + 1)) < fuel)%nat ->
  exists n : nat,
    extend_loop fuel prop_list threshold_sum seq_len start end_
      = Returns (Nat.iter n grow (start, end_)) /\
    grow (Nat.iter n grow (start, end_)) = Nat.iter n grow (start, end_) /\
    (forall k, (k < n)%nat ->
               grow (Nat.iter k grow (start, end_)) <> Nat.iter k grow (start, end_)) /\
    (n <= Z.to_nat (seq_len - (end_ - start + 1)))%nat.
Proof.
  intros Hseg HN. revert start end_ Hseg.
  induction fuel as [|fuel IH]; intros start end_ Hseg Hfuel; [lia|].
  cbn [extend_loop].
  fold round. rewrite (extend_round_grow _ _ Hseg HN). cbn [bind].
  destruct (grow_round_ok _ Hseg) as (G1 & G2 & G3). cbn [fst snd] in G2, G3.
  destruct (left_step_taken prop_list threshold_sum start end_
            || right_step_taken prop_list threshold_sum seq_len start end_) eqn:Ech.
  - assert (Hne : grow (start, end_) <> (start, end_)).
    { intros Heq. apply grow_round_fixed in Heq. cbn [fst snd] in Heq. congruence. }
    destruct (grow (start, end_)) as [s1 e1] eqn:Eg. cbn [fst snd] in *.
    assert (Hlen : end_ - start + 1 < e1 - s1 + 1).
    { destruct (Z.eq_dec s1 start), (Z.eq_dec e1 end_); subst; try lia.
      exfalso. apply Hne. reflexivity. }
    destruct G1 as (G10 & G11 & G12). cbn [fst snd] in *.
    destruct (IH s1 e1) as (n & R1 & R2 & R3 & R4).
    { repeat split; cbn [fst snd]; lia. }
    { lia. }
    exists (S n). rewrite Nat.iter_succ_r. fold grow. rewrite Eg.
    repeat split; auto; [|lia].
    intros k Hk. destruct k as [|k].
    + change (Nat.iter 0 grow (start, end_)) with (start, end_).
      rewrite Eg. exact Hne.
    + rewrite Nat.iter_succ_r. rewrite Eg. apply R3. lia.
  - exists 0%nat. change (Nat.iter 0 grow (start, end_)) with (start, end_).
    assert (Hfix : grow (start, end_) = (start, end_)).
    { apply grow_round_fixed. exact Ech. }
    rewrite Hfix. cbn [fst snd]. repeat split; auto; lia.
Qed.

Lemma extend_fuel_enough (start end_ : Z) :
  segment_ok seq_len (start, end_) ->
  (Z.to_nat (seq_len - (end_ - start + 1)) < extend_fuel start end_ seq_len)%nat.
Proof.
  intros (H0 & H1 & H2). cbn [fst snd] in *. unfold extend_fuel. lia.
Qed.

(** What the loop returns is a state on which one more round changes
    nothing. *)
Lemma extend_loop_settled (fuel : nat) (start end_ s' e' : Z) :
  extend_loop fuel prop_list threshold_sum seq_len start end_ = Returns (s', e') ->
  round s' e' = Returns (s', e', false).
Proof.
  revert start end_. induction fuel as [|fuel IH]; intros start end_; [discriminate|].
  cbn [extend_loop]. fold round.
  destruct (round start end_) as [[[s1 e1] ch]| |] eqn:Er; cbn [bind]; try discriminate.
  destruct ch.
  - apply IH.
  - intros H. injection H as <- <-.
    destruct (extend_round_unchanged _ _ _ _ Er) as [-> ->]. exact Er.
Qed.

(** A round uses no fuel. *)
Lemma extend_round_runs (start end_ : Z) : round start end_ <> OutOfFuel.
Proof.
  assert (G : forall i, getitem prop_list i <> OutOfFuel).
  { intros i. unfold getitem. destruct (_ || _); [discriminate|].
    destruct (nth_error _ _); discriminate. }
  unfold round, extend_round.
  destruct ((0 <? start) && (3 <=? end_ - start + 1)).
  - pose proof (G (start - 1)) as G1.
    destruct (getitem prop_list (start - 1)) as [x| |]; cbn [bind];
      [|discriminate|contradiction].
    destruct (threshold_sum <=? _)%float; cbn [bind];
      (destruct (_ && _);
       [pose proof (G (end_ + 1)) as G2;
        destruct (getitem prop_list (end_ + 1)) as [y| |]; cbn [bind];
        [destruct (threshold_sum <=? _)%float; discriminate|discriminate|contradiction]
       |discriminate]).
  - cbn [bind]. destruct (_ && _); [|discriminate].
    pose proof (G (end_ + 1)) as G2.
    destruct (getitem prop_list (end_ + 1)) as [y| |]; cbn [bind];
      [destruct (threshold_sum <=? _)%float; discriminate|discriminate|contradiction].
Qed.

(** Without any assumption on the array or the segment: what the loop
    returns is never inside the segment it started from. *)
Lemma extend_loop_outwards (fuel : nat) (start end_ s' e' : Z) :
  extend_loop fuel prop_list threshold_sum seq_len start end_ = Returns (s', e') ->
  s' <= start /\ end_ <= e'.
Proof.
  revert start end_. induction fuel as [|fuel IH]; intros start end_; [discriminate|].
  cbn [extend_loop]. fold round.
  destruct (round start end_) as [[[s1 e1] ch]| |] eqn:Er; cbn [bind]; try discriminate.
  destruct (extend_round_step _ _ _ _ _ Er) as (L & R & _).
  destruct ch.
  - intros H. apply IH in H. lia.
  - intros H. injection H as <- <-. lia.
Qed.

(** Without any assumption on the array: the room left of [start] plus the
    room right of [end_] bounds the rounds, whether the loop returns or
    raises. *)
Lemma extend_loop_total (n : nat) (start end_ : Z) :
  (Z.to_nat start + Z.to_nat (seq_len - 1 - end_) <= n)%nat ->
  exists r, r <> OutOfFuel /\
    forall fuel, (n < fuel)%nat ->
      extend_loop fuel prop_list threshold_sum seq_len start end_ = r.
Proof.
  revert start end_. induction n as [|n IH]; intros start end_ Hn.
  - destruct (round start end_) as [[[s1 e1] ch]| |] eqn:Er.
    + destruct (extend_round_step _ _ _ _ _ Er) as (L & R & C).
      destruct ch; [specialize (C eq_refl); lia|].
      exists (Returns (s1, e1)). split; [discriminate|].
      intros [|fuel] Hf; [lia|]. cbn [extend_loop]. fold round. rewrite Er. reflexivity.
    + exists (Raises e). split; [discriminate|].
      intros [|fuel] Hf; [lia|]. cbn [extend_loop]. fold round. rewrite Er. reflexivity.
    + exfalso. exact (extend_round_runs _ _ Er).
  - destruct (round start end_) as [[[s1 e1] ch]| |] eqn:Er.
    + destruct (extend_round_step _ _ _ _ _ Er) as (L & R & C).
      destruct ch.
      * specialize (C eq_refl).
        destruct (IH s1 e1) as (r & Hr & Hall); [lia|].
        exists r. split; [exact Hr|].
        intros [|fuel] Hf; [lia|]. cbn [extend_loop]. fold round. rewrite Er.
        cbn [bind]. apply Hall. lia.
      * exists (Returns (s1, e1)). split; [discriminate|].
        intros [|fuel] Hf; [lia|]. cbn [extend_loop]. fold round. rewrite Er. reflexivity.
    + exists (Raises e). split; [discriminate|].
      intros [|fuel] Hf; [lia|]. cbn [extend_loop]. fold round. rewrite Er. reflexivity.
    + exfalso. exact (extend_round_runs _ _ Er).
Qed.

(** C1. On a segment [0 <= start <= end_ <= seq_len-1] of an array that
    covers the sequence, the Extender returns the first fixed point of the
    specification's rounds: every round moves the left boundary exactly when
    [start > 0], the segment has at least three residues and the four values
    at [start-1 .. start+2] sum to the threshold or more, moves the right
    boundary on the mirror test with the last three residues and the value
    at [end_+1], and the loop stops at the first round that moves neither. *)
Theorem extend_segment_fixed_point (start end_ : Z) :
  0 <= start -> start <= end_ -> end_ <= seq_len - 1 -> seq_len <= len prop_list ->
  exists n : nat,
    extend_segment start end_ prop_list threshold_sum seq_len
      = Returns (Nat.iter n (grow_round prop_list threshold_sum seq_len) (start, end_)) /\
    grow_round prop_list threshold_sum seq_len
      (Nat.iter n (grow_round prop_list threshold_sum seq_len) (start, end_))
      = Nat.iter n (grow_round prop_list threshold_sum seq_len) (start, end_) /\
    (forall k, (k < n)%nat ->
       grow_round prop_list threshold_sum seq_len
         (Nat.iter k (grow_round prop_list threshold_sum seq_len) (start, end_))
       <> Nat.iter k (grow_round prop_list threshold_sum seq_len) (start, end_)).
Proof.
  intros H0 H1 H2 HN.
  assert (Hseg : segment_ok seq_len (start, end_)) by (repeat split; assumption).
  destruct (extend_loop_run _ _ _ Hseg HN (extend_fuel_enough _ _ Hseg))
    as (n & R1 & R2 & R3 & _).
  exists n. unfold extend_segment. auto.
Qed.

Lemma extend_segment_within (start end_ : Z) :
  segment_ok seq_len (start, end_) -> seq_len <= len prop_list ->
  exists s' e' : Z,
    extend_segment start end_ prop_list threshold_sum seq_len = Returns (s', e') /\
    s' <= start /\ end_ <= e' /\ segment_ok seq_len (s', e').
Proof.
  intros Hseg HN.
  destruct (extend_loop_run _ _ _ Hseg HN (extend_fuel_enough _ _ Hseg))
    as (n & R1 & _).
  destruct (iter_grow_ok n _ Hseg) as (I0 & I3 & I4).
  destruct (Nat.iter n grow (start, end_)) as [s' e'] eqn:E. cbn [fst snd] in *.
  exists s', e'. unfold extend_segment. rewrite R1. repeat split; try apply I0; lia.
Qed.

(** C7. The fixed-point loop terminates, whatever the array and the
    threshold: from a segment [0 <= start <= end_ <= seq_len-1] every amount
    of fuel above [seq_len - (end_ - start + 1)] gives one and the same
    outcome, which is not a cut-off, the fuel supplied by [extend_segment]
    is such an amount, and the outcome is a returned segment when the array
    covers the sequence; a round that continues leaves a strictly longer
    segment of length at most [seq_len]. *)
Theorem extend_segment_terminates (start end_ : Z) :
  0 <= start -> start <= end_ -> end_ <= seq_len - 1 ->
  (exists r : outcome (Z * Z),
      r <> OutOfFuel /\
      (forall fuel, (Z.to_nat (seq_len - (end_ - start + 1)) < fuel)%nat ->
         extend_loop fuel prop_list threshold_sum seq_len start end_ = r) /\
      extend_segment start end_ prop_list threshold_sum seq_len = r /\
      (seq_len <= len prop_list -> exists seg' : Z * Z, r = Returns seg')) /\
  (forall s e s' e',
      0 <= s -> s <= e -> e <= seq_len - 1 ->
      extend_round prop_list threshold_sum seq_len s e = Returns (s', e', true) ->
      e - s + 1 < e' - s' + 1 <= seq_len).
Proof.
  intros H0 H1 H2.
  assert (Hseg : segment_ok seq_len (start, end_)) by (repeat split; assumption).
  split.
  - destruct (extend_loop_total (Z.to_nat (seq_len - (end_ - start + 1))) start end_)
      as (r & Hr & Hall); [lia|].
    exists r. split; [exact Hr|]. split; [exact Hall|].
    assert (Hseg_r : extend_segment start end_ prop_list threshold_sum seq_len = r).
    { unfold extend_segment. apply Hall. apply extend_fuel_enough. exact Hseg. }
    split; [exact Hseg_r|].
    intros HN. destruct (extend_segment_within _ _ Hseg HN) as (s' & e' & R & _).
    exists (s', e'). rewrite <- Hseg_r. exact R.
  - intros s e s' e' Hs0 Hs1 Hs2 Hr.
    destruct (extend_round_step _ _ _ _ _ Hr) as (L & R & C).
    specialize (C eq_refl). lia.
Qed.

(** C8. The Extender is idempotent: run again on the segment it returned, it
    returns that segment. *)
Theorem extend_segment_idempotent (start end_ s' e' : Z) :
  extend_segment start end_ prop_list threshold_sum seq_len = Returns (s', e') ->
  extend_segment s' e' prop_list threshold_sum seq_len = Returns (s', e').
Proof.
  unfold extend_segment. intros H.
  apply extend_loop_settled in H.
  unfold extend_fuel. cbn [extend_loop]. fold round. rewrite H. reflexivity.
Qed.

(** C10. The Extender never shrinks a segment: from
    [0 <= start <= end_ <= seq_len-1], whatever it returns is a segment
    [s', e'] with [s' <= start] and [end_ <= e'], and on an array that
    covers the sequence it does return one, inside [0 .. seq_len-1]. *)
Theorem extend_segment_never_shrinks (start end_ : Z) :
  0 <= start -> start <= end_ -> end_ <= seq_len - 1 ->
  (forall s' e' : Z,
      extend_segment start end_ prop_list threshold_sum seq_len = Returns (s', e') ->
      s' <= start /\ end_ <= e') /\
  (seq_len <= len prop_list ->
   exists s' e' : Z,
     extend_segment start end_ prop_list threshold_sum seq_len = Returns (s', e') /\
     s' <= start /\ end_ <= e' /\ 0 <= s' /\ e' <= seq_len - 1).
Proof.
  intros H0 H1 H2. split.
  - intros s' e' H. unfold extend_segment in H.
    apply extend_loop_outwards in H. exact H.
  - intros HN.
    assert (Hseg : segment_ok seq_len (start, end_)) by (repeat split; assumption).
    destruct (extend_segment_within _ _ Hseg HN)
      as (s' & e' & R & L1 & L2 & I0 & I1 & I2).
    cbn [fst snd] in *.
    exists s', e'. repeat split; auto.
Qed.

End Extender.

(** The helix propensities of ["KEEEEK"], extended from the middle. *)
Lemma extend_segment_fixed_point_witness :
  exists n : nat,
    extend_segment 1 3 (map pa (String.list_ascii_of_string "KEEEEK")) 4.0%float 6
      = Returns (Nat.iter n (grow_round (map pa (String.list_ascii_of_string "KEEEEK"))
                               4.0%float 6) (1, 3)) /\
    grow_round (map pa (String.list_ascii_of_string "KEEEEK")) 4.0%float 6
      (Nat.iter n (grow_round (map pa (String.list_ascii_of_string "KEEEEK"))
                     4.0%float 6) (1, 3))
      = Nat.iter n (grow_round (map pa (String.list_ascii_of_string "KEEEEK"))
                      4.0%float 6) (1, 3) /\
    (forall k, (k < n)%nat ->
       grow_round (map pa (String.list_ascii_of_string "KEEEEK")) 4.0%float 6
         (Nat.iter k (grow_round (map pa (String.list_ascii_of_string "KEEEEK"))
                        4.0%float 6) (1, 3))
       <> Nat.iter k (grow_round (map pa (String.list_ascii_of_string "KEEEEK"))
                        4.0%float 6) (1, 3)).
Proof.
  apply (extend_segment_fixed_point
           (map pa (String.list_ascii_of_string "KEEEEK")) 4.0%float 6 1 3).
  - lia.
  - lia.
  - lia.
  - unfold len. simpl. lia.
Defined.

Lemma extend_segment_terminates_witness :
  (exists r : outcome (Z * Z),
      r <> OutOfFuel /\
      (forall fuel, (Z.to_nat (6 - (3 - 1 + 1)) < fuel)%nat ->
         extend_loop fuel (map pa (String.list_ascii_of_string "KEEEEK")) 4.0%float 6 1 3
         = r) /\
      extend_segment 1 3 (map pa (String.list_ascii_of_string "KEEEEK")) 4.0%float 6 = r /\
      (6 <= len (map pa (String.list_ascii_of_string "KEEEEK")) ->
       exists seg' : Z * Z, r = Returns seg')) /\
  (forall s e s' e',
      0 <= s -> s <= e -> e <= 6 - 1 ->
      extend_round (map pa (String.list_ascii_of_string "KEEEEK")) 4.0%float 6 s e
      = Returns (s', e', true) ->
      e - s + 1 < e' - s' + 1 <= 6).
Proof.
  apply (extend_segment_terminates
           (map pa (String.list_ascii_of_string "KEEEEK")) 4.0%float 6 1 3).
  - lia.
  - lia.
  - lia.
Defined.

Lemma extend_segment_idempotent_witness :
  extend_segment 0 5 (map pa (String.list_ascii_of_string "KEEEEK")) 4.0%float 6
  = Returns (0, 5).
Proof.
  apply (extend_segment_idempotent
           (map pa (String.list_ascii_of_string "KEEEEK")) 4.0%float 6 1 3 0 5).
  vm_compute. reflexivity.
Defined.

Lemma extend_segment_never_shrinks_witness :
  exists s' e' : Z,
    extend_segment 1 3 (map pa (String.list_ascii_of_string "KEEEEK")) 4.0%float 6
    = Returns (s', e') /\
    s' <= 1 /\ 3 <= e' /\ 0 <= s' /\ e' <= 6 - 1.
Proof.
  apply (extend_segment_never_shrinks
           (map pa (String.list_ascii_of_string "KEEEEK")) 4.0%float 6 1 3).
  - lia.
  - lia.
  - lia.
  - unfold len. simpl. lia.
Defined.

(** When [seq_len] runs past the array the right test reads outside it. *)
Example extend_segment_short_array :
  extend_segment 0 2 [1.5%float; 1.5%float; 1.5%float] 4.0%float 10
  = Raises IndexError.
Proof. vm_compute. reflexivity. Qed.

(* ================================================================= *)
(** ** The Window Scanner *)

Lemma range_In (a b i : Z) : In i (range a b) <-> a <= i < b.
Proof.
  unfold range. rewrite in_map_iff. split.
  - intros (k & <- & Hk). apply in_seq in Hk. lia.
  - intros Hi. exists (Z.to_nat (i - a)). split; [lia|]. apply in_seq. lia.
Qed.

Lemma range_ascending (a b : Z) : StronglySorted Z.lt (range a b).
Proof.
  unfold range. generalize (Z.to_nat (b - a)) as n. intros n.
  generalize 0%nat as k. induction n as [|n IH]; intros k; simpl.
  - constructor.
  - constructor; [apply IH|].
    apply Forall_forall. intros x Hx. apply in_map_iff in Hx as (j & <- & Hj).
    apply in_seq in Hj. lia.
Qed.

Lemma filter_ascending (f : Z -> bool) (l : list Z) :
  StronglySorted Z.lt l -> StronglySorted Z.lt (filter f l).
Proof.
  induction 1 as [|x l Hs IH Hall]; simpl; [constructor|].
  destruct (f x); [|exact IH].
  constructor; [exact IH|].
  apply Forall_forall. intros y Hy. apply filter_In in Hy as [Hy _].
  rewrite Forall_forall in Hall. auto.
Qed.

(** Skipping the rejected positions of a loop is looping over the accepted
    ones. *)
Lemma for_each_filter {A S : Type} (test : A -> bool) (body : S -> A -> outcome S)
    (xs : list A) (acc : S) :
  for_each xs (fun acc x => if test x then body acc x else Returns acc) acc
  = for_each (filter test xs) body acc.
Proof.
  revert acc. induction xs as [|x xs IH]; intros acc; simpl; [reflexivity|].
  destruct (test x); simpl.
  - destruct (body acc x); simpl; auto.
  - apply IH.
Qed.

Lemma firstn_skipn_nth {A : Type} (d : A) (n a : nat) (l : list A) :
  (a + n <= length l)%nat ->
  firstn n (skipn a l) = map (fun k => nth (a + k) l d) (seq 0 n).
Proof.
  revert a. induction n as [|n IH]; intros a Ha; [reflexivity|].
  rewrite (firstn_skipn_cons d) by lia.
  rewrite IH by lia. cbn [seq map]. rewrite Nat.add_0_r. f_equal.
  rewrite <- seq_shift, map_map. apply map_ext. intros k. f_equal. lia.
Qed.

(** A slice inside the array lists the values at its positions. *)
Lemma slice_values (l : list float) (i w : Z) :
  0 <= i -> 0 <= w -> i + w <= len l ->
  slice l i (i + w) = map (fun k => value_at l (i + k)) (range 0 w).
Proof.
  intros Hi Hw Hl. rewrite slice_in_range by lia.
  replace (i + w - i) with w by lia.
  rewrite (firstn_skipn_nth 0%float) by (unfold len in Hl; lia).
  unfold range. rewrite map_map. rewrite Z.sub_0_r.
  apply map_ext. intros k. unfold value_at. f_equal. lia.
Qed.

Lemma count_over_1_from (vals : list float) (acc : Z) :
  fold_left (fun acc v => acc + (if (1.0 <? v)%float then 1 else 0)) vals acc
  = acc + len (filter (fun v => (1.0 <? v)%float) vals).
Proof.
  revert acc. induction vals as [|v vals IH]; intros acc; simpl.
  - unfold len. simpl. lia.
  - rewrite IH. destruct (1.0 <? v)%float; unfold len; simpl; lia.
Qed.

Lemma count_over_1_filter (vals : list float) :
  count_over_1 vals = len (filter (fun v => (1.0 <? v)%float) vals).
Proof. unfold count_over_1. rewrite count_over_1_from. lia. Qed.

Lemma filter_map_len {A B : Type} (f : A -> B) (t : B -> bool) (l : list A) :
  len (filter t (map f l)) = len (filter (fun x => t (f x)) l).
Proof.
  unfold len. f_equal. induction l as [|x l IH]; simpl; [reflexivity|].
  destruct (t (f x)); simpl; lia.
Qed.

(** C2. The Window Scanner accepts exactly the positions [0 <= i <= N-w] at
    which at least [min_count] of the [w] values [i .. i+w-1] are strictly
    above 1.0, in ascending order; the nucleation loop extends exactly
    those, in that order; the helix scan runs with [w = 6] and
    [min_count = 4], the strand scan with [w = 5] and [min_count = 3]. *)
Theorem window_scanner_exact (prop_list : list float) (w min_count : Z)
    (threshold_sum : float) :
  0 <= w ->
  (forall i, In i (seed_positions w min_count prop_list (len prop_list)) <->
             0 <= i <= len prop_list - w /\
             min_count <= over_1_in_window prop_list i w) /\
  StronglySorted Z.lt (seed_positions w min_count prop_list (len prop_list)) /\
  nucleate w min_count threshold_sum prop_list (len prop_list)
    = for_each (seed_positions w min_count prop_list (len prop_list))
               (nucleate_at w threshold_sum prop_list (len prop_list)) [] /\
  (forall Palpha_list N,
      helix_segments Palpha_list N
      = (segs <- nucleate 6 4 4.0%float Palpha_list N ;; merge_segments segs)) /\
  (forall Pbeta_list N,
      strand_segments Pbeta_list N
      = (segs <- nucleate 5 3 4.0000001%float Pbeta_list N ;; merge_segments segs)).
Proof.
  intros Hw. split; [|split; [|split; [|split]]].
  - intros i. unfold seed_positions. rewrite filter_In, range_In.
    unfold window_has_min_over_1. rewrite Z.leb_le.
    split.
    + intros [Hi Ht]. split; [lia|].
      rewrite slice_values in Ht by lia.
      rewrite count_over_1_filter, filter_map_len in Ht. exact Ht.
    + intros [Hi Ht]. split; [lia|].
      rewrite slice_values by lia.
      rewrite count_over_1_filter, filter_map_len. exact Ht.
  - apply filter_ascending, range_ascending.
  - unfold nucleate, seed_positions, nucleate_at.
    rewrite <- for_each_filter. reflexivity.
  - reflexivity.
  - reflexivity.
Qed.

(* ================================================================= *)
(** ** The Segment Merger *)

Lemma len_app {A : Type} (l1 l2 : list A) : len (l1 ++ l2) = len l1 + len l2.
Proof. unfold len. rewrite length_app. lia. Qed.

Lemma getitem_last {A : Type} (l : list A) (x : A) :
  getitem (l ++ [x]) (-1) = Returns x.
Proof.
  unfold getitem. cbn [Z.ltb Z.compare]. rewrite len_app.
  change (len [x]) with 1.
  pose proof (len_nonneg l) as Hl.
  replace (-1 + (len l + 1) <? 0) with false by (symmetry; apply Z.ltb_ge; lia).
  replace (len l + 1 <=? -1 + (len l + 1)) with false by (symmetry; apply Z.leb_gt; lia).
  cbn [orb].
  replace (Z.to_nat (-1 + (len l + 1))) with (length l) by (unfold len; lia).
  rewrite nth_error_app2 by lia. rewrite Nat.sub_diag. reflexivity.
Qed.

Lemma replace_nth_last {A : Type} (l : list A) (x v : A) :
  replace_nth (length l) (l ++ [x]) v = l ++ [v].
Proof. induction l as [|y l IH]; simpl; [reflexivity | rewrite IH; reflexivity]. Qed.

Lemma setitem_last {A : Type} (l : list A) (x v : A) :
  setitem (l ++ [x]) (-1) v = Returns (l ++ [v]).
Proof.
  unfold setitem. cbn [Z.ltb Z.compare]. rewrite len_app.
  change (len [x]) with 1.
  pose proof (len_nonneg l) as Hl.
  replace (-1 + (len l + 1) <? 0) with false by (symmetry; apply Z.ltb_ge; lia).
  replace (len l + 1 <=? -1 + (len l + 1)) with false by (symmetry; apply Z.leb_gt; lia).
  cbn [orb].
  replace (Z.to_nat (-1 + (len l + 1))) with (length l) by (unfold len; lia).
  rewrite replace_nth_last. reflexivity.
Qed.

(** The loop over [merged], read and written at position [-1], is the
    rule's fold over a current accumulator. *)
Lemma merge_loop_fold (rest closed : list (Z * Z)) (acc : Z * Z) :
  for_each rest merge_step (closed ++ [acc]) = Returns (merge_fold closed acc rest).
Proof.
  revert closed acc. induction rest as [|[s e] rest IH]; intros closed [ms me].
  - reflexivity.
  - cbn [for_each merge_step merge_fold fst snd].
    rewrite getitem_last. cbn [bind].
    destruct (s <=? me + 1).
    + rewrite setitem_last. cbn [bind]. apply IH.
    + cbn [bind]. apply IH.
Qed.

Lemma insert_sorted_perm (x : Z * Z) (l : list (Z * Z)) :
  Permutation (x :: l) (insert_sorted x l).
Proof.
  induction l as [|y l IH]; simpl; [apply Permutation_refl|].
  destruct (seg_leb x y); [apply Permutation_refl|].
  eapply perm_trans; [apply perm_swap|]. apply perm_skip. exact IH.
Qed.

Lemma sorted_perm (segments : list (Z * Z)) : Permutation segments (sorted segments).
Proof.
  induction segments as [|x l IH]; simpl; [constructor|].
  eapply perm_trans; [apply perm_skip; exact IH|]. apply insert_sorted_perm.
Qed.

Section InsertionSort.

Variable R : Z * Z -> Z * Z -> Prop.
Hypothesis R_of_leb : forall x y, seg_leb x y = true -> R x y.
Hypothesis R_of_gtb : forall x y, seg_leb x y = false -> R y x.

Lemma insert_sorted_Sorted (x : Z * Z) (l : list (Z * Z)) :
  Sorted R l -> Sorted R (insert_sorted x l).
Proof.
  induction 1 as [|y l Hs IH Hd]; simpl.
  - constructor; constructor.
  - destruct (seg_leb x y) eqn:E.
    + constructor; [constructor; assumption|]. constructor. auto.
    + constructor; [exact IH|].
      destruct l as [|z l]; simpl.
      * constructor. auto.
      * destruct (seg_leb x z); constructor; auto.
        inversion Hd; assumption.
Qed.

Lemma sorted_Sorted (segments : list (Z * Z)) : Sorted R (sorted segments).
Proof.
  induction segments as [|x l IH]; simpl; [constructor|].
  apply insert_sorted_Sorted. exact IH.
Qed.

End InsertionSort.

(** [sorted] orders the pairs lexicographically, as Python does. *)
Lemma sorted_lexicographic (segments : list (Z * Z)) :
  Sorted (fun a b => fst a < fst b \/ (fst a = fst b /\ snd a <= snd b))
         (sorted segments).
Proof.
  apply sorted_Sorted; intros [a1 a2] [b1 b2]; unfold seg_leb; cbn [fst snd];
    intros H.
  - apply orb_true_iff in H as [H | H].
    + left. apply Z.ltb_lt. exact H.
    + apply andb_prop in H as [H1 H2]. right. split; [apply Z.eqb_eq | apply Z.leb_le]; assumption.
  - apply orb_false_iff in H as [H1 H2]. apply Z.ltb_ge in H1.
    destruct (Z.eq_dec a1 b1) as [->|Hne]; [|left; lia].
    rewrite Z.eqb_refl in H2. cbn [andb] in H2. apply Z.leb_gt in H2. right. lia.
Qed.

Lemma sorted_by_start (segments : list (Z * Z)) :
  StronglySorted by_start (sorted segments).
Proof.
  apply Sorted_StronglySorted.
  - intros a b c. unfold by_start. lia.
  - apply sorted_Sorted; intros [a1 a2] [b1 b2]; unfold seg_leb, by_start;
      cbn [fst snd]; intros H.
    + apply orb_true_iff in H as [H | H].
      * apply Z.ltb_lt in H. lia.
      * apply andb_prop in H as [H _]. apply Z.eqb_eq in H. lia.
    + apply orb_false_iff in H as [H _]. apply Z.ltb_ge in H. lia.
Qed.

Lemma StronglySorted_snoc {A : Type} (R : A -> A -> Prop) (l : list A) (a : A) :
  StronglySorted R l -> Forall (fun x => R x a) l -> StronglySorted R (l ++ [a]).
Proof.
  induction 1 as [|x l Hs IH Hx]; intros Ha; simpl.
  - constructor; constructor.
  - inversion Ha as [|? ? Hxa Hla]; subst.
    constructor; [apply IH; exact Hla|].
    apply Forall_app. split; [exact Hx|]. constructor; [exact Hxa | constructor].
Qed.

Lemma StronglySorted_nth_error {A : Type} (R : A -> A -> Prop) (l : list A) :
  StronglySorted R l ->
  forall i j a b, (i < j)%nat -> nth_error l i = Some a -> nth_error l j = Some b -> R a b.
Proof.
  induction 1 as [|x l Hs IH Hx]; intros i j a b Hij Hi Hj.
  - destruct i; discriminate.
  - destruct j as [|j]; [lia|]. simpl in Hj.
    destruct i as [|i]; simpl in Hi.
    + injection Hi as <-. rewrite Forall_forall in Hx. apply Hx.
      eapply nth_error_In; eassumption.
    + apply (IH i j); auto; lia.
Qed.

(** The rule's fold keeps the closed segments and the accumulator apart as
    long as the remaining segments start no earlier than the accumulator. *)
Lemma merge_fold_apart (rest closed : list (Z * Z)) (acc : Z * Z) :
  StronglySorted apart closed ->
  Forall (fun x => apart x acc) closed ->
  StronglySorted by_start (acc :: rest) ->
  StronglySorted apart (merge_fold closed acc rest).
Proof.
  revert closed acc. induction rest as [|[s e] rest IH]; intros closed acc Hc Ha Hr.
  - simpl. apply StronglySorted_snoc; assumption.
  - inversion Hr as [|? ? Hrest Hacc]; subst.
    inversion Hacc as [|? ? Hse Hacc']; subst.
    inversion Hrest as [|? ? Hrest' Hse']; subst.
    unfold by_start in Hse. cbn [fst] in Hse.
    cbn [merge_fold]. destruct (s <=? snd acc + 1) eqn:E.
    + apply IH; [exact Hc | |].
      * eapply Forall_impl; [|exact Ha]. intros x Hx. unfold apart in *. exact Hx.
      * constructor; [exact Hrest'|].
        eapply Forall_impl; [|exact Hacc']. intros x Hx. unfold by_start in *. exact Hx.
    + apply Z.leb_gt in E. apply IH.
      * apply StronglySorted_snoc; assumption.
      * apply Forall_app. split.
        -- eapply Forall_impl; [|exact Ha]. intros x Hx. unfold apart in *.
           cbn [fst snd]. lia.
        -- constructor; [|constructor]. unfold apart. cbn [fst snd]. lia.
      * exact Hrest.
Qed.

Lemma merge_by_rule_apart (segments : list (Z * Z)) :
  StronglySorted by_start segments -> StronglySorted apart (merge_by_rule segments).
Proof.
  intros Hs. destruct segments as [|first rest]; simpl; [constructor|].
  apply merge_fold_apart; auto; constructor.
Qed.

Lemma merge_segments_rule (segments : list (Z * Z)) :
  merge_segments segments = Returns (merge_by_rule (sorted segments)).
Proof.
  destruct segments as [|x l]; [reflexivity|].
  unfold merge_segments.
  pose proof (Permutation_length (sorted_perm (x :: l))) as Hlen.
  destruct (sorted (x :: l)) as [|first rest] eqn:E; [discriminate|].
  rewrite (getitem_in_range (first :: rest) 0 first)
    by (unfold len; cbn [length]; lia).
  cbn [bind Z.to_nat nth].
  unfold slice_from, slice_bound. cbn [Z.ltb Z.compare].
  replace (Z.min 1 (len (first :: rest))) with 1 by (unfold len; cbn [length]; lia).
  change (skipn (Z.to_nat 1) (first :: rest)) with rest.
  apply (merge_loop_fold rest [] first).
Qed.

(** C4. For every list of segments, in any order and overlapping or not,
    the Merger returns the rule's fold over the list sorted by start (a
    segment joins the accumulator exactly when its start is at most the
    accumulator's end plus one, and the accumulator's end becomes the larger
    of the two ends); in what it returns, any two segments at positions
    [i < j] satisfy [start_i <= start_j] and [end_i + 1 < start_j]. *)
Theorem merge_segments_disjoint (segments : list (Z * Z)) :
  Permutation segments (sorted segments) /\
  StronglySorted by_start (sorted segments) /\
  exists merged : list (Z * Z),
    merge_segments segments = Returns merged /\
    merged = merge_by_rule (sorted segments) /\
    (forall i j a b, (i < j)%nat ->
       nth_error merged i = Some a -> nth_error merged j = Some b ->
       fst a <= fst b /\ snd a + 1 < fst b).
Proof.
  split; [apply sorted_perm|]. split; [apply sorted_by_start|].
  exists (merge_by_rule (sorted segments)).
  split; [apply merge_segments_rule|]. split; [reflexivity|].
  intros i j a b Hij Hi Hj.
  exact (StronglySorted_nth_error apart _
           (merge_by_rule_apart _ (sorted_by_start segments)) i j a b Hij Hi Hj).
Qed.

Example merge_segments_example :
  merge_segments [(7, 9); (0, 3); (2, 5); (6, 6); (11, 12)]
  = Returns [(0, 9); (11, 12)].
Proof. vm_compute. reflexivity. Qed.

(* ================================================================= *)
(** ** Residues outside the tables *)

Lemma dict_get_absent (table : list (ascii * float)) (res : ascii) (default : float) :
  absent_from table res -> dict_get table res default = default.
Proof.
  unfold absent_from. induction table as [|[k v] table IH]; simpl; intros H.
  - reflexivity.
  - destruct (Ascii.eqb k res) eqn:E.
    + apply Ascii.eqb_eq in E. exfalso. apply H. left. exact E.
    + apply IH. intros Hin. apply H. right. exact Hin.
Qed.

Lemma value_at_map {A : Type} (f : A -> float) (l : list A) (k : nat) (x : A) :
  nth_error l k = Some x -> value_at (map f l) (Z.of_nat k) = f x.
Proof.
  intros H. unfold value_at. rewrite Nat2Z.id.
  apply nth_error_nth. rewrite nth_error_map, H. reflexivity.
Qed.

Lemma over_1_in_window_skip (prop_list : list float) (k i w : Z) :
  (1.0 <? value_at prop_list k)%float = false ->
  over_1_in_window prop_list i w
  = len (filter (fun j => negb (i + j =? k) && (1.0 <? value_at prop_list (i + j))%float)
                (range 0 w)).
Proof.
  intros Hk. unfold over_1_in_window. f_equal. apply filter_ext. intros j.
  destruct (i + j =? k) eqn:E; cbn [negb andb]; [|reflexivity].
  apply Z.eqb_eq in E. rewrite E. exact Hk.
Qed.

(** C9, as the code has it.  A residue code absent from both tables puts
    0.0 into both propensity arrays; its position never passes the
    [> 1.0] test, so in every window that contains it the count that
    decides nucleation is the count over the other positions. *)
Theorem unknown_residue_never_counts (SEQ : list ascii) (k : nat) (res : ascii) :
  nth_error SEQ k = Some res ->
  absent_from P_ALPHA res -> absent_from P_BETA res ->
  value_at (map pa SEQ) (Z.of_nat k) = 0.0%float /\
  value_at (map pb SEQ) (Z.of_nat k) = 0.0%float /\
  (1.0 <? value_at (map pa SEQ) (Z.of_nat k))%float = false /\
  (1.0 <? value_at (map pb SEQ) (Z.of_nat k))%float = false /\
  (forall i w,
      over_1_in_window (map pa SEQ) i w
      = len (filter (fun j => negb (i + j =? Z.of_nat k)
                              && (1.0 <? value_at (map pa SEQ) (i + j))%float)
                    (range 0 w))) /\
  (forall i w,
      over_1_in_window (map pb SEQ) i w
      = len (filter (fun j => negb (i + j =? Z.of_nat k)
                              && (1.0 <? value_at (map pb SEQ) (i + j))%float)
                    (range 0 w))).
Proof.
  intros Hk Ha Hb.
  assert (Va : value_at (map pa SEQ) (Z.of_nat k) = 0.0%float).
  { rewrite (value_at_map pa SEQ k res Hk). apply dict_get_absent. exact Ha. }
  assert (Vb : value_at (map pb SEQ) (Z.of_nat k) = 0.0%float).
  { rewrite (value_at_map pb SEQ k res Hk). apply dict_get_absent. exact Hb. }
  assert (Ta : (1.0 <? value_at (map pa SEQ) (Z.of_nat k))%float = false)
    by (rewrite Va; reflexivity).
  assert (Tb : (1.0 <? value_at (map pb SEQ) (Z.of_nat k))%float = false)
    by (rewrite Vb; reflexivity).
  repeat split; auto; intros i w; apply over_1_in_window_skip; assumption.
Qed.

Lemma X_absent_from_P_ALPHA : absent_from P_ALPHA "X"%char.
Proof.
  unfold absent_from. simpl. intros H.
  repeat (destruct H as [H | H]; [discriminate H|]). exact H.
Qed.

Lemma X_absent_from_P_BETA : absent_from P_BETA "X"%char.
Proof.
  unfold absent_from. simpl. intros H.
  repeat (destruct H as [H | H]; [discriminate H|]). exact H.
Qed.

(** In ["XEEEEE"] the five glutamates carry the only helix window, which
    starts at the unknown residue: position 0 is part of a seed. *)
Lemma unknown_residue_inside_seed :
  ~ (forall (SEQ : list ascii) (k : nat) (res : ascii),
        nth_error SEQ k = Some res ->
        absent_from P_ALPHA res -> absent_from P_BETA res ->
        ~ in_seed wH 4 (map pa SEQ) (Z.of_nat k) /\
        ~ in_seed wS 3 (map pb SEQ) (Z.of_nat k)).
Proof.
  intros H.
  destruct (H (String.list_ascii_of_string "XEEEEE") 0%nat "X"%char eq_refl
              X_absent_from_P_ALPHA X_absent_from_P_BETA) as [Hh _].
  apply Hh. exists 0. split.
  - vm_compute. left. reflexivity.
  - unfold wH. simpl. lia.
Qed.

Example final_XEEEEE : final_str "XEEEEE"%string = Returns "HHHHHH"%string.
Proof. vm_compute. reflexivity. Qed.

Lemma unknown_residue_never_counts_witness :
  value_at (map pa (String.list_ascii_of_string "XEEEEE")) (Z.of_nat 0) = 0.0%float.
Proof.
  apply (unknown_residue_never_counts
           (String.list_ascii_of_string "XEEEEE") 0%nat "X"%char).
  - reflexivity.
  - exact X_absent_from_P_ALPHA.
  - exact X_absent_from_P_BETA.
Defined.

(* ================================================================= *)
(** ** The strand threshold *)

Lemma extend_loop_by_threshold (fuel : nat) (prop_list : list float)
    (threshold_sum : float) (seq_len start end_ : Z) :
  extend_loop fuel prop_list threshold_sum seq_len start end_
  = extend_loop_by fuel (fun w => (threshold_sum <=? py_sum w)%float)
                   prop_list seq_len start end_.
Proof.
  revert start end_. induction fuel as [|fuel IH]; intros start end_; [reflexivity|].
  cbn [extend_loop extend_loop_by].
  change (extend_round_by (fun w => (threshold_sum <=? py_sum w)%float)
            prop_list seq_len start end_)
    with (extend_round prop_list threshold_sum seq_len start end_).
  destruct (extend_round prop_list threshold_sum seq_len start end_)
    as [[[s1 e1] ch]| |]; cbn [bind]; try reflexivity.
  destruct ch; [apply IH | reflexivity].
Qed.

Lemma getitem_In {A : Type} (l : list A) (i : Z) (x : A) :
  getitem l i = Returns x -> In x l.
Proof.
  unfold getitem. destruct (_ || _); [discriminate|].
  destruct (nth_error l _) eqn:E; [|discriminate].
  intros H. injection H as <-. eapply nth_error_In. exact E.
Qed.

Lemma In_firstn {A : Type} (n : nat) (l : list A) (x : A) :
  In x (firstn n l) -> In x l.
Proof.
  revert l. induction n as [|n IH]; intros [|y l]; simpl; try contradiction.
  intros [H | H]; [left; exact H | right; apply IH; exact H].
Qed.

Lemma In_skipn {A : Type} (n : nat) (l : list A) (x : A) :
  In x (skipn n l) -> In x l.
Proof.
  revert l. induction n as [|n IH]; intros [|y l]; simpl; auto.
Qed.

Lemma slice_incl {A : Type} (l : list A) (lo hi : Z) (x : A) :
  In x (slice l lo hi) -> In x l.
Proof.
  unfold slice. intros H. apply In_firstn in H. eapply In_skipn. exact H.
Qed.

Lemma slice_span_three {A : Type} (l : list A) (lo : Z) :
  (length (slice l lo (lo + 3)) <= 3)%nat.
Proof.
  unfold slice. rewrite length_firstn.
  pose proof (len_nonneg l) as Hn.
  assert (slice_bound (len l) (lo + 3) - slice_bound (len l) lo <= 3).
  { unfold slice_bound.
    destruct (lo + 3 <? 0) eqn:E1; destruct (lo <? 0) eqn:E2;
      try apply Z.ltb_lt in E1; try apply Z.ltb_ge in E1;
      try apply Z.ltb_lt in E2; try apply Z.ltb_ge in E2; lia. }
  lia.
Qed.

Section WindowTests.

Variables accept1 accept2 : list float -> bool.
Variable allowed : float -> Prop.
Hypothesis accept_agree :
  forall w, Forall allowed w -> (length w <= 4)%nat -> accept1 w = accept2 w.
Variable prop_list : list float.
Hypothesis prop_list_allowed : Forall allowed prop_list.

Lemma left_window_agree (x : float) (start : Z) :
  In x prop_list ->
  accept1 ([x] ++ slice prop_list start (start + 3))
  = accept2 ([x] ++ slice prop_list start (start + 3)).
Proof.
  intros Hx. rewrite Forall_forall in prop_list_allowed. apply accept_agree.
  - apply Forall_forall. intros v [<- | Hv]; [auto|].
    apply prop_list_allowed. eapply slice_incl. exact Hv.
  - pose proof (slice_span_three prop_list start). simpl. lia.
Qed.

Lemma right_window_agree (y : float) (end_ : Z) :
  In y prop_list ->
  accept1 (slice prop_list (end_ - 2) (end_ + 1) ++ [y])
  = accept2 (slice prop_list (end_ - 2) (end_ + 1) ++ [y]).
Proof.
  intros Hy. rewrite Forall_forall in prop_list_allowed. apply accept_agree.
  - apply Forall_forall. intros v Hv. apply in_app_or in Hv as [Hv | [<- | []]]; [|auto].
    apply prop_list_allowed. eapply slice_incl. exact Hv.
  - pose proof (slice_span_three prop_list (end_ - 2)) as H.
    replace (end_ - 2 + 3) with (end_ + 1) in H by lia.
    rewrite length_app. simpl. lia.
Qed.

Lemma extend_round_by_agree (seq_len start end_ : Z) :
  extend_round_by accept1 prop_list seq_len start end_
  = extend_round_by accept2 prop_list seq_len start end_.
Proof.
  unfold extend_round_by.
  assert (R : forall s ch,
    (if (end_ <? seq_len - 1) && (3 <=? end_ - s + 1)
     then y <- getitem prop_list (end_ + 1) ;;
          (if accept1 (slice prop_list (end_ - 2) (end_ + 1) ++ [y])
           then Returns (s, end_ + 1, true) else Returns (s, end_, ch))
     else Returns (s, end_, ch))
    = (if (end_ <? seq_len - 1) && (3 <=? end_ - s + 1)
       then y <- getitem prop_list (end_ + 1) ;;
            (if accept2 (slice prop_list (end_ - 2) (end_ + 1) ++ [y])
             then Returns (s, end_ + 1, true) else Returns (s, end_, ch))
       else Returns (s, end_, ch))).
  { intros s ch. destruct (_ && _); [|reflexivity].
    destruct (getitem prop_list (end_ + 1)) as [y| |] eqn:Ey; cbn [bind]; try reflexivity.
    rewrite (right_window_agree y end_ (getitem_In _ _ _ Ey)). reflexivity. }
  destruct ((0 <? start) && (3 <=? end_ - start + 1)).
  - destruct (getitem prop_list (start - 1)) as [x| |] eqn:Ex; cbn [bind]; try reflexivity.
    rewrite (left_window_agree x start (getitem_In _ _ _ Ex)).
    destruct (accept2 _); cbn [bind]; apply R.
  - cbn [bind]. apply R.
Qed.

Lemma extend_loop_by_agree (fuel : nat) (seq_len start end_ : Z) :
  extend_loop_by fuel accept1 prop_list seq_len start end_
  = extend_loop_by fuel accept2 prop_list seq_len start end_.
Proof.
  revert start end_. induction fuel as [|fuel IH]; intros start end_; [reflexivity|].
  cbn [extend_loop_by]. rewrite extend_round_by_agree.
  destruct (extend_round_by accept2 prop_list seq_len start end_)
    as [[[s1 e1] ch]| |]; cbn [bind]; try reflexivity.
  destruct ch; [apply IH | reflexivity].
Qed.

End WindowTests.

Lemma windows_pass_sound (test : list float -> bool) (n : nat) (prefix : list float) :
  windows_pass test n prefix = true ->
  forall w, Forall (fun v => In v beta_values) w -> (length w <= n)%nat ->
            test (prefix ++ w) = true.
Proof.
  revert prefix. induction n as [|n IH]; intros prefix Hp w Hw Hlen.
  - destruct w; [|simpl in Hlen; lia].
    rewrite app_nil_r. simpl in Hp. apply andb_prop in Hp. apply Hp.
  - destruct w as [|v w].
    + rewrite app_nil_r. simpl in Hp. apply andb_prop in Hp. apply Hp.
    + cbn [windows_pass] in Hp. apply andb_prop in Hp as [_ Hp].
      rewrite forallb_forall in Hp.
      inversion Hw as [|? ? Hv Hw']; subst.
      change (v :: w) with ([v] ++ w). rewrite app_assoc.
      apply IH; [apply Hp; exact Hv | exact Hw' | simpl in Hlen; lia].
Qed.

(** Every window of at most four strand values: the three tests agree. *)
Lemma strand_windows_checked :
  windows_pass
    (fun w => Bool.eqb (accept_emulated w) (accept_strict w)
              && Bool.eqb (accept_emulated w) (accept_exact w)) 4 [] = true.
Proof. vm_compute. reflexivity. Qed.

Lemma strand_tests_agree (w : list float) :
  Forall (fun v => In v beta_values) w -> (length w <= 4)%nat ->
  accept_emulated w = accept_strict w /\ accept_emulated w = accept_exact w.
Proof.
  intros Hw Hlen.
  pose proof (windows_pass_sound _ 4 [] strand_windows_checked w Hw Hlen) as H.
  cbn [app] in H. apply andb_prop in H as [H1 H2].
  split; apply Bool.eqb_prop; assumption.
Qed.

(** The decimals of [beta_decimals] are the table's: each float is the
    double nearest to its hundredths over 100, and the floats are the
    values of [P_BETA] and the default. *)
Lemma beta_decimals_faithful :
  map fst beta_decimals
  = map (fun p => PrimFloat.div (float_of_Z (snd p)) 100%float) beta_decimals /\
  beta_values = map snd P_BETA ++ [0.0%float].
Proof. split; vm_compute; reflexivity. Qed.

Lemma beta_values_cover (v : float) :
  In v (0.0%float :: map snd P_BETA) -> In v beta_values.
Proof.
  destruct beta_decimals_faithful as [_ ->].
  intros [<- | H]; apply in_or_app; [right; left; reflexivity | left; exact H].
Qed.

Lemma dict_get_In (table : list (ascii * float)) (res : ascii) (default : float) :
  In (dict_get table res default) (default :: map snd table).
Proof.
  induction table as [|[k v] table IH]; simpl; [auto|].
  destruct (Ascii.eqb k res); [auto|].
  destruct IH as [IH | IH]; auto.
Qed.

(** Every strand propensity array is made of table values and the default. *)
Lemma strand_array_entries (SEQ : list ascii) :
  Forall (fun v => In v (0.0%float :: map snd P_BETA)) (map pb SEQ).
Proof.
  apply Forall_forall. intros v Hv. apply in_map_iff in Hv as (res & <- & _).
  apply dict_get_In.
Qed.

(** C6. On an array of strand table values and 0.0 defaults, extension with
    the code's test [sum >= 4.0000001] returns, from every initial segment
    and for every sequence length, what extension with the strict test
    [sum > 4.0] returns, both with the float sum and with the exact sum of
    the decimals. *)
Theorem strand_threshold_is_strict (prop_list : list float) (start end_ seq_len : Z) :
  Forall (fun v => In v (0.0%float :: map snd P_BETA)) prop_list ->
  extend_segment start end_ prop_list 4.0000001%float seq_len
  = extend_segment_by accept_strict start end_ prop_list seq_len /\
  extend_segment start end_ prop_list 4.0000001%float seq_len
  = extend_segment_by accept_exact start end_ prop_list seq_len.
Proof.
  intros Hp.
  assert (Hb : Forall (fun v => In v beta_values) prop_list).
  { eapply Forall_impl; [|exact Hp]. intros v. apply beta_values_cover. }
  unfold extend_segment, extend_segment_by.
  rewrite extend_loop_by_threshold.
  change (fun w => (4.0000001 <=? py_sum w)%float) with accept_emulated.
  split.
  - apply (extend_loop_by_agree accept_emulated accept_strict
             (fun v => In v beta_values)); [|exact Hb].
    intros w Hw Hlen. apply (strand_tests_agree w Hw Hlen).
  - apply (extend_loop_by_agree accept_emulated accept_exact
             (fun v => In v beta_values)); [|exact Hb].
    intros w Hw Hlen. apply (strand_tests_agree w Hw Hlen).
Qed.

Lemma strand_threshold_is_strict_witness :
  extend_segment 2 4 (map pb (String.list_ascii_of_string "TTDDTVV")) 4.0000001%float 7
  = extend_segment_by accept_strict 2 4
      (map pb (String.list_ascii_of_string "TTDDTVV")) 7 /\
  extend_segment 2 4 (map pb (String.list_ascii_of_string "TTDDTVV")) 4.0000001%float 7
  = extend_segment_by accept_exact 2 4
      (map pb (String.list_ascii_of_string "TTDDTVV")) 7.
Proof.
  apply (strand_threshold_is_strict
           (map pb (String.list_ascii_of_string "TTDDTVV")) 2 4 7).
  apply strand_array_entries.
Defined.

(** The same holds when [sum] is the compensated summation: on strand
    arrays the choice between the two summations does not show. *)
Lemma strand_windows_checked_compensated :
  windows_pass
    (fun w => Bool.eqb (accept_emulated_compensated w) (accept_exact w)
              && Bool.eqb (accept_strict_compensated w) (accept_exact w)) 4 [] = true.
Proof. vm_compute. reflexivity. Qed.

Lemma strand_threshold_any_summation (prop_list : list float) (start end_ seq_len : Z) :
  Forall (fun v => In v (0.0%float :: map snd P_BETA)) prop_list ->
  extend_segment_by accept_emulated_compensated start end_ prop_list seq_len
  = extend_segment_by accept_exact start end_ prop_list seq_len /\
  extend_segment_by accept_strict_compensated start end_ prop_list seq_len
  = extend_segment_by accept_exact start end_ prop_list seq_len.
Proof.
  intros Hp.
  assert (Hb : Forall (fun v => In v beta_values) prop_list).
  { eapply Forall_impl; [|exact Hp]. intros v. apply beta_values_cover. }
  assert (Hw : forall w, Forall (fun v => In v beta_values) w -> (length w <= 4)%nat ->
               accept_emulated_compensated w = accept_exact w /\
               accept_strict_compensated w = accept_exact w).
  { intros w Hw Hlen.
    pose proof (windows_pass_sound _ 4 [] strand_windows_checked_compensated w Hw Hlen) as H.
    cbn [app] in H. apply andb_prop in H as [H1 H2].
    split; apply Bool.eqb_prop; assumption. }
  unfold extend_segment_by. split.
  - apply (extend_loop_by_agree accept_emulated_compensated accept_exact
             (fun v => In v beta_values)); [|exact Hb].
    intros w Hw' Hlen. apply (Hw w Hw' Hlen).
  - apply (extend_loop_by_agree accept_strict_compensated accept_exact
             (fun v => In v beta_values)); [|exact Hb].
    intros w Hw' Hlen. apply (Hw w Hw' Hlen).
Qed.

Lemma window_scanner_exact_witness :
  StronglySorted Z.lt
    (seed_positions 6 4 (map pa (String.list_ascii_of_string "KEEEEKG"))
                    (len (map pa (String.list_ascii_of_string "KEEEEKG")))).
Proof.
  apply (window_scanner_exact
           (map pa (String.list_ascii_of_string "KEEEEKG")) 6 4 4.0%float).
  lia.
Defined.

(* ================================================================= *)
(** ** Loops over lists *)

(** A loop whose body always returns and keeps [Inv] returns a state that
    satisfies [Inv]. *)
Lemma for_each_invariant {A S : Type} (Inv : S -> Prop) (body : S -> A -> outcome S)
    (xs : list A) (acc : S) :
  (forall acc' x, In x xs -> Inv acc' -> exists acc'', body acc' x = Returns acc'' /\ Inv acc'') ->
  Inv acc ->
  exists r, for_each xs body acc = Returns r /\ Inv r.
Proof.
  revert acc. induction xs as [|x xs IH]; intros acc Hbody Hacc.
  - exists acc. split; [reflexivity | exact Hacc].
  - destruct (Hbody acc x (or_introl eq_refl) Hacc) as (acc1 & E1 & H1).
    cbn [for_each]. rewrite E1. cbn [bind].
    apply IH; [|exact H1].
    intros acc' y Hy. apply Hbody. right. exact Hy.
Qed.

(** A loop that appends one computed value per element builds the mapped
    list. *)
Lemma for_each_build {A B : Type} (g : A -> B) (body : list B -> A -> outcome (list B))
    (xs : list A) (acc : list B) :
  (forall acc' x, In x xs -> body acc' x = Returns (acc' ++ [g x])) ->
  for_each xs body acc = Returns (acc ++ map g xs).
Proof.
  revert acc. induction xs as [|x xs IH]; intros acc Hbody.
  - simpl. rewrite app_nil_r. reflexivity.
  - cbn [for_each]. rewrite Hbody by (left; reflexivity). cbn [bind].
    rewrite IH by (intros acc' y Hy; apply Hbody; right; exact Hy).
    rewrite <- app_assoc. reflexivity.
Qed.

Lemma length_replace_nth {A : Type} (n : nat) (l : list A) (v : A) :
  length (replace_nth n l v) = length l.
Proof.
  revert n. induction l as [|x l IH]; intros [|n]; simpl; auto.
Qed.

Lemma len_replace_nth {A : Type} (n : nat) (l : list A) (v : A) :
  len (replace_nth n l v) = len l.
Proof. unfold len. rewrite length_replace_nth. reflexivity. Qed.

Lemma nth_replace_nth_same {A : Type} (d : A) (n : nat) (l : list A) (v : A) :
  (n < length l)%nat -> nth n (replace_nth n l v) d = v.
Proof.
  revert n. induction l as [|x l IH]; intros [|n] H; simpl in *; try lia; auto.
  apply IH. lia.
Qed.

Lemma nth_replace_nth_other {A : Type} (d : A) (n m : nat) (l : list A) (v : A) :
  n <> m -> nth m (replace_nth n l v) d = nth m l d.
Proof.
  revert n m. induction l as [|x l IH]; intros [|n] [|m] H; simpl; auto; try lia.
Qed.

Lemma setitem_in_range {A : Type} (l : list A) (i : Z) (v : A) :
  0 <= i < len l -> setitem l i v = Returns (replace_nth (Z.to_nat i) l v).
Proof.
  intros Hi. unfold setitem.
  replace (i <? 0) with false by (symmetry; apply Z.ltb_ge; lia).
  replace (i <? 0) with false by (symmetry; apply Z.ltb_ge; lia).
  replace (len l <=? i) with false by (symmetry; apply Z.leb_gt; lia).
  reflexivity.
Qed.

(** A loop that rewrites position [k] of a list for each [k] it visits,
    every position at most once: position by position, what it leaves. *)
Lemma for_each_pointwise {A : Type} (d : A) (g : Z -> A -> A)
    (body : list A -> Z -> outcome (list A)) (N : Z) (xs : list Z) (acc : list A) :
  len acc = N -> NoDup xs -> (forall k, In k xs -> 0 <= k < N) ->
  (forall acc' k, In k xs -> len acc' = N ->
      body acc' k
      = Returns (replace_nth (Z.to_nat k) acc' (g k (nth (Z.to_nat k) acc' d)))) ->
  exists r, for_each xs body acc = Returns r /\ len r = N /\
    forall j, 0 <= j < N ->
      nth (Z.to_nat j) r d
      = if existsb (Z.eqb j) xs then g j (nth (Z.to_nat j) acc d)
        else nth (Z.to_nat j) acc d.
Proof.
  revert acc. induction xs as [|k xs IH]; intros acc Hlen Hnd Hin Hbody.
  - exists acc. repeat split; auto.
  - inversion Hnd as [|? ? Hk Hnd']; subst.
    cbn [for_each]. rewrite Hbody by (auto; left; reflexivity). cbn [bind].
    set (acc1 := replace_nth (Z.to_nat k) acc (g k (nth (Z.to_nat k) acc d))).
    assert (Hlen1 : len acc1 = len acc) by apply len_replace_nth.
    destruct (IH acc1) as (r & Er & Lr & Nr); auto.
    { intros j Hj. apply Hin. right. exact Hj. }
    { intros acc' j Hj Hl. apply Hbody; [right; exact Hj | exact Hl]. }
    exists r. split; [exact Er|]. split; [exact Lr|].
    intros j Hj. rewrite (Nr j Hj). cbn [existsb].
    destruct (Z.eqb j k) eqn:E; cbn [orb].
    + apply Z.eqb_eq in E. subst j.
      replace (existsb (Z.eqb k) xs) with false.
      * unfold acc1. apply nth_replace_nth_same.
        specialize (Hin k (or_introl eq_refl)). unfold len in *. lia.
      * symmetry. apply not_true_is_false. intros Hex.
        apply existsb_exists in Hex as (x & Hx & Ex). apply Z.eqb_eq in Ex. subst x.
        contradiction.
    + apply Z.eqb_neq in E.
      assert (Hn : nth (Z.to_nat j) acc1 d = nth (Z.to_nat j) acc d).
      { unfold acc1. apply nth_replace_nth_other.
        specialize (Hin k (or_introl eq_refl)). lia. }
      rewrite Hn. reflexivity.
Qed.

Lemma range_NoDup (a b : Z) : NoDup (range a b).
Proof.
  pose proof (range_ascending a b) as H.
  induction H as [|x l Hs IH Hx]; constructor; auto.
  intros Hin. rewrite Forall_forall in Hx. specialize (Hx x Hin). lia.
Qed.

Lemma existsb_range (a b j : Z) :
  existsb (Z.eqb j) (range a b) = (a <=? j) && (j <? b).
Proof.
  destruct (existsb (Z.eqb j) (range a b)) eqn:E.
  - apply existsb_exists in E as (x & Hx & Ex). apply Z.eqb_eq in Ex. subst x.
    apply range_In in Hx. symmetry. apply andb_true_intro.
    split; [apply Z.leb_le | apply Z.ltb_lt]; lia.
  - symmetry. apply not_true_is_false. intros H. apply andb_prop in H as [H1 H2].
    apply Z.leb_le in H1. apply Z.ltb_lt in H2.
    assert (Hex : existsb (Z.eqb j) (range a b) = true).
    { apply existsb_exists. exists j. split; [apply range_In; lia | apply Z.eqb_refl]. }
    congruence.
Qed.

(** [for k in range(s, e + 1): labels[k] = mark] inside the list. *)
Lemma fill_range {A : Type} (d : A) (mark : A) (labels : list A) (N s e : Z) :
  len labels = N -> 0 <= s -> e <= N - 1 ->
  exists r, for_each (range s (e + 1)) (fun l k => setitem l k mark) labels = Returns r /\
    len r = N /\
    forall j, 0 <= j < N ->
      nth (Z.to_nat j) r d
      = if (s <=? j) && (j <=? e) then mark else nth (Z.to_nat j) labels d.
Proof.
  intros Hlen Hs He.
  destruct (for_each_pointwise d (fun _ _ => mark) (fun l k => setitem l k mark)
              N (range s (e + 1)) labels) as (r & Er & Lr & Nr); auto.
  - apply range_NoDup.
  - intros k Hk. apply range_In in Hk. lia.
  - intros acc' k Hk Hl. apply range_In in Hk. apply setitem_in_range. lia.
  - exists r. split; [exact Er|]. split; [exact Lr|].
    intros j Hj. rewrite (Nr j Hj), existsb_range.
    replace (j <? e + 1) with (j <=? e); [reflexivity|].
    destruct (j <=? e) eqn:E1; symmetry;
      [apply Z.ltb_lt; apply Z.leb_le in E1 | apply Z.ltb_ge; apply Z.leb_gt in E1]; lia.
Qed.

(* ================================================================= *)
(** ** Segments stay inside the sequence *)

Lemma nucleate_ok (w min_count : Z) (threshold_sum : float) (prop_list : list float) (N : Z) :
  1 <= w -> N <= len prop_list ->
  exists segs, nucleate w min_count threshold_sum prop_list N = Returns segs /\
               Forall (segment_ok N) segs.
Proof.
  intros Hw HN. unfold nucleate.
  apply for_each_invariant; [|constructor].
  intros acc i Hi Hacc. apply range_In in Hi.
  destruct (window_has_min_over_1 _ _).
  - destruct (extend_segment_within prop_list threshold_sum N i (i + w - 1))
      as (s' & e' & R & _ & _ & Hok); auto.
    { repeat split; cbn [fst snd]; lia. }
    rewrite R. cbn [bind]. eexists. split; [reflexivity|].
    apply Forall_app. split; [exact Hacc|]. constructor; [exact Hok | constructor].
  - eexists. split; [reflexivity | exact Hacc].
Qed.

Lemma merge_fold_ok (N : Z) (rest closed : list (Z * Z)) (acc : Z * Z) :
  Forall (segment_ok N) closed -> segment_ok N acc -> Forall (segment_ok N) rest ->
  Forall (segment_ok N) (merge_fold closed acc rest).
Proof.
  revert closed acc. induction rest as [|[s e] rest IH]; intros closed acc Hc Ha Hr.
  - simpl. apply Forall_app. split; [exact Hc|]. constructor; [exact Ha | constructor].
  - inversion Hr as [|? ? Hse Hr']; subst.
    cbn [merge_fold]. destruct (s <=? snd acc + 1).
    + apply IH; auto.
      destruct Ha as (A0 & A1 & A2). destruct Hse as (S0 & S1 & S2).
      cbn [fst snd] in *. repeat split; cbn [fst snd]; lia.
    + apply IH; auto.
      apply Forall_app. split; [exact Hc|]. constructor; [exact Ha | constructor].
Qed.

Lemma merge_segments_ok (N : Z) (segments : list (Z * Z)) :
  Forall (segment_ok N) segments ->
  exists merged, merge_segments segments = Returns merged /\
                 Forall (segment_ok N) merged.
Proof.
  intros Hs. exists (merge_by_rule (sorted segments)).
  split; [apply merge_segments_rule|].
  assert (Hsorted : Forall (segment_ok N) (sorted segments)).
  { eapply Permutation_Forall; [apply sorted_perm | exact Hs]. }
  destruct (sorted segments) as [|first rest]; [constructor|].
  inversion Hsorted; subst. apply merge_fold_ok; auto.
Qed.

Lemma len_repeat {A : Type} (x : A) (N : Z) : 0 <= N -> len (repeat x (Z.to_nat N)) = N.
Proof. intros H. unfold len. rewrite repeat_length. lia. Qed.

Lemma paint_ok (segments : list (Z * Z)) (mark : ascii) (N : Z) :
  0 <= N -> Forall (segment_ok N) segments ->
  exists labels, paint segments mark N = Returns labels /\ len labels = N.
Proof.
  intros HN Hs. unfold paint.
  apply (for_each_invariant (fun labels => len labels = N)); [|apply len_repeat; exact HN].
  intros labels [s e] Hin Hlen.
  rewrite Forall_forall in Hs. destruct (Hs _ Hin) as (S0 & S1 & S2). cbn [fst snd] in *.
  destruct (fill_range "-"%char mark labels N s e Hlen S0 S2) as (r & Er & Lr & _).
  exists r. split; assumption.
Qed.

(* ================================================================= *)
(** ** Label arrays *)

Lemma len_map {A B : Type} (f : A -> B) (l : list A) : len (map f l) = len l.
Proof. unfold len. rewrite length_map. reflexivity. Qed.

Lemma len_range (a b : Z) : a <= b -> len (range a b) = b - a.
Proof. intros H. unfold range, len. rewrite length_map, length_seq. lia. Qed.

Lemma nth_map_range {B : Type} (f : Z -> B) (d : B) (N k : Z) :
  0 <= k < N -> nth (Z.to_nat k) (map f (range 0 N)) d = f k.
Proof.
  intros Hk. unfold range. rewrite map_map.
  rewrite (nth_indep _ d (f (0 + Z.of_nat 0)))
    by (rewrite length_map, length_seq; lia).
  rewrite (map_nth (fun x => f (0 + Z.of_nat x)) (seq 0 (Z.to_nat (N - 0))) 0%nat).
  rewrite seq_nth by lia. f_equal. lia.
Qed.

Lemma getitem_label (labels : list ascii) (k : Z) :
  0 <= k < len labels -> getitem labels k = Returns (label_at labels k).
Proof. intros H. apply getitem_in_range. exact H. Qed.

Lemma conflict_mask_spec (labels_H labels_S : list ascii) (N : Z) :
  len labels_H = N -> len labels_S = N ->
  conflict_mask labels_H labels_S N
  = Returns (map (both_claim labels_H labels_S) (range 0 N)).
Proof.
  intros HH HS. unfold conflict_mask.
  rewrite (for_each_build (both_claim labels_H labels_S)); [reflexivity|].
  intros acc i Hi. apply range_In in Hi.
  rewrite getitem_label by lia. cbn [bind]. unfold both_claim.
  destruct (Ascii.eqb (label_at labels_H i) "H"); cbn [andb]; [|reflexivity].
  rewrite getitem_label by lia. reflexivity.
Qed.

Lemma replace_nth_twice {A : Type} (n : nat) (l : list A) (a b : A) :
  replace_nth n (replace_nth n l a) b = replace_nth n l b.
Proof.
  revert n. induction l as [|x l IH]; intros [|n]; simpl; auto. rewrite IH. reflexivity.
Qed.

Lemma replace_nth_same {A : Type} (d : A) (n : nat) (l : list A) :
  replace_nth n l (nth n l d) = l.
Proof.
  revert n. induction l as [|x l IH]; intros [|n]; simpl; auto. rewrite IH. reflexivity.
Qed.

Lemma nth_repeat_dash (n k : nat) : nth k (repeat "-"%char n) "-"%char = "-"%char.
Proof.
  revert k. induction n as [|n IH]; intros [|k]; simpl; auto.
Qed.

(** The first pass over [final_labels]. *)
Lemma mark_labels_spec (labels_H labels_S : list ascii) (N : Z) :
  len labels_H = N -> len labels_S = N ->
  exists marked, mark_labels labels_H labels_S N = Returns marked /\
    len marked = N /\
    forall k, 0 <= k < N ->
      label_at marked k = mark_of (label_at labels_H k) (label_at labels_S k).
Proof.
  intros HH HS. unfold mark_labels.
  assert (HN : 0 <= N) by (rewrite <- HH; apply len_nonneg).
  set (g := fun (k : Z) (old : ascii) =>
              let f1 := if Ascii.eqb (label_at labels_H k) "H" then "H"%char else old in
              if Ascii.eqb (label_at labels_S k) "S"
              then (if Ascii.eqb f1 "-" then "S"%char else "X"%char)
              else f1).
  match goal with
  | |- exists marked, for_each _ ?body _ = _ /\ _ =>
      destruct (for_each_pointwise "-"%char g body N (range 0 N)
                  (repeat "-"%char (Z.to_nat N))) as (r & Er & Lr & Nr)
  end.
  - apply len_repeat. exact HN.
  - apply range_NoDup.
  - intros k Hk. apply range_In in Hk. lia.
  - intros acc k Hk Hl. apply range_In in Hk.
    rewrite getitem_label by lia. cbn [bind]. unfold g. cbn zeta.
    destruct (Ascii.eqb (label_at labels_H k) "H").
    + rewrite setitem_in_range by lia. cbn [bind].
      rewrite getitem_label by lia. cbn [bind].
      destruct (Ascii.eqb (label_at labels_S k) "S"); [|reflexivity].
      rewrite getitem_label by (rewrite len_replace_nth; lia). cbn [bind].
      unfold label_at. rewrite nth_replace_nth_same by (unfold len in Hl; lia).
      rewrite setitem_in_range by (rewrite len_replace_nth; lia).
      rewrite replace_nth_twice. reflexivity.
    + cbn [bind]. rewrite getitem_label by lia. cbn [bind].
      destruct (Ascii.eqb (label_at labels_S k) "S").
      * rewrite getitem_label by lia. cbn [bind].
        rewrite setitem_in_range by lia. reflexivity.
      * rewrite (replace_nth_same "-"%char). reflexivity.
  - exists r. split; [exact Er|]. split; [exact Lr|].
    intros k Hk. unfold label_at at 1. rewrite (Nr k Hk), existsb_range.
    replace ((0 <=? k) && (k <? N)) with true
      by (symmetry; apply andb_true_intro; split;
          [apply Z.leb_le | apply Z.ltb_lt]; lia).
    rewrite nth_repeat_dash. unfold g, mark_of. cbn zeta.
    destruct (Ascii.eqb (label_at labels_H k) "H");
      destruct (Ascii.eqb (label_at labels_S k) "S"); reflexivity.
Qed.

(** The closing loop. *)
Lemma clean_residual_spec (labels : list ascii) (N : Z) :
  len labels = N ->
  exists cleaned, clean_residual labels N = Returns cleaned /\
    len cleaned = N /\
    forall k, 0 <= k < N ->
      label_at cleaned k
      = if Ascii.eqb (label_at labels k) "X" then "H"%char else label_at labels k.
Proof.
  intros Hl. unfold clean_residual.
  set (g := fun (k : Z) (old : ascii) => if Ascii.eqb old "X" then "H"%char else old).
  match goal with
  | |- exists cleaned, for_each _ ?body _ = _ /\ _ =>
      destruct (for_each_pointwise "-"%char g body N (range 0 N) labels)
        as (r & Er & Lr & Nr)
  end.
  - exact Hl.
  - apply range_NoDup.
  - intros k Hk. apply range_In in Hk. lia.
  - intros acc k Hk Hacc. apply range_In in Hk.
    rewrite getitem_label by lia. cbn [bind]. unfold g, label_at.
    destruct (Ascii.eqb (nth (Z.to_nat k) acc "-"%char) "X").
    + apply setitem_in_range. lia.
    + rewrite (replace_nth_same "-"%char). reflexivity.
  - exists r. split; [exact Er|]. split; [exact Lr|].
    intros k Hk. unfold label_at at 1. rewrite (Nr k Hk), existsb_range.
    replace ((0 <=? k) && (k <? N)) with true
      by (symmetry; apply andb_true_intro; split;
          [apply Z.leb_le | apply Z.ltb_lt]; lia).
    reflexivity.
Qed.

Lemma labels_ext (l1 l2 : list ascii) (N : Z) :
  len l1 = N -> len l2 = N ->
  (forall k, 0 <= k < N -> label_at l1 k = label_at l2 k) -> l1 = l2.
Proof.
  intros H1 H2 H. apply (nth_ext l1 l2 "-"%char "-"%char).
  - unfold len in *. lia.
  - intros n Hn. specialize (H (Z.of_nat n)). unfold label_at in H.
    rewrite Nat2Z.id in H. apply H. unfold len in *. lia.
Qed.

(* ================================================================= *)
(** ** Conflict regions *)

Section Regions.

Variable mask : list bool.
Variable N : Z.
Hypothesis mask_len : len mask = N.

Lemma getitem_mask (k : Z) : 0 <= k < N -> getitem mask k = Returns (mask_at mask k).
Proof. intros H. apply getitem_in_range. lia. Qed.

(** The inner loop stops at the last marked position of the run. *)
Lemma run_end_spec (fuel : nat) (j : Z) :
  0 <= j < N -> (Z.to_nat (N - 1 - j) < fuel)%nat ->
  exists j', run_end fuel mask N j = Returns j' /\
    j <= j' <= N - 1 /\
    (forall k, j < k <= j' -> mask_at mask k = true) /\
    (j' = N - 1 \/ mask_at mask (j' + 1) = false).
Proof.
  revert j. induction fuel as [|fuel IH]; intros j Hj Hfuel; [lia|].
  cbn [run_end]. destruct (j + 1 <? N) eqn:E.
  - apply Z.ltb_lt in E. rewrite getitem_mask by lia. cbn [bind].
    destruct (mask_at mask (j + 1)) eqn:Em.
    + destruct (IH (j + 1)) as (j' & R & B & T & M); [lia | lia |].
      exists j'. split; [exact R|]. split; [lia|]. split; [|exact M].
      intros k Hk. destruct (Z.eq_dec k (j + 1)) as [->|Hne]; [exact Em|].
      apply T. lia.
    + exists j. split; [reflexivity|]. split; [lia|]. split; [intros k Hk; lia|].
      right. exact Em.
  - apply Z.ltb_ge in E. exists j. split; [reflexivity|]. split; [lia|].
    split; [intros k Hk; lia|]. left. lia.
Qed.

(** The outer loop from position [i]: what it appends are the maximal runs
    from [i] on, left to right, and they cover every marked position. *)
Lemma find_conflicts_spec (fuel : nat) (i : Z) (acc : list (Z * Z)) :
  0 <= i <= N -> (Z.to_nat (N - i) < fuel)%nat ->
  (i = 0 \/ mask_at mask (i - 1) = false \/ i = N \/ mask_at mask i = false) ->
  exists new, find_conflicts fuel mask N i acc = Returns (acc ++ new) /\
    Forall (fun r => maximal_run mask N r /\ i <= fst r) new /\
    (forall k, i <= k < N -> mask_at mask k = true ->
               exists r, In r new /\ fst r <= k <= snd r) /\
    StronglySorted (fun a b => snd a < fst b) new.
Proof.
  revert i acc. induction fuel as [|fuel IH]; intros i acc Hi Hfuel Hleft; [lia|].
  cbn [find_conflicts]. destruct (i <? N) eqn:E.
  - apply Z.ltb_lt in E. rewrite getitem_mask by lia. cbn [bind].
    destruct (mask_at mask i) eqn:Em.
    + destruct (run_end_spec (S fuel) i) as (j & R & B & T & M); [lia | lia |].
      rewrite R. cbn [bind].
      destruct (IH (j + 1) (acc ++ [(i, j)])) as (new & F & A & C & S); [lia | lia | |].
      { destruct M as [M | M]; [right; right; left; lia | right; right; right; exact M]. }
      exists ((i, j) :: new). rewrite F, <- app_assoc. split; [reflexivity|].
      split; [|split].
      * constructor.
        -- split; [|cbn [fst]; lia].
           unfold maximal_run. cbn [fst snd].
           split; [lia|]. split; [lia|]. split; [lia|]. split; [|split].
           ++ intros k Hk. destruct (Z.eq_dec k i) as [->|Hne]; [exact Em|].
              apply T. lia.
           ++ destruct Hleft as [H | [H | [H | H]]]; auto; [lia | congruence].
           ++ exact M.
        -- eapply Forall_impl; [|exact A]. intros r [Hr Hfst]. split; [exact Hr | lia].
      * intros k Hk Hm. destruct (Z_le_gt_dec k j) as [Hle | Hgt].
        -- exists (i, j). split; [left; reflexivity | cbn [fst snd]; lia].
        -- destruct (C k) as (r & Hr & Hkr); [lia | exact Hm |].
           exists r. split; [right; exact Hr | exact Hkr].
      * constructor; [exact S|].
        eapply Forall_impl; [|exact A]. intros r [_ Hfst]. cbn [snd]. lia.
    + destruct (IH (i + 1) acc) as (new & F & A & C & S); [lia | lia | |].
      { right. left. replace (i + 1 - 1) with i by lia. exact Em. }
      exists new. split; [exact F|]. split; [|split].
      * eapply Forall_impl; [|exact A]. intros r [Hr Hfst]. split; [exact Hr | lia].
      * intros k Hk Hm. destruct (Z.eq_dec k i) as [->|Hne]; [congruence|].
        apply C; [lia | exact Hm].
      * exact S.
  - apply Z.ltb_ge in E. exists []. rewrite app_nil_r. split; [reflexivity|].
    split; [constructor|]. split; [intros k Hk; lia | constructor].
Qed.

Lemma conflict_regions_spec :
  exists regions, conflict_regions mask N = Returns regions /\
    Forall (maximal_run mask N) regions /\
    (forall k, 0 <= k < N -> mask_at mask k = true ->
               exists r, In r regions /\ fst r <= k <= snd r) /\
    StronglySorted (fun a b => snd a < fst b) regions.
Proof.
  assert (HN : 0 <= N) by (rewrite <- mask_len; apply len_nonneg).
  destruct (find_conflicts_spec (S (Z.to_nat N)) 0 []) as (new & F & A & C & S);
    [lia | lia | left; reflexivity |].
  exists new. split; [exact F|]. split; [|split; [exact C | exact S]].
  eapply Forall_impl; [|exact A]. intros r [Hr _]. exact Hr.
Qed.

End Regions.

(* ================================================================= *)
(** ** The Conflict Resolver *)

Lemma range_shift (s e : Z) :
  range s (e + 1) = map (fun k => s + k) (range 0 (e + 1 - s)).
Proof.
  unfold range. rewrite map_map. rewrite Z.sub_0_r.
  apply map_ext. intros k. lia.
Qed.

(** The slice the code sums is the list of values at [s .. e]. *)
Lemma slice_region (l : list float) (s e : Z) :
  0 <= s -> s <= e -> e + 1 <= len l ->
  slice l s (e + 1) = map (value_at l) (range s (e + 1)).
Proof.
  intros H0 H1 H2.
  replace (e + 1) with (s + (e + 1 - s)) at 1 by lia.
  rewrite slice_values by lia.
  rewrite range_shift, map_map. reflexivity.
Qed.

Section Resolver.

Variables Palpha_list Pbeta_list : list float.
Variable N : Z.
Hypothesis Palpha_len : len Palpha_list = N.
Hypothesis Pbeta_len : len Pbeta_list = N.

Lemma resolve_region_spec (final_labels : list ascii) (choices : list choice) (s e : Z) :
  len final_labels = N -> segment_ok N (s, e) ->
  exists final', resolve_region Palpha_list Pbeta_list (final_labels, choices) (s, e)
                 = Returns (final', choices ++ [choice_of Palpha_list Pbeta_list (s, e)]) /\
    len final' = N /\
    forall j, 0 <= j < N ->
      label_at final' j
      = if (s <=? j) && (j <=? e) then chosen_for Palpha_list Pbeta_list s e
        else label_at final_labels j.
Proof.
  intros Hl (H0 & H1 & H2). cbn [fst snd] in *.
  unfold resolve_region, py_div.
  replace (e - s + 1 =? 0) with false by (symmetry; apply Z.eqb_neq; lia).
  cbn [bind].
  rewrite !slice_region by lia.
  fold (mean_over Palpha_list s e). fold (mean_over Pbeta_list s e).
  fold (chosen_for Palpha_list Pbeta_list s e).
  destruct (fill_range "-"%char (chosen_for Palpha_list Pbeta_list s e)
              final_labels N s e Hl H0 H2) as (r & Er & Lr & Nr).
  rewrite Er. cbn [bind]. exists r. split; [reflexivity|]. split; [exact Lr|].
  intros j Hj. unfold label_at. apply Nr. exact Hj.
Qed.

Lemma resolve_conflicts_from (regions : list (Z * Z)) (final_labels : list ascii)
    (choices : list choice) :
  len final_labels = N -> Forall (segment_ok N) regions ->
  StronglySorted (fun a b => snd a < fst b) regions ->
  exists final',
    for_each regions (resolve_region Palpha_list Pbeta_list) (final_labels, choices)
    = Returns (final', choices ++ map (choice_of Palpha_list Pbeta_list) regions) /\
    len final' = N /\
    (forall r, In r regions -> forall k, fst r <= k <= snd r ->
       label_at final' k = chosen_for Palpha_list Pbeta_list (fst r) (snd r)) /\
    (forall k, 0 <= k < N -> (forall r, In r regions -> ~ fst r <= k <= snd r) ->
       label_at final' k = label_at final_labels k).
Proof.
  revert final_labels choices.
  induction regions as [|[s e] regions IH]; intros final_labels choices Hl Hok Hs.
  - exists final_labels. cbn [for_each map]. rewrite app_nil_r.
    split; [reflexivity|]. split; [exact Hl|]. split; [intros r []|]. reflexivity.
  - apply Forall_cons_iff in Hok as [Hse Hok'].
    apply StronglySorted_inv in Hs as [Hs' Hall].
    destruct (resolve_region_spec final_labels choices s e Hl Hse) as (f1 & E1 & L1 & N1).
    cbn [for_each]. rewrite E1. cbn [bind].
    destruct (IH f1 (choices ++ [choice_of Palpha_list Pbeta_list (s, e)]) L1 Hok' Hs')
      as (f2 & E2 & L2 & In2 & Out2).
    exists f2. rewrite E2. cbn [map]. rewrite <- app_assoc.
    split; [reflexivity|]. split; [exact L2|].
    destruct Hse as (S0 & S1 & S2). cbn [fst snd] in *.
    rewrite Forall_forall in Hall. split.
    + intros r [<- | Hr] k Hk.
      * cbn [fst snd] in *. rewrite Out2.
        -- rewrite N1 by lia.
           replace ((s <=? k) && (k <=? e)) with true; [reflexivity|].
           symmetry. apply andb_true_intro. split; apply Z.leb_le; lia.
        -- lia.
        -- intros r' Hr' Hk'. specialize (Hall r' Hr'). cbn [snd] in Hall. lia.
      * apply In2; assumption.
    + intros k Hk Hnone. rewrite Out2.
      * rewrite N1 by lia.
        replace ((s <=? k) && (k <=? e)) with false; [reflexivity|].
        symmetry. apply not_true_is_false. intros H. apply andb_prop in H as [Ha Hb].
        apply Z.leb_le in Ha. apply Z.leb_le in Hb.
        apply (Hnone (s, e)); [left; reflexivity | cbn [fst snd]; lia].
      * exact Hk.
      * intros r Hr. apply Hnone. right. exact Hr.
Qed.

End Resolver.

(* ================================================================= *)
(** ** The whole prediction *)

Lemma helix_segments_ok (Palpha_list : list float) (N : Z) :
  len Palpha_list = N ->
  exists hs, helix_segments Palpha_list N = Returns hs /\ Forall (segment_ok N) hs.
Proof.
  intros HN. unfold helix_segments.
  destruct (nucleate_ok wH 4 4.0%float Palpha_list N) as (segs & E & Hok);
    [unfold wH; lia | lia |].
  rewrite E. cbn [bind]. apply merge_segments_ok. exact Hok.
Qed.

Lemma strand_segments_ok (Pbeta_list : list float) (N : Z) :
  len Pbeta_list = N ->
  exists ss, strand_segments Pbeta_list N = Returns ss /\ Forall (segment_ok N) ss.
Proof.
  intros HN. unfold strand_segments.
  destruct (nucleate_ok wS 3 4.0000001%float Pbeta_list N) as (segs & E & Hok);
    [unfold wS; lia | lia |].
  rewrite E. cbn [bind]. apply merge_segments_ok. exact Hok.
Qed.

Lemma maximal_run_ok (mask : list bool) (N : Z) (r : Z * Z) :
  maximal_run mask N r -> segment_ok N r.
Proof. intros (H0 & H1 & H2 & _). repeat split; assumption. Qed.

(** The script returns, and its variables are related as follows. *)
Lemma predict_arrays_facts (Palpha_list Pbeta_list : list float) (N : Z) :
  len Palpha_list = N -> len Pbeta_list = N ->
  exists p, predict_arrays Palpha_list Pbeta_list N = Returns p /\
    len (pr_labels_H p) = N /\ len (pr_labels_S p) = N /\
    pr_mask p = map (both_claim (pr_labels_H p) (pr_labels_S p)) (range 0 N) /\
    Forall (maximal_run (pr_mask p) N) (pr_conflicts p) /\
    (forall k, 0 <= k < N -> mask_at (pr_mask p) k = true ->
               exists r, In r (pr_conflicts p) /\ fst r <= k <= snd r) /\
    len (pr_marked p) = N /\
    (forall k, 0 <= k < N ->
       label_at (pr_marked p) k
       = mark_of (label_at (pr_labels_H p) k) (label_at (pr_labels_S p) k)) /\
    pr_choices p = map (choice_of Palpha_list Pbeta_list) (pr_conflicts p) /\
    len (pr_resolved p) = N /\
    (forall r, In r (pr_conflicts p) -> forall k, fst r <= k <= snd r ->
       label_at (pr_resolved p) k = chosen_for Palpha_list Pbeta_list (fst r) (snd r)) /\
    (forall k, 0 <= k < N ->
       (forall r, In r (pr_conflicts p) -> ~ fst r <= k <= snd r) ->
       label_at (pr_resolved p) k = label_at (pr_marked p) k) /\
    len (pr_final p) = N /\
    (forall k, 0 <= k < N ->
       label_at (pr_final p) k
       = if Ascii.eqb (label_at (pr_resolved p) k) "X" then "H"%char
         else label_at (pr_resolved p) k).
Proof.
  intros Ha Hb.
  assert (HN : 0 <= N) by (rewrite <- Ha; apply len_nonneg).
  unfold predict_arrays.
  destruct (helix_segments_ok Palpha_list N Ha) as (hs & Ehs & Hhs).
  destruct (strand_segments_ok Pbeta_list N Hb) as (ss & Ess & Hss).
  rewrite Ehs, Ess. cbn [bind].
  destruct (paint_ok hs "H"%char N HN Hhs) as (lH & ElH & LH).
  destruct (paint_ok ss "S"%char N HN Hss) as (lS & ElS & LS).
  rewrite ElH, ElS. cbn [bind].
  rewrite (conflict_mask_spec lH lS N LH LS). cbn [bind].
  set (mask := map (both_claim lH lS) (range 0 N)).
  assert (Lm : len mask = N).
  { unfold mask. rewrite len_map, len_range by lia. lia. }
  destruct (conflict_regions_spec mask N Lm) as (regions & Er & Rmax & Rcov & Rsort).
  rewrite Er. cbn [bind].
  destruct (mark_labels_spec lH lS N LH LS) as (marked & Em & Lmk & Nmk).
  rewrite Em. cbn [bind].
  destruct (resolve_conflicts_from Palpha_list Pbeta_list N Ha Hb regions marked [] Lmk)
    as (resolved & Eres & Lres & Rin & Rout).
  { eapply Forall_impl; [|exact Rmax]. intros r. apply maximal_run_ok. }
  { exact Rsort. }
  unfold resolve_conflicts. rewrite Eres. cbn [bind app].
  destruct (clean_residual_spec resolved N Lres) as (final & Ef & Lf & Nf).
  rewrite Ef. cbn [bind].
  eexists. split; [reflexivity|]. cbn [pr_labels_H pr_labels_S pr_mask pr_conflicts
    pr_marked pr_choices pr_resolved pr_final].
  repeat (split; [assumption || reflexivity|]). assumption.
Qed.

(** No float is strictly below itself. *)
Lemma float_ltb_irrefl (x : float) : (x <? x)%float = false.
Proof.
  rewrite FloatAxioms.ltb_spec. unfold SpecFloat.SFltb.
  destruct (Prim2SF x) as [[|]|[|]| |[|] m e]; simpl; try reflexivity.
  all: rewrite Z.compare_refl, Pos.compare_cont_refl; reflexivity.
Qed.

Lemma mask_at_both_claim (labels_H labels_S : list ascii) (N k : Z) :
  0 <= k < N ->
  mask_at (map (both_claim labels_H labels_S) (range 0 N)) k
  = both_claim labels_H labels_S k.
Proof. intros Hk. unfold mask_at. apply nth_map_range. exact Hk. Qed.

Lemma mark_of_X (h s : ascii) :
  mark_of h s = "X"%char <-> Ascii.eqb h "H" && Ascii.eqb s "S" = true.
Proof.
  unfold mark_of. destruct (Ascii.eqb h "H"), (Ascii.eqb s "S"); cbn [andb];
    split; intros H; try reflexivity; discriminate.
Qed.

Lemma mark_of_cases (h s : ascii) :
  mark_of h s = "-"%char \/ mark_of h s = "H"%char \/ mark_of h s = "S"%char
  \/ mark_of h s = "X"%char.
Proof.
  unfold mark_of. destruct (Ascii.eqb h "H"), (Ascii.eqb s "S"); auto.
Qed.

Lemma chosen_for_cases (Palpha_list Pbeta_list : list float) (s e : Z) :
  chosen_for Palpha_list Pbeta_list s e = "H"%char
  \/ chosen_for Palpha_list Pbeta_list s e = "S"%char.
Proof. unfold chosen_for. destruct (_ <? _)%float; auto. Qed.

(** C3. The script returns, and for every Conflict Region [s, e] it found
    (a maximal run of positions labelled helix in one array and strand in
    the other) the recorded row holds the means of the helix and of the
    strand propensities over exactly the positions [s .. e]; the chosen type
    is strand exactly when the strand mean is strictly the larger and helix
    otherwise, a tie included; every final label in [s .. e] is the chosen
    type, after the region loop and after the closing loop. *)
Theorem conflict_region_resolved (Palpha_list Pbeta_list : list float) (N : Z) :
  len Palpha_list = N -> len Pbeta_list = N ->
  exists p, predict_arrays Palpha_list Pbeta_list N = Returns p /\
    forall s e, In (s, e) (pr_conflicts p) ->
      (0 <= s /\ s <= e /\ e <= N - 1 /\
       (forall k, s <= k <= e ->
          both_claim (pr_labels_H p) (pr_labels_S p) k = true) /\
       (s = 0 \/ both_claim (pr_labels_H p) (pr_labels_S p) (s - 1) = false) /\
       (e = N - 1 \/ both_claim (pr_labels_H p) (pr_labels_S p) (e + 1) = false)) /\
      In (s, e, chosen_for Palpha_list Pbeta_list s e,
          mean_over Palpha_list s e, mean_over Pbeta_list s e) (pr_choices p) /\
      (chosen_for Palpha_list Pbeta_list s e = "S"%char <->
       (mean_over Palpha_list s e <? mean_over Pbeta_list s e)%float = true) /\
      (chosen_for Palpha_list Pbeta_list s e = "H"%char <->
       (mean_over Palpha_list s e <? mean_over Pbeta_list s e)%float = false) /\
      (mean_over Palpha_list s e = mean_over Pbeta_list s e ->
       chosen_for Palpha_list Pbeta_list s e = "H"%char) /\
      (forall k, s <= k <= e ->
         label_at (pr_resolved p) k = chosen_for Palpha_list Pbeta_list s e /\
         label_at (pr_final p) k = chosen_for Palpha_list Pbeta_list s e).
Proof.
  intros Ha Hb.
  destruct (predict_arrays_facts Palpha_list Pbeta_list N Ha Hb)
    as (p & Ep & LH & LS & Emask & Rmax & Rcov & Lmk & Nmk & Ech & Lres & Rin & Rout
        & Lf & Nf).
  exists p. split; [exact Ep|]. intros s e Hin.
  rewrite Forall_forall in Rmax.
  destruct (Rmax _ Hin) as (M0 & M1 & M2 & Mall & Mleft & Mright). cbn [fst snd] in *.
  split; [|split; [|split; [|split; [|split]]]].
  - split; [exact M0|]. split; [exact M1|]. split; [exact M2|].
    rewrite Emask in Mall, Mleft, Mright. split; [|split].
    + intros k Hk. rewrite <- (mask_at_both_claim _ _ N k) by lia. apply Mall. exact Hk.
    + destruct (Z.eq_dec s 0) as [->|Hs]; [left; reflexivity|]. right.
      destruct Mleft as [Hl | Hl]; [contradiction|].
      rewrite mask_at_both_claim in Hl by lia. exact Hl.
    + destruct (Z.eq_dec e (N - 1)) as [->|He]; [left; reflexivity|]. right.
      destruct Mright as [Hr | Hr]; [contradiction|].
      rewrite mask_at_both_claim in Hr by lia. exact Hr.
  - rewrite Ech. apply in_map_iff. exists (s, e). split; [reflexivity | exact Hin].
  - unfold chosen_for. destruct (_ <? _)%float; split; intros H;
      try reflexivity; discriminate.
  - unfold chosen_for. destruct (_ <? _)%float; split; intros H;
      try reflexivity; discriminate.
  - intros Heq. unfold chosen_for. rewrite Heq.
    destruct (mean_over Pbeta_list s e <? mean_over Pbeta_list s e)%float eqn:E;
      [|reflexivity].
    rewrite float_ltb_irrefl in E. discriminate.
  - intros k Hk.
    assert (Hres : label_at (pr_resolved p) k = chosen_for Palpha_list Pbeta_list s e).
    { apply (Rin (s, e) Hin k). exact Hk. }
    split; [exact Hres|].
    rewrite Nf by lia. rewrite Hres.
    destruct (chosen_for_cases Palpha_list Pbeta_list s e) as [-> | ->]; reflexivity.
Qed.

(** A position lies in one of the regions of a list, or in none. *)
Lemma classic_covered (regions : list (Z * Z)) (k : Z) :
  (exists r, In r regions /\ fst r <= k <= snd r)
  \/ (forall r, In r regions -> ~ fst r <= k <= snd r).
Proof.
  induction regions as [|[s e] regions IH].
  - right. intros r [].
  - destruct IH as [(r & Hr & Hk) | Hnone].
    + left. exists r. split; [right; exact Hr | exact Hk].
    + destruct (Z_le_dec s k) as [H1 | H1]; [destruct (Z_le_dec k e) as [H2 | H2]|].
      * left. exists (s, e). split; [left; reflexivity | cbn [fst snd]; lia].
      * right. intros r [<- | Hr]; [cbn [fst snd]; lia | apply Hnone; exact Hr].
      * right. intros r [<- | Hr]; [cbn [fst snd]; lia | apply Hnone; exact Hr].
Qed.

Lemma label_In (labels : list ascii) (c : ascii) :
  In c labels -> exists k, 0 <= k < len labels /\ label_at labels k = c.
Proof.
  intros H. destruct (In_nth labels c "-"%char H) as (n & Hn & E).
  exists (Z.of_nat n). split; [unfold len; lia|].
  unfold label_at. rewrite Nat2Z.id. exact E.
Qed.

(** C5. The script returns, and when the region loop has run no ['X'] is
    left in [final_labels]: every position the first pass marked ['X'] lies
    inside a Conflict Region, the array after the region loop holds only
    ['-'], ['H'] and ['S'], the closing loop's test [== 'X'] fails at every
    position, and the closing loop leaves the array unchanged. *)
Theorem no_conflict_marker_survives (Palpha_list Pbeta_list : list float) (N : Z) :
  len Palpha_list = N -> len Pbeta_list = N ->
  exists p, predict_arrays Palpha_list Pbeta_list N = Returns p /\
    (forall k, 0 <= k < N -> label_at (pr_marked p) k = "X"%char ->
       exists s e, In (s, e) (pr_conflicts p) /\ s <= k <= e) /\
    ~ In "X"%char (pr_resolved p) /\
    Forall (fun c => c = "-"%char \/ c = "H"%char \/ c = "S"%char) (pr_resolved p) /\
    (forall k, 0 <= k < N -> Ascii.eqb (label_at (pr_resolved p) k) "X" = false) /\
    pr_final p = pr_resolved p /\
    len (pr_final p) = N.
Proof.
  intros Ha Hb.
  destruct (predict_arrays_facts Palpha_list Pbeta_list N Ha Hb)
    as (p & Ep & LH & LS & Emask & Rmax & Rcov & Lmk & Nmk & Ech & Lres & Rin & Rout
        & Lf & Nf).
  exists p. split; [exact Ep|].
  assert (Hcov : forall k, 0 <= k < N -> label_at (pr_marked p) k = "X"%char ->
                 exists s e, In (s, e) (pr_conflicts p) /\ s <= k <= e).
  { intros k Hk HX. rewrite Nmk in HX by exact Hk. apply mark_of_X in HX.
    destruct (Rcov k Hk) as ([s e] & Hr & Hkr).
    - rewrite Emask, mask_at_both_claim by exact Hk. exact HX.
    - exists s, e. split; [exact Hr | exact Hkr]. }
  assert (Hlab : forall k, 0 <= k < N ->
                 label_at (pr_resolved p) k = "-"%char
                 \/ label_at (pr_resolved p) k = "H"%char
                 \/ label_at (pr_resolved p) k = "S"%char).
  { intros k Hk.
    destruct (classic_covered (pr_conflicts p) k) as [([s e] & Hr & Hkr) | Hnone].
    - rewrite (Rin (s, e) Hr k Hkr). cbn [fst snd].
      destruct (chosen_for_cases Palpha_list Pbeta_list s e) as [-> | ->]; auto.
    - rewrite (Rout k Hk Hnone).
      destruct (mark_of_cases (label_at (pr_labels_H p) k) (label_at (pr_labels_S p) k))
        as [E | [E | [E | E]]]; rewrite Nmk by exact Hk; auto.
      exfalso. rewrite <- Nmk in E by exact Hk.
      destruct (Hcov k Hk E) as (s & e & Hr & Hkr).
      apply (Hnone (s, e) Hr). exact Hkr. }
  assert (HnoX : forall k, 0 <= k < N ->
                 Ascii.eqb (label_at (pr_resolved p) k) "X" = false).
  { intros k Hk. destruct (Hlab k Hk) as [-> | [-> | ->]]; reflexivity. }
  split; [exact Hcov|]. split; [|split; [|split; [exact HnoX|split; [|exact Lf]]]].
  - intros HX. apply label_In in HX as (k & Hk & E). rewrite Lres in Hk.
    specialize (HnoX k Hk). rewrite E in HnoX. discriminate.
  - apply Forall_forall. intros c Hc. apply label_In in Hc as (k & Hk & <-).
    rewrite Lres in Hk. apply Hlab. exact Hk.
  - apply (labels_ext _ _ N Lf Lres). intros k Hk.
    rewrite Nf by exact Hk. rewrite HnoX by exact Hk. reflexivity.
Qed.

(** Eight methionines nucleate as helix and as strand; the whole sequence is
    one Conflict Region and goes to strand. *)
Example final_MMMMMMMM : final_str "MMMMMMMM"%string = Returns "SSSSSSSS"%string.
Proof. vm_compute. reflexivity. Qed.

Example conflicts_MMMMMMMM :
  exists p, predict (String.list_ascii_of_string "MMMMMMMM") = Returns p /\
            pr_conflicts p = [(0, 7)] /\
            pr_marked p = String.list_ascii_of_string "XXXXXXXX".
Proof. eexists. split; [vm_compute; reflexivity|]. split; reflexivity. Qed.

Lemma conflict_region_resolved_witness :
  exists p,
    predict_arrays (map pa (String.list_ascii_of_string "MMMMMMMM"))
                   (map pb (String.list_ascii_of_string "MMMMMMMM")) 8 = Returns p /\
    forall k, 0 <= k <= 7 ->
      label_at (pr_final p) k
      = chosen_for (map pa (String.list_ascii_of_string "MMMMMMMM"))
                   (map pb (String.list_ascii_of_string "MMMMMMMM")) 0 7.
Proof.
  destruct (conflict_region_resolved
              (map pa (String.list_ascii_of_string "MMMMMMMM"))
              (map pb (String.list_ascii_of_string "MMMMMMMM")) 8)
    as (p & Ep & Hp).
  - reflexivity.
  - reflexivity.
  - exists p. split; [exact Ep|].
    assert (Hin : In (0, 7) (pr_conflicts p)).
    { revert Ep. vm_compute. intros Ep. injection Ep as <-. left. reflexivity. }
    intros k Hk. apply (Hp 0 7 Hin). exact Hk.
Defined.

Lemma no_conflict_marker_survives_witness :
  exists p,
    predict_arrays (map pa (String.list_ascii_of_string "MMMMMMMM"))
                   (map pb (String.list_ascii_of_string "MMMMMMMM")) 8 = Returns p /\
    pr_final p = pr_resolved p.
Proof.
  destruct (no_conflict_marker_survives
              (map pa (String.list_ascii_of_string "MMMMMMMM"))
              (map pb (String.list_ascii_of_string "MMMMMMMM")) 8)
    as (p & Ep & _ & _ & _ & _ & Hf & _).
  - reflexivity.
  - reflexivity.
  - exists p. split; [exact Ep | exact Hf].
Defined.

(* ================================================================= *)
(** ** Further properties of the Segment Extender *)

(** X1. A segment of fewer than three residues is returned as it is,
    whatever the array, the threshold and the sequence length. *)
Theorem extend_segment_short_unchanged (prop_list : list float) (threshold_sum : float)
    (seq_len start end_ : Z) :
  end_ - start + 1 < 3 ->
  extend_segment start end_ prop_list threshold_sum seq_len = Returns (start, end_).
Proof.
  intros Hlen. unfold extend_segment, extend_fuel. cbn [extend_loop].
  unfold extend_round.
  assert (E : (3 <=? end_ - start + 1) = false) by (apply Z.leb_gt; lia).
  rewrite E, andb_false_r. cbn [bind].
  rewrite E, andb_false_r. reflexivity.
Qed.

Lemma extend_segment_short_unchanged_witness :
  extend_segment 4 5 (map pa (String.list_ascii_of_string "EEEEEEEE")) 4.0%float 8
  = Returns (4, 5).
Proof.
  apply (extend_segment_short_unchanged
           (map pa (String.list_ascii_of_string "EEEEEEEE")) 4.0%float 8 4 5).
  lia.
Defined.

Section Maximal.

Variable prop_list : list float.
Variable threshold_sum : float.
Variable seq_len : Z.
Variables start end_ : Z.

(** What holds of a segment reached from [start, end_]: every residue
    gained passed its test. *)
Let reached (seg : Z * Z) : Prop :=
  segment_ok seq_len seg /\ fst seg <= start /\ end_ <= snd seg /\
  (forall k, fst seg <= k < start -> window_passes prop_list threshold_sum k = true) /\
  (forall k, end_ < k <= snd seg -> window_passes prop_list threshold_sum (k - 3) = true).

Lemma grow_round_reached (seg : Z * Z) :
  reached seg -> reached (grow_round prop_list threshold_sum seq_len seg).
Proof.
  destruct seg as [s e]. unfold reached, segment_ok. cbn [fst snd].
  intros ((S0 & S1 & S2) & L & R & PL & PR).
  unfold grow_round, left_step_taken, right_step_taken. cbn [fst snd].
  destruct (0 <? s) eqn:E0; destruct (e <? seq_len - 1) eqn:E1;
    destruct (3 <=? e - s + 1) eqn:E3; cbn [andb];
    try apply Z.ltb_lt in E0; try apply Z.ltb_lt in E1;
    try apply Z.ltb_ge in E0; try apply Z.ltb_ge in E1.
  all: repeat match goal with
       | |- context [if ?b then _ else _] => destruct b eqn:?
       end.
  all: repeat split; try lia.
  all: intros k Hk.
  all: try (apply PL; lia); try (apply PR; lia).
  all: try (destruct (Z.eq_dec k (s - 1)) as [-> | Hne]; [|apply PL; lia];
            unfold window_passes;
            replace (s - 1 + 1) with s by lia;
            replace (s - 1 + 2) with (s + 1) by lia;
            replace (s - 1 + 3) with (s + 2) by lia; assumption).
  all: try (destruct (Z.eq_dec k (e + 1)) as [-> | Hne]; [|apply PR; lia];
            unfold window_passes;
            replace (e + 1 - 3) with (e - 2) by lia;
            replace (e - 2 + 1) with (e - 1) by lia;
            replace (e - 2 + 2) with e by lia;
            replace (e - 2 + 3) with (e + 1) by lia; assumption).
Qed.

Lemma extend_segment_reach :
  0 <= start -> start + 2 <= end_ -> end_ <= seq_len - 1 -> seq_len <= len prop_list ->
  exists s' e' : Z,
    extend_segment start end_ prop_list threshold_sum seq_len = Returns (s', e') /\
    0 <= s' /\ s' <= start /\ end_ <= e' /\ e' <= seq_len - 1 /\
    (forall k, s' <= k < start -> window_passes prop_list threshold_sum k = true) /\
    (s' = 0 \/ window_passes prop_list threshold_sum (s' - 1) = false) /\
    (forall k, end_ < k <= e' -> window_passes prop_list threshold_sum (k - 3) = true) /\
    (e' = seq_len - 1 \/ window_passes prop_list threshold_sum (e' - 2) = false).
Proof.
  intros H0 H1 H2 HN.
  assert (Hseg : segment_ok seq_len (start, end_)) by (repeat split; cbn [fst snd]; lia).
  destruct (extend_loop_run prop_list threshold_sum seq_len _ _ _ Hseg HN
              (extend_fuel_enough seq_len _ _ Hseg)) as (n & R1 & R2 & _).
  assert (Hr : reached (Nat.iter n (grow_round prop_list threshold_sum seq_len)
                          (start, end_))).
  { apply Nat.iter_invariant.
    - intros seg. apply grow_round_reached.
    - unfold reached. cbn [fst snd]. split; [exact Hseg|].
      repeat split; try lia; intros k Hk; lia. }
  apply grow_round_fixed in R2.
  destruct (Nat.iter n (grow_round prop_list threshold_sum seq_len) (start, end_))
    as [s' e'] eqn:E.
  destruct Hr as ((S0 & S1 & S2) & L & R & PL & PR). cbn [fst snd] in *.
  apply orb_false_iff in R2 as [FL FR].
  exists s', e'. unfold extend_segment. rewrite R1.
  split; [reflexivity|].
  split; [exact S0|]. split; [exact L|]. split; [exact R|]. split; [exact S2|].
  split; [exact PL|]. split; [|split; [exact PR|]].
  - unfold left_step_taken in FL.
    replace (3 <=? e' - s' + 1) with true in FL by (symmetry; apply Z.leb_le; lia).
    rewrite andb_true_r in FL.
    destruct (0 <? s') eqn:E0; cbn [andb] in FL.
    + right. unfold window_passes.
      replace (s' - 1 + 1) with s' by lia.
      replace (s' - 1 + 2) with (s' + 1) by lia.
      replace (s' - 1 + 3) with (s' + 2) by lia. exact FL.
    + left. apply Z.ltb_ge in E0. lia.
  - unfold right_step_taken in FR.
    replace (3 <=? e' - s' + 1) with true in FR by (symmetry; apply Z.leb_le; lia).
    rewrite andb_true_r in FR.
    destruct (e' <? seq_len - 1) eqn:E1; cbn [andb] in FR.
    + right. unfold window_passes.
      replace (e' - 2 + 1) with (e' - 1) by lia.
      replace (e' - 2 + 2) with e' by lia.
      replace (e' - 2 + 3) with (e' + 1) by lia. exact FR.
    + left. apply Z.ltb_ge in E1. lia.
Qed.

(** X2. From a segment of at least three residues inside the sequence the
    Extender returns the largest stretch it can reach on each side
    separately: every residue gained on the left passed the test on the
    four values starting at it, every residue gained on the right passed
    the test on the four values ending at it, and on each side the
    extension stopped at the end of the sequence or at a window that fails
    the test. *)
Theorem extend_segment_maximal :
  0 <= start -> start + 2 <= end_ -> end_ <= seq_len - 1 -> seq_len <= len prop_list ->
  exists s' e' : Z,
    extend_segment start end_ prop_list threshold_sum seq_len = Returns (s', e') /\
    0 <= s' /\ s' <= start /\ end_ <= e' /\ e' <= seq_len - 1 /\
    (forall k, s' <= k < start -> window_passes prop_list threshold_sum k = true) /\
    (s' = 0 \/ window_passes prop_list threshold_sum (s' - 1) = false) /\
    (forall k, end_ < k <= e' -> window_passes prop_list threshold_sum (k - 3) = true) /\
    (e' = seq_len - 1 \/ window_passes prop_list threshold_sum (e' - 2) = false).
Proof. exact extend_segment_reach. Qed.

End Maximal.

Lemma extend_segment_maximal_witness :
  exists s' e' : Z,
    extend_segment 2 4 (map pa (String.list_ascii_of_string "GGEEEEGG")) 4.0%float 8
    = Returns (s', e') /\ 0 <= s' /\ s' <= 2.
Proof.
  destruct (extend_segment_maximal
              (map pa (String.list_ascii_of_string "GGEEEEGG")) 4.0%float 8 2 4)
    as (s' & e' & R & A & B & _).
  - lia.
  - lia.
  - lia.
  - unfold len. simpl. lia.
  - exists s', e'. auto.
Defined.

(* ================================================================= *)
(** ** Further properties of the Segment Merger *)

Lemma covered_by_nil (k : Z) : ~ covered_by [] k.
Proof. intros (seg & [] & _). Qed.

Lemma covered_by_cons (seg : Z * Z) (l : list (Z * Z)) (k : Z) :
  covered_by (seg :: l) k <-> covers seg k \/ covered_by l k.
Proof.
  unfold covered_by. split.
  - intros (x & [<- | Hx] & Hk); [left; exact Hk | right; exists x; auto].
  - intros [Hk | (x & Hx & Hk)]; [exists seg | exists x]; simpl; auto.
Qed.

Lemma covered_by_app (l1 l2 : list (Z * Z)) (k : Z) :
  covered_by (l1 ++ l2) k <-> covered_by l1 k \/ covered_by l2 k.
Proof.
  unfold covered_by. split.
  - intros (x & Hx & Hk). apply in_app_or in Hx as [Hx | Hx];
      [left | right]; exists x; auto.
  - intros [(x & Hx & Hk) | (x & Hx & Hk)]; exists x; split; auto;
      apply in_or_app; auto.
Qed.

Lemma covered_by_perm (l1 l2 : list (Z * Z)) (k : Z) :
  Permutation l1 l2 -> covered_by l1 k -> covered_by l2 k.
Proof.
  intros Hp (x & Hx & Hk). exists x. split; [|exact Hk].
  eapply Permutation_in; eassumption.
Qed.

(** The fold neither loses nor invents a position. *)
Lemma merge_fold_cover (rest closed : list (Z * Z)) (acc : Z * Z) (k : Z) :
  StronglySorted by_start (acc :: rest) ->
  covered_by (merge_fold closed acc rest) k
  <-> covered_by closed k \/ covers acc k \/ covered_by rest k.
Proof.
  revert closed acc. induction rest as [|[s e] rest IH]; intros closed acc Hs.
  - cbn [merge_fold]. rewrite covered_by_app, covered_by_cons.
    pose proof (covered_by_nil k). tauto.
  - apply StronglySorted_inv in Hs as [Hrest Hacc].
    apply Forall_cons_iff in Hacc as [Hse Hacc'].
    pose proof (StronglySorted_inv Hrest) as [Hrest' Hse'].
    unfold by_start in Hse. cbn [fst] in Hse.
    cbn [merge_fold]. rewrite (covered_by_cons (s, e) rest).
    destruct (s <=? snd acc + 1) eqn:E.
    + apply Z.leb_le in E. rewrite IH.
      * unfold covers. cbn [fst snd]. split.
        -- intros [H | [H | H]]; auto.
           destruct (Z_le_gt_dec k (snd acc)); [right; left; lia | right; right; left; lia].
        -- intros [H | [H | [H | H]]]; auto; right; left; lia.
      * constructor; [exact Hrest'|].
        eapply Forall_impl; [|exact Hacc']. intros x Hx. unfold by_start in *. exact Hx.
    + rewrite IH by exact Hrest.
      rewrite covered_by_app, covered_by_cons.
      pose proof (covered_by_nil k). tauto.
Qed.

Lemma merge_segments_cover_rule (segments : list (Z * Z)) (k : Z) :
  covered_by segments k <-> covered_by (merge_by_rule (sorted segments)) k.
Proof.
  assert (Hs : covered_by segments k <-> covered_by (sorted segments) k).
  { split; apply covered_by_perm; [|apply Permutation_sym]; apply sorted_perm. }
  rewrite Hs. pose proof (sorted_by_start segments) as Hsorted.
  destruct (sorted segments) as [|first rest]; [reflexivity|].
  cbn [merge_by_rule]. rewrite (merge_fold_cover rest [] first k Hsorted).
  rewrite covered_by_cons. pose proof (covered_by_nil k). tauto.
Qed.

(** X3. Merging keeps the covered positions: a position lies in one of the
    segments given exactly when it lies in one of the segments returned. *)
Theorem merge_segments_same_cover (segments : list (Z * Z)) :
  exists merged : list (Z * Z),
    merge_segments segments = Returns merged /\
    forall k, covered_by segments k <-> covered_by merged k.
Proof.
  exists (merge_by_rule (sorted segments)). split; [apply merge_segments_rule|].
  intros k.
  assert (Hs : covered_by segments k <-> covered_by (sorted segments) k).
  { split; apply covered_by_perm; [|apply Permutation_sym]; apply sorted_perm. }
  rewrite Hs. pose proof (sorted_by_start segments) as Hsorted.
  destruct (sorted segments) as [|first rest]; [reflexivity|].
  cbn [merge_by_rule]. rewrite (merge_fold_cover rest [] first k Hsorted).
  rewrite covered_by_cons. pose proof (covered_by_nil k). tauto.
Qed.

Lemma merge_fold_length (rest closed : list (Z * Z)) (acc : Z * Z) :
  (length closed + 1 <= length (merge_fold closed acc rest)
   <= length closed + 1 + length rest)%nat.
Proof.
  revert closed acc. induction rest as [|[s e] rest IH]; intros closed acc.
  - cbn [merge_fold]. rewrite length_app. simpl. lia.
  - cbn [merge_fold length]. destruct (s <=? snd acc + 1).
    + specialize (IH closed (fst acc, Z.max (snd acc) e)). lia.
    + specialize (IH (closed ++ [acc]) (s, e)). rewrite length_app in IH. simpl in IH. lia.
Qed.

(** X4. The Merger never returns more segments than it was given, and it
    returns none only when it was given none. *)
Theorem merge_segments_count (segments : list (Z * Z)) :
  exists merged : list (Z * Z),
    merge_segments segments = Returns merged /\
    len merged <= len segments /\
    (merged = [] <-> segments = []).
Proof.
  exists (merge_by_rule (sorted segments)). split; [apply merge_segments_rule|].
  pose proof (Permutation_length (sorted_perm segments)) as Hlen.
  destruct (sorted segments) as [|first rest] eqn:E.
  - destruct segments; [|discriminate]. cbn [merge_by_rule]. split; [lia|tauto].
  - cbn [merge_by_rule].
    pose proof (merge_fold_length rest [] first) as Hf. cbn [length] in Hf, Hlen.
    split; [unfold len; lia|].
    split; intros H.
    + rewrite H in Hf. simpl in Hf. lia.
    + subst segments. discriminate.
Qed.

Lemma lex_le_trans (a b c : Z * Z) : lex_le a b -> lex_le b c -> lex_le a c.
Proof. unfold lex_le. lia. Qed.

Lemma lex_le_antisym (a b : Z * Z) : lex_le a b -> lex_le b a -> a = b.
Proof.
  destruct a as [a1 a2], b as [b1 b2]. unfold lex_le. cbn [fst snd].
  intros H1 H2. f_equal; lia.
Qed.

Lemma seg_leb_lex (a b : Z * Z) : seg_leb a b = true <-> lex_le a b.
Proof.
  unfold seg_leb, lex_le.
  rewrite orb_true_iff, andb_true_iff, Z.ltb_lt, Z.eqb_eq, Z.leb_le. tauto.
Qed.

Lemma sorted_lex (segments : list (Z * Z)) : StronglySorted lex_le (sorted segments).
Proof.
  apply Sorted_StronglySorted.
  - intros a b c. apply lex_le_trans.
  - exact (sorted_lexicographic segments).
Qed.

(** Sorting a sorted list changes nothing. *)
Lemma sorted_fixed (l : list (Z * Z)) : StronglySorted lex_le l -> sorted l = l.
Proof.
  induction 1 as [|x l Hs IH Hx]; [reflexivity|].
  cbn [sorted fold_right]. fold (sorted l). rewrite IH.
  destruct l as [|y t]; [reflexivity|].
  cbn [insert_sorted]. apply Forall_inv in Hx. apply seg_leb_lex in Hx.
  rewrite Hx. reflexivity.
Qed.

(** Two sorted lists with the same elements are the same list. *)
Lemma lex_sorted_unique (l1 l2 : list (Z * Z)) :
  StronglySorted lex_le l1 -> StronglySorted lex_le l2 -> Permutation l1 l2 -> l1 = l2.
Proof.
  intros H1. revert l2. induction H1 as [|x l1 Hs1 IH Hx]; intros l2 H2 Hp.
  - apply Permutation_nil in Hp. subst. reflexivity.
  - destruct l2 as [|y l2].
    { apply Permutation_sym, Permutation_nil in Hp. discriminate. }
    apply StronglySorted_inv in H2 as [Hs2 Hy].
    rewrite Forall_forall in Hx, Hy.
    assert (Hxy : x = y).
    { assert (Hin1 : In x (y :: l2))
        by (eapply Permutation_in; [exact Hp | left; reflexivity]).
      assert (Hin2 : In y (x :: l1))
        by (eapply Permutation_in; [apply Permutation_sym; exact Hp | left; reflexivity]).
      destruct Hin1 as [E | Hin1]; [auto|].
      destruct Hin2 as [E | Hin2]; [auto|].
      apply lex_le_antisym; auto. }
    subst y. f_equal. apply IH; [exact Hs2|].
    eapply Permutation_cons_inv. exact Hp.
Qed.

(** X5. The Merger does not depend on the order in which the segments are
    given. *)
Theorem merge_segments_order_free (segments segments' : list (Z * Z)) :
  Permutation segments segments' ->
  merge_segments segments = merge_segments segments'.
Proof.
  intros Hp. rewrite !merge_segments_rule. do 2 f_equal.
  apply lex_sorted_unique; try apply sorted_lex.
  eapply perm_trans; [apply Permutation_sym, sorted_perm|].
  eapply perm_trans; [exact Hp | apply sorted_perm].
Qed.

Lemma merge_segments_order_free_witness :
  merge_segments [(7, 9); (0, 3); (2, 5)] = merge_segments [(2, 5); (7, 9); (0, 3)].
Proof.
  apply (merge_segments_order_free [(7, 9); (0, 3); (2, 5)] [(2, 5); (7, 9); (0, 3)]).
  apply Permutation_sym. apply (Permutation_cons_app [(7, 9); (0, 3)] [] (2, 5)).
  apply Permutation_refl.
Defined.

(** The fold over a sorted list returns a sorted list. *)
Lemma merge_fold_lex (rest closed : list (Z * Z)) (acc : Z * Z) :
  StronglySorted lex_le closed ->
  Forall (fun x => lex_le x acc) closed ->
  StronglySorted lex_le (acc :: rest) ->
  StronglySorted lex_le (merge_fold closed acc rest).
Proof.
  revert closed acc. induction rest as [|[s e] rest IH]; intros closed acc Hc Ha Hr.
  - cbn [merge_fold]. apply StronglySorted_snoc; assumption.
  - apply StronglySorted_inv in Hr as [Hrest Hacc].
    apply Forall_cons_iff in Hacc as [Hse Hacc'].
    pose proof (StronglySorted_inv Hrest) as [Hrest' Hse'].
    cbn [merge_fold]. destruct (s <=? snd acc + 1).
    + apply IH; [exact Hc | |].
      * eapply Forall_impl; [|exact Ha]. intros x Hx.
        unfold lex_le in *. cbn [fst snd]. lia.
      * constructor; [exact Hrest'|].
        rewrite Forall_forall in Hacc', Hse'. apply Forall_forall. intros r Hr.
        specialize (Hacc' r Hr). specialize (Hse' r Hr).
        unfold lex_le in *. cbn [fst snd] in *. lia.
    + apply IH; [apply StronglySorted_snoc; assumption | | exact Hrest].
      apply Forall_app. split.
      * eapply Forall_impl; [|exact Ha]. intros x Hx. cbv beta in Hx.
        exact (lex_le_trans x acc (s, e) Hx Hse).
      * constructor; [exact Hse | constructor].
Qed.

(** The fold leaves a list of segments that are apart as it is. *)
Lemma merge_fold_apart_fixed (rest closed : list (Z * Z)) (acc : Z * Z) :
  StronglySorted apart (acc :: rest) ->
  merge_fold closed acc rest = closed ++ acc :: rest.
Proof.
  revert closed acc. induction rest as [|[s e] rest IH]; intros closed acc Hs.
  - reflexivity.
  - apply StronglySorted_inv in Hs as [Hrest Hacc].
    apply Forall_inv in Hacc. destruct Hacc as [_ Hgap]. cbn [fst] in Hgap.
    cbn [merge_fold].
    replace (s <=? snd acc + 1) with false by (symmetry; apply Z.leb_gt; lia).
    rewrite (IH _ _ Hrest), <- app_assoc. reflexivity.
Qed.

Lemma merge_segments_fixed_on (l : list (Z * Z)) :
  StronglySorted lex_le l -> StronglySorted apart l -> merge_segments l = Returns l.
Proof.
  intros Hlex Hap. rewrite merge_segments_rule, (sorted_fixed l Hlex).
  destruct l as [|first rest]; [reflexivity|].
  cbn [merge_by_rule]. rewrite (merge_fold_apart_fixed rest [] first Hap). reflexivity.
Qed.

(** X6. The Merger is idempotent: merging what it returned returns it
    again. *)
Theorem merge_segments_idempotent (segments merged : list (Z * Z)) :
  merge_segments segments = Returns merged ->
  merge_segments merged = Returns merged.
Proof.
  rewrite merge_segments_rule. intros H. injection H as <-.
  apply merge_segments_fixed_on.
  - pose proof (sorted_lex segments) as Hs.
    destruct (sorted segments) as [|first rest]; [constructor|].
    cbn [merge_by_rule]. apply merge_fold_lex; [constructor | constructor | exact Hs].
  - apply merge_by_rule_apart, sorted_by_start.
Qed.

Lemma merge_segments_idempotent_witness :
  merge_segments [(0, 9); (11, 12)] = Returns [(0, 9); (11, 12)].
Proof.
  apply (merge_segments_idempotent [(7, 9); (0, 3); (2, 5); (6, 6); (11, 12)]).
  vm_compute. reflexivity.
Defined.

(** X7. A set of segments that is already merged (each segment with
    [start <= end], in ascending order, no two overlapping or adjacent) is
    returned unchanged. *)
Theorem merge_segments_keeps_merged (l : list (Z * Z)) :
  Forall (fun seg => fst seg <= snd seg) l -> StronglySorted apart l ->
  merge_segments l = Returns l.
Proof.
  intros Hwf Hap. apply merge_segments_fixed_on; [|exact Hap].
  induction Hap as [|x l Hs IH Hx]; [constructor|].
  apply Forall_cons_iff in Hwf as [Hx_wf Hwf].
  constructor; [apply IH; exact Hwf|].
  eapply Forall_impl; [|exact Hx]. intros y [_ Hgap]. unfold lex_le. lia.
Qed.

Lemma merge_segments_keeps_merged_witness :
  merge_segments [(0, 4); (6, 6); (9, 20)] = Returns [(0, 4); (6, 6); (9, 20)].
Proof.
  apply (merge_segments_keeps_merged [(0, 4); (6, 6); (9, 20)]).
  - repeat constructor; simpl; lia.
  - repeat constructor; unfold apart; simpl; lia.
Defined.

(* ================================================================= *)
(** ** Further properties of the Window Scanner *)

(** X8. The count behind the nucleation test lies between zero and the
    number of values in the window: a window with fewer than [min_count]
    values is never a seed, and with [min_count <= 0] every window is
    one. *)
Theorem window_has_min_over_1_bounds (vals : list float) (min_count : Z) :
  0 <= count_over_1 vals <= len vals /\
  (len vals < min_count -> window_has_min_over_1 vals min_count = false) /\
  (min_count <= 0 -> window_has_min_over_1 vals min_count = true).
Proof.
  assert (H : 0 <= count_over_1 vals <= len vals).
  { rewrite count_over_1_filter. split; [apply len_nonneg|].
    unfold len. pose proof (filter_length_le (fun v => (1.0 <? v)%float) vals). lia. }
  split; [exact H|]. unfold window_has_min_over_1. split; intros Hm.
  - apply Z.leb_gt. lia.
  - apply Z.leb_le. lia.
Qed.

(* ================================================================= *)
(** ** Segment sets and label arrays *)

Lemma covers_dec (seg : Z * Z) (k : Z) :
  (fst seg <=? k) && (k <=? snd seg) = true <-> covers seg k.
Proof. unfold covers. rewrite andb_true_iff, !Z.leb_le. tauto. Qed.

(** Painting from any array of the right length: covered positions get
    the mark, the others keep their label. *)
Lemma paint_from (mark : ascii) (N : Z) (segments : list (Z * Z)) (labels0 : list ascii) :
  len labels0 = N -> Forall (segment_ok N) segments ->
  exists labels,
    for_each segments
      (fun labels '(s, e) =>
         for_each (range s (e + 1)) (fun labels k => setitem labels k mark) labels)
      labels0 = Returns labels /\
    len labels = N /\
    forall k, 0 <= k < N ->
      (covered_by segments k -> label_at labels k = mark) /\
      (~ covered_by segments k -> label_at labels k = label_at labels0 k).
Proof.
  revert labels0. induction segments as [|[s e] segments IH]; intros labels0 Hl Hok.
  - exists labels0. split; [reflexivity|]. split; [exact Hl|].
    intros k Hk. split; [intros H; destruct (covered_by_nil k H) | reflexivity].
  - apply Forall_cons_iff in Hok as [(S0 & S1 & S2) Hok]. cbn [fst snd] in *.
    destruct (fill_range "-"%char mark labels0 N s e Hl S0 S2) as (l1 & E1 & L1 & N1).
    destruct (IH l1 L1 Hok) as (l2 & E2 & L2 & N2).
    exists l2. cbn [for_each]. rewrite E1. cbn [bind].
    split; [exact E2|]. split; [exact L2|].
    intros k Hk. destruct (N2 k Hk) as [Hin Hout].
    assert (H1 : label_at l1 k
                 = if (s <=? k) && (k <=? e) then mark else label_at labels0 k)
      by (apply N1; exact Hk).
    split.
    + intros Hc. apply covered_by_cons in Hc.
      destruct (classic_covered segments k) as [Hyes | Hno].
      * apply Hin. exact Hyes.
      * rewrite Hout by (intros (r & Hr & Hkr); exact (Hno r Hr Hkr)).
        rewrite H1. destruct Hc as [Hc | Hc].
        -- apply (covers_dec (s, e)) in Hc. cbn [fst snd] in Hc. rewrite Hc. reflexivity.
        -- destruct Hc as (r & Hr & Hkr). destruct (Hno r Hr Hkr).
    + intros Hc. rewrite Hout.
      * rewrite H1. destruct ((s <=? k) && (k <=? e)) eqn:E; [|reflexivity].
        exfalso. apply Hc. apply covered_by_cons. left.
        apply (covers_dec (s, e)). exact E.
      * intros Hc'. apply Hc. apply covered_by_cons. right. exact Hc'.
Qed.

Lemma label_at_repeat_dash (N k : Z) : label_at (repeat "-"%char (Z.to_nat N)) k = "-"%char.
Proof. unfold label_at. apply nth_repeat_dash. Qed.

Lemma paint_cover (segments : list (Z * Z)) (mark : ascii) (N : Z) :
  0 <= N -> Forall (segment_ok N) segments ->
  exists labels,
    paint segments mark N = Returns labels /\ len labels = N /\
    forall k, 0 <= k < N ->
      (covered_by segments k -> label_at labels k = mark) /\
      (~ covered_by segments k -> label_at labels k = "-"%char).
Proof.
  intros HN Hok. unfold paint.
  destruct (paint_from mark N segments (repeat "-"%char (Z.to_nat N))
              (len_repeat _ N HN) Hok) as (labels & E & L & H).
  exists labels. split; [exact E|]. split; [exact L|].
  intros k Hk. destruct (H k Hk) as [Hin Hout]. split; [exact Hin|].
  intros Hc. rewrite (Hout Hc). apply label_at_repeat_dash.
Qed.

(** X9. Painting segments that lie inside the sequence never fails and
    gives an array of [N] labels in which a position carries the mark
    exactly when one of the segments covers it, and ['-'] otherwise. *)
Theorem paint_marks_covered (segments : list (Z * Z)) (mark : ascii) (N : Z) :
  0 <= N -> Forall (segment_ok N) segments ->
  exists labels,
    paint segments mark N = Returns labels /\ len labels = N /\
    forall k, 0 <= k < N ->
      (covered_by segments k -> label_at labels k = mark) /\
      (~ covered_by segments k -> label_at labels k = "-"%char).
Proof. apply paint_cover. Qed.

Lemma paint_marks_covered_witness :
  exists labels, paint [(1, 2); (4, 4)] "H"%char 6 = Returns labels /\ len labels = 6.
Proof.
  destruct (paint_marks_covered [(1, 2); (4, 4)] "H"%char 6) as (labels & E & L & _).
  - lia.
  - repeat constructor; simpl; lia.
  - exists labels. split; assumption.
Defined.

Lemma nucleate_long (w min_count : Z) (threshold_sum : float) (prop_list : list float) (N : Z) :
  1 <= w -> N <= len prop_list ->
  exists segs, nucleate w min_count threshold_sum prop_list N = Returns segs /\
               Forall (long_segment N w) segs.
Proof.
  intros Hw HN. unfold nucleate.
  apply for_each_invariant; [|constructor].
  intros acc i Hi Hacc. apply range_In in Hi.
  destruct (window_has_min_over_1 _ _).
  - destruct (extend_segment_within prop_list threshold_sum N i (i + w - 1))
      as (s' & e' & R & L1 & L2 & (O0 & O1 & O2)); auto.
    { repeat split; cbn [fst snd]; lia. }
    cbn [fst snd] in *.
    rewrite R. cbn [bind]. eexists. split; [reflexivity|].
    apply Forall_app. split; [exact Hacc|]. constructor; [|constructor].
    unfold long_segment. cbn [fst snd]. lia.
  - eexists. split; [reflexivity | exact Hacc].
Qed.

Lemma merge_fold_long (N w : Z) (rest closed : list (Z * Z)) (acc : Z * Z) :
  Forall (long_segment N w) closed -> long_segment N w acc ->
  Forall (long_segment N w) rest ->
  Forall (long_segment N w) (merge_fold closed acc rest).
Proof.
  revert closed acc. induction rest as [|[s e] rest IH]; intros closed acc Hc Ha Hr.
  - cbn [merge_fold]. apply Forall_app. split; [exact Hc|].
    constructor; [exact Ha | constructor].
  - apply Forall_cons_iff in Hr as [Hse Hr].
    cbn [merge_fold]. destruct (s <=? snd acc + 1).
    + apply IH; [exact Hc | | exact Hr].
      unfold long_segment in *. cbn [fst snd] in *. lia.
    + apply IH; [|exact Hse | exact Hr].
      apply Forall_app. split; [exact Hc|]. constructor; [exact Ha | constructor].
Qed.

Lemma merged_long (N w : Z) (segments : list (Z * Z)) :
  Forall (long_segment N w) segments ->
  exists merged, merge_segments segments = Returns merged /\
    Forall (long_segment N w) merged /\ StronglySorted apart merged.
Proof.
  intros Hs. exists (merge_by_rule (sorted segments)).
  split; [apply merge_segments_rule|].
  split; [|apply merge_by_rule_apart, sorted_by_start].
  assert (Hsorted : Forall (long_segment N w) (sorted segments)).
  { eapply Permutation_Forall; [apply sorted_perm | exact Hs]. }
  destruct (sorted segments) as [|first rest]; [constructor|].
  apply Forall_cons_iff in Hsorted as [Hf Hr].
  cbn [merge_by_rule]. apply merge_fold_long; [constructor | exact Hf | exact Hr].
Qed.

(** X10. For arrays as long as the sequence, both segment sets are
    computed without failure; every helix segment lies inside the sequence
    and has at least 6 residues, every strand segment at least 5, and in
    each set the segments are in ascending order with a gap of at least one
    residue between any two. *)
Theorem segment_sets_are_merged (Palpha_list Pbeta_list : list float) (N : Z) :
  len Palpha_list = N -> len Pbeta_list = N ->
  (exists hs, helix_segments Palpha_list N = Returns hs /\
     Forall (long_segment N 6) hs /\ StronglySorted apart hs) /\
  (exists ss, strand_segments Pbeta_list N = Returns ss /\
     Forall (long_segment N 5) ss /\ StronglySorted apart ss).
Proof.
  intros Ha Hb. split.
  - unfold helix_segments.
    destruct (nucleate_long wH 4 4.0%float Palpha_list N) as (segs & E & Hl);
      [unfold wH; lia | lia |].
    rewrite E. cbn [bind]. apply (merged_long N 6). exact Hl.
  - unfold strand_segments.
    destruct (nucleate_long wS 3 4.0000001%float Pbeta_list N) as (segs & E & Hl);
      [unfold wS; lia | lia |].
    rewrite E. cbn [bind]. apply (merged_long N 5). exact Hl.
Qed.

Lemma segment_sets_are_merged_witness :
  exists hs,
    helix_segments (map pa (String.list_ascii_of_string "MMMMMMMM")) 8 = Returns hs /\
    Forall (long_segment 8 6) hs.
Proof.
  destruct (segment_sets_are_merged
              (map pa (String.list_ascii_of_string "MMMMMMMM"))
              (map pb (String.list_ascii_of_string "MMMMMMMM")) 8)
    as ((hs & E & Hl & _) & _).
  - reflexivity.
  - reflexivity.
  - exists hs. split; assumption.
Defined.

(* ================================================================= *)
(** ** The stages behind a prediction *)

(** A returned prediction records what each stage returned. *)
Lemma predict_arrays_stages (Palpha_list Pbeta_list : list float) (N : Z) (p : prediction) :
  predict_arrays Palpha_list Pbeta_list N = Returns p ->
  helix_segments Palpha_list N = Returns (pr_helix p) /\
  strand_segments Pbeta_list N = Returns (pr_strand p) /\
  paint (pr_helix p) "H"%char N = Returns (pr_labels_H p) /\
  paint (pr_strand p) "S"%char N = Returns (pr_labels_S p) /\
  conflict_mask (pr_labels_H p) (pr_labels_S p) N = Returns (pr_mask p) /\
  conflict_regions (pr_mask p) N = Returns (pr_conflicts p) /\
  mark_labels (pr_labels_H p) (pr_labels_S p) N = Returns (pr_marked p) /\
  resolve_conflicts Palpha_list Pbeta_list (pr_marked p) (pr_conflicts p)
    = Returns (pr_resolved p, pr_choices p) /\
  clean_residual (pr_resolved p) N = Returns (pr_final p).
Proof.
  unfold predict_arrays.
  destruct (helix_segments Palpha_list N) as [hs| |] eqn:E1; cbn [bind]; try discriminate.
  destruct (strand_segments Pbeta_list N) as [ss| |] eqn:E2; cbn [bind]; try discriminate.
  destruct (paint hs "H" N) as [lH| |] eqn:E3; cbn [bind]; try discriminate.
  destruct (paint ss "S" N) as [lS| |] eqn:E4; cbn [bind]; try discriminate.
  destruct (conflict_mask lH lS N) as [mask| |] eqn:E5; cbn [bind]; try discriminate.
  destruct (conflict_regions mask N) as [regions| |] eqn:E6; cbn [bind]; try discriminate.
  destruct (mark_labels lH lS N) as [marked| |] eqn:E7; cbn [bind]; try discriminate.
  destruct (resolve_conflicts Palpha_list Pbeta_list marked regions)
    as [[resolved choices]| |] eqn:E8; cbn [bind]; try discriminate.
  destruct (clean_residual resolved N) as [final| |] eqn:E9; cbn [bind]; try discriminate.
  intros H. injection H as <-.
  cbn [pr_helix pr_strand pr_labels_H pr_labels_S pr_mask pr_conflicts pr_marked
       pr_choices pr_resolved pr_final].
  repeat split; assumption.
Qed.

Section Prediction.

Variables Palpha_list Pbeta_list : list float.
Variable N : Z.
Variable p : prediction.
Hypothesis Palpha_len : len Palpha_list = N.
Hypothesis Pbeta_len : len Pbeta_list = N.
Hypothesis predicted : predict_arrays Palpha_list Pbeta_list N = Returns p.

Lemma prediction_segments_ok :
  Forall (segment_ok N) (pr_helix p) /\ Forall (segment_ok N) (pr_strand p).
Proof.
  destruct (predict_arrays_stages _ _ _ _ predicted) as (E1 & E2 & _).
  destruct (helix_segments_ok Palpha_list N Palpha_len) as (hs & Eh & Hh).
  destruct (strand_segments_ok Pbeta_list N Pbeta_len) as (ss & Es & Hs).
  rewrite E1 in Eh. rewrite E2 in Es.
  injection Eh as <-. injection Es as <-. split; assumption.
Qed.

(** The label arrays say which positions the segment sets cover. *)
Lemma prediction_labels (k : Z) :
  0 <= k < N ->
  (covered_by (pr_helix p) k <-> label_at (pr_labels_H p) k = "H"%char) /\
  (covered_by (pr_strand p) k <-> label_at (pr_labels_S p) k = "S"%char).
Proof.
  intros Hk.
  assert (HN : 0 <= N) by lia.
  destruct (predict_arrays_stages _ _ _ _ predicted) as (_ & _ & E3 & E4 & _).
  destruct prediction_segments_ok as [Hh Hs].
  destruct (paint_cover (pr_helix p) "H"%char N HN Hh) as (lH & EH & _ & CH).
  destruct (paint_cover (pr_strand p) "S"%char N HN Hs) as (lS & ES & _ & CS).
  rewrite E3 in EH. rewrite E4 in ES. injection EH as <-. injection ES as <-.
  destruct (CH k Hk) as [H1 H2]. destruct (CS k Hk) as [S1 S2].
  split; split; auto.
  - intros HH. destruct (classic_covered (pr_helix p) k) as [Hc | Hn]; [exact Hc|].
    rewrite H2 in HH; [discriminate|].
    intros (r & Hr & Hkr). exact (Hn r Hr Hkr).
  - intros HS. destruct (classic_covered (pr_strand p) k) as [Hc | Hn]; [exact Hc|].
    rewrite S2 in HS; [discriminate|].
    intros (r & Hr & Hkr). exact (Hn r Hr Hkr).
Qed.

Lemma prediction_both (k : Z) :
  0 <= k < N ->
  both_claim (pr_labels_H p) (pr_labels_S p) k = true
  <-> covered_by (pr_helix p) k /\ covered_by (pr_strand p) k.
Proof.
  intros Hk. destruct (prediction_labels k Hk) as [HH HS].
  unfold both_claim. rewrite andb_true_iff, !Ascii.eqb_eq. tauto.
Qed.

End Prediction.

Lemma prediction_conflicts_cover (Palpha_list Pbeta_list : list float) (N : Z) :
  len Palpha_list = N -> len Pbeta_list = N ->
  exists p, predict_arrays Palpha_list Pbeta_list N = Returns p /\
    forall k, covered_by (pr_conflicts p) k
              <-> covered_by (pr_helix p) k /\ covered_by (pr_strand p) k.
Proof.
  intros Ha Hb.
  destruct (predict_arrays_facts Palpha_list Pbeta_list N Ha Hb)
    as (p & Ep & LH & LS & Emask & Rmax & Rcov & _).
  exists p. split; [exact Ep|]. intros k.
  destruct (prediction_segments_ok _ _ _ _ Ha Hb Ep) as [Hh Hs].
  rewrite Forall_forall in Rmax. split.
  - intros (r & Hr & Hkr). destruct (Rmax r Hr) as (M0 & M1 & M2 & Mall & _).
    unfold covers in Hkr.
    apply (prediction_both _ _ _ _ Ha Hb Ep); [lia|].
    rewrite <- (mask_at_both_claim _ _ N k) by lia. rewrite <- Emask.
    apply Mall. exact Hkr.
  - intros [Hch Hcs].
    assert (Hk : 0 <= k < N).
    { destruct Hch as (r & Hr & Hkr). rewrite Forall_forall in Hh.
      destruct (Hh r Hr) as (R0 & R1 & R2). unfold covers in Hkr. lia. }
    destruct (Rcov k Hk) as (r & Hr & Hkr).
    + rewrite Emask, mask_at_both_claim by exact Hk.
      apply (prediction_both _ _ _ _ Ha Hb Ep); auto.
    + exists r. split; [exact Hr | exact Hkr].
Qed.

(** X11. The Conflict Regions cover exactly the positions that lie both in
    a helix segment and in a strand segment. *)
Theorem conflicts_are_overlaps (Palpha_list Pbeta_list : list float) (N : Z) :
  len Palpha_list = N -> len Pbeta_list = N ->
  exists p, predict_arrays Palpha_list Pbeta_list N = Returns p /\
    forall k, covered_by (pr_conflicts p) k
              <-> covered_by (pr_helix p) k /\ covered_by (pr_strand p) k.
Proof. apply prediction_conflicts_cover. Qed.

Lemma conflicts_are_overlaps_witness :
  exists p,
    predict_arrays (map pa (String.list_ascii_of_string "MMMMMMMM"))
                   (map pb (String.list_ascii_of_string "MMMMMMMM")) 8 = Returns p /\
    (covered_by (pr_conflicts p) 3
     <-> covered_by (pr_helix p) 3 /\ covered_by (pr_strand p) 3).
Proof.
  destruct (conflicts_are_overlaps
              (map pa (String.list_ascii_of_string "MMMMMMMM"))
              (map pb (String.list_ascii_of_string "MMMMMMMM")) 8)
    as (p & Ep & H).
  - reflexivity.
  - reflexivity.
  - exists p. split; [exact Ep | apply H].
Defined.

Lemma prediction_final_cases (Palpha_list Pbeta_list : list float) (N : Z) :
  len Palpha_list = N -> len Pbeta_list = N ->
  exists p, predict_arrays Palpha_list Pbeta_list N = Returns p /\
    len (pr_final p) = N /\
    forall k, 0 <= k < N ->
      (~ covered_by (pr_helix p) k -> ~ covered_by (pr_strand p) k ->
       label_at (pr_final p) k = "-"%char) /\
      (covered_by (pr_helix p) k -> ~ covered_by (pr_strand p) k ->
       label_at (pr_final p) k = "H"%char) /\
      (~ covered_by (pr_helix p) k -> covered_by (pr_strand p) k ->
       label_at (pr_final p) k = "S"%char) /\
      (covered_by (pr_helix p) k -> covered_by (pr_strand p) k ->
       exists s e, In (s, e) (pr_conflicts p) /\ s <= k <= e /\
                   label_at (pr_final p) k = chosen_for Palpha_list Pbeta_list s e).
Proof.
  intros Ha Hb.
  destruct (predict_arrays_facts Palpha_list Pbeta_list N Ha Hb)
    as (p & Ep & LH & LS & Emask & Rmax & Rcov & Lmk & Nmk & Ech & Lres & Rin & Rout
        & Lf & Nf).
  exists p. split; [exact Ep|]. split; [exact Lf|]. intros k Hk.
  destruct (prediction_labels _ _ _ _ Ha Hb Ep k Hk) as [HH HS].
  pose proof (prediction_both _ _ _ _ Ha Hb Ep k Hk) as Hboth.
  rewrite Forall_forall in Rmax.
  assert (Hout : both_claim (pr_labels_H p) (pr_labels_S p) k = false ->
                 label_at (pr_final p) k
                 = mark_of (label_at (pr_labels_H p) k) (label_at (pr_labels_S p) k)).
  { intros Hb0.
    assert (Hnone : forall r, In r (pr_conflicts p) -> ~ fst r <= k <= snd r).
    { intros r Hr Hkr. destruct (Rmax r Hr) as (_ & _ & _ & Mall & _).
      specialize (Mall k Hkr). rewrite Emask, mask_at_both_claim in Mall by exact Hk.
      congruence. }
    rewrite Nf by exact Hk. rewrite (Rout k Hk Hnone), (Nmk k Hk).
    unfold both_claim in Hb0. unfold mark_of.
    destruct (Ascii.eqb (label_at (pr_labels_H p) k) "H");
      destruct (Ascii.eqb (label_at (pr_labels_S p) k) "S");
      try reflexivity; discriminate. }
  assert (Hnot : ~ (covered_by (pr_helix p) k /\ covered_by (pr_strand p) k) ->
                 both_claim (pr_labels_H p) (pr_labels_S p) k = false).
  { intros Hn. apply not_true_is_false. intros Ht. apply Hn, Hboth. exact Ht. }
  split; [|split; [|split]].
  - intros Hnh Hns. rewrite Hout by (apply Hnot; tauto).
    unfold mark_of.
    destruct (Ascii.eqb (label_at (pr_labels_H p) k) "H") eqn:EH.
    { apply Ascii.eqb_eq in EH. apply HH in EH. contradiction. }
    destruct (Ascii.eqb (label_at (pr_labels_S p) k) "S") eqn:ES; [|reflexivity].
    apply Ascii.eqb_eq in ES. apply HS in ES. contradiction.
  - intros Hh Hns. rewrite Hout by (apply Hnot; tauto).
    apply HH in Hh. rewrite Hh. unfold mark_of. cbn [Ascii.eqb]. 
    destruct (Ascii.eqb (label_at (pr_labels_S p) k) "S") eqn:ES; [|reflexivity].
    apply Ascii.eqb_eq in ES. apply HS in ES. contradiction.
  - intros Hnh Hs. rewrite Hout by (apply Hnot; tauto).
    apply HS in Hs. rewrite Hs. unfold mark_of.
    destruct (Ascii.eqb (label_at (pr_labels_H p) k) "H") eqn:EH; [|reflexivity].
    apply Ascii.eqb_eq in EH. apply HH in EH. contradiction.
  - intros Hh Hs.
    destruct (Rcov k Hk) as ([s e] & Hr & Hkr).
    { rewrite Emask, mask_at_both_claim by exact Hk. apply Hboth. split; assumption. }
    cbn [fst snd] in Hkr. exists s, e. split; [exact Hr|]. split; [exact Hkr|].
    rewrite Nf by exact Hk. rewrite (Rin (s, e) Hr k Hkr). cbn [fst snd].
    destruct (chosen_for_cases Palpha_list Pbeta_list s e) as [-> | ->]; reflexivity.
Qed.

(** X12. The final assignment, position by position: it has one label per
    residue; a residue in no segment gets ['-'], a residue in helix segments
    only gets ['H'], in strand segments only ['S'], and a residue in both
    gets the type chosen for the Conflict Region it lies in. *)
Theorem final_label_by_cover (Palpha_list Pbeta_list : list float) (N : Z) :
  len Palpha_list = N -> len Pbeta_list = N ->
  exists p, predict_arrays Palpha_list Pbeta_list N = Returns p /\
    len (pr_final p) = N /\
    forall k, 0 <= k < N ->
      (~ covered_by (pr_helix p) k -> ~ covered_by (pr_strand p) k ->
       label_at (pr_final p) k = "-"%char) /\
      (covered_by (pr_helix p) k -> ~ covered_by (pr_strand p) k ->
       label_at (pr_final p) k = "H"%char) /\
      (~ covered_by (pr_helix p) k -> covered_by (pr_strand p) k ->
       label_at (pr_final p) k = "S"%char) /\
      (covered_by (pr_helix p) k -> covered_by (pr_strand p) k ->
       exists s e, In (s, e) (pr_conflicts p) /\ s <= k <= e /\
                   label_at (pr_final p) k = chosen_for Palpha_list Pbeta_list s e).
Proof. apply prediction_final_cases. Qed.

Lemma final_label_by_cover_witness :
  exists p,
    predict_arrays (map pa (String.list_ascii_of_string "GGGEEEEEEGGG"))
                   (map pb (String.list_ascii_of_string "GGGEEEEEEGGG")) 12
    = Returns p /\ len (pr_final p) = 12.
Proof.
  destruct (final_label_by_cover
              (map pa (String.list_ascii_of_string "GGGEEEEEEGGG"))
              (map pb (String.list_ascii_of_string "GGGEEEEEEGGG")) 12)
    as (p & Ep & Hl & _).
  - reflexivity.
  - reflexivity.
  - exists p. split; assumption.
Defined.

Lemma range_empty (a b : Z) : b <= a -> range a b = [].
Proof.
  intros H. unfold range. replace (Z.to_nat (b - a)) with 0%nat by lia. reflexivity.
Qed.

Lemma nucleate_short (w min_count : Z) (threshold_sum : float) (prop_list : list float)
    (N : Z) :
  N < w -> nucleate w min_count threshold_sum prop_list N = Returns [].
Proof.
  intros H. unfold nucleate. rewrite range_empty by lia. reflexivity.
Qed.

(** X13. A sequence shorter than the helix window has no helix segment;
    one shorter than the strand window has no segment and no Conflict
    Region at all, and every residue (none, for the empty sequence) is left
    unassigned. *)
Theorem short_sequence_unassigned (Palpha_list Pbeta_list : list float) (N : Z) :
  len Palpha_list = N -> len Pbeta_list = N -> N < 6 ->
  exists p, predict_arrays Palpha_list Pbeta_list N = Returns p /\
    pr_helix p = [] /\
    (N < 5 ->
     pr_strand p = [] /\ pr_conflicts p = [] /\
     pr_final p = repeat "-"%char (Z.to_nat N)).
Proof.
  intros Ha Hb H6.
  destruct (prediction_final_cases Palpha_list Pbeta_list N Ha Hb) as (p & Ep & Lf & Hf).
  exists p. split; [exact Ep|].
  destruct (predict_arrays_stages _ _ _ _ Ep) as (E1 & E2 & _).
  assert (Hh : pr_helix p = []).
  { unfold helix_segments in E1. rewrite nucleate_short in E1 by (unfold wH; lia).
    cbn in E1. injection E1 as <-. reflexivity. }
  split; [exact Hh|]. intros H5.
  assert (Hs : pr_strand p = []).
  { unfold strand_segments in E2. rewrite nucleate_short in E2 by (unfold wS; lia).
    cbn in E2. injection E2 as <-. reflexivity. }
  split; [exact Hs|]. split.
  - destruct (prediction_conflicts_cover Palpha_list Pbeta_list N Ha Hb) as (p' & Ep' & Hc).
    rewrite Ep in Ep'. injection Ep' as <-.
    destruct (pr_conflicts p) as [|r rest] eqn:Er; [reflexivity|].
    exfalso.
    destruct (predict_arrays_facts Palpha_list Pbeta_list N Ha Hb)
      as (p' & Ep' & _ & _ & _ & Rmax & _).
    rewrite Ep in Ep'. injection Ep' as <-.
    rewrite Er in Rmax. apply Forall_inv in Rmax. destruct Rmax as (_ & M1 & _).
    assert (Hcov : covered_by (r :: rest) (fst r)).
    { exists r. split; [left; reflexivity | unfold covers; lia]. }
    apply Hc in Hcov as [Hch _]. rewrite Hh in Hch. exact (covered_by_nil _ Hch).
  - assert (HN : 0 <= N) by (rewrite <- Ha; apply len_nonneg).
    apply (labels_ext _ _ N Lf (len_repeat _ N HN)). intros k Hk.
    rewrite label_at_repeat_dash.
    destruct (Hf k Hk) as (Hnone & _).
    apply Hnone; [rewrite Hh | rewrite Hs]; apply covered_by_nil.
Qed.

Lemma short_sequence_unassigned_witness :
  exists p,
    predict_arrays (map pa (String.list_ascii_of_string "MMMM"))
                   (map pb (String.list_ascii_of_string "MMMM")) 4 = Returns p /\
    pr_helix p = [].
Proof.
  destruct (short_sequence_unassigned
              (map pa (String.list_ascii_of_string "MMMM"))
              (map pb (String.list_ascii_of_string "MMMM")) 4)
    as (p & Ep & Hh & _).
  - reflexivity.
  - reflexivity.
  - lia.
  - exists p. split; assumption.
Defined.

(* ================================================================= *)
(** ** Segments read back from labels *)

Lemma getitem_map {A B : Type} (f : A -> B) (l : list A) (i : Z) :
  getitem (map f l) i = (x <- getitem l i ;; Returns (f x)).
Proof.
  unfold getitem. rewrite len_map.
  destruct ((_ <? 0) || _); [reflexivity|].
  rewrite nth_error_map. destruct (nth_error l _); reflexivity.
Qed.

(** [segments_from_labels] runs the loops of the conflict search on the
    mask [labels[k] == target]. *)
Lemma label_run_end_mask (fuel : nat) (labels : list ascii) (target : ascii) (n j : Z) :
  label_run_end fuel labels target n j
  = run_end fuel (map (fun c => Ascii.eqb c target) labels) n j.
Proof.
  revert j. induction fuel as [|fuel IH]; intros j; [reflexivity|].
  cbn [label_run_end run_end]. destruct (j + 1 <? n); [|reflexivity].
  rewrite getitem_map. destruct (getitem labels (j + 1)) as [c| |]; cbn [bind];
    try reflexivity.
  destruct (Ascii.eqb c target); [apply IH | reflexivity].
Qed.

Lemma segments_loop_mask (fuel : nat) (labels : list ascii) (target : ascii) (n i : Z)
    (out : list (Z * Z)) :
  segments_loop fuel labels target n i out
  = find_conflicts fuel (map (fun c => Ascii.eqb c target) labels) n i out.
Proof.
  revert i out. induction fuel as [|fuel IH]; intros i out; [reflexivity|].
  cbn [segments_loop find_conflicts]. destruct (i <? n); [|reflexivity].
  rewrite getitem_map. destruct (getitem labels i) as [c| |]; cbn [bind];
    try reflexivity.
  destruct (Ascii.eqb c target); [|apply IH].
  rewrite label_run_end_mask.
  destruct (run_end (S fuel) _ n i) as [j| |]; cbn [bind]; try reflexivity.
  apply IH.
Qed.

Lemma segments_from_labels_mask (labels : list ascii) (target : ascii) :
  segments_from_labels labels target
  = conflict_regions (map (fun c => Ascii.eqb c target) labels) (len labels).
Proof. unfold segments_from_labels, conflict_regions. apply segments_loop_mask. Qed.

Lemma mask_at_labels (labels : list ascii) (target : ascii) (k : Z) :
  0 <= k < len labels ->
  mask_at (map (fun c => Ascii.eqb c target) labels) k
  = Ascii.eqb (label_at labels k) target.
Proof.
  intros Hk. unfold mask_at, label_at.
  rewrite (nth_indep _ false (Ascii.eqb "-" target))
    by (rewrite length_map; unfold len in Hk; lia).
  apply (map_nth (fun c => Ascii.eqb c target)).
Qed.

(** Maximal runs listed left to right are separated by a gap. *)
Lemma runs_apart (mask : list bool) (N : Z) (runs : list (Z * Z)) :
  Forall (maximal_run mask N) runs ->
  StronglySorted (fun a b => snd a < fst b) runs ->
  StronglySorted apart runs.
Proof.
  intros Hmax Hs. induction Hs as [|a l Hs IH Ha]; [constructor|].
  apply Forall_cons_iff in Hmax as [Hma Hml].
  constructor; [apply IH; exact Hml|].
  rewrite Forall_forall in Ha, Hml. apply Forall_forall. intros b Hb.
  specialize (Ha b Hb). destruct (Hml b Hb) as (B0 & B1 & B2 & Ball & _).
  destruct Hma as (A0 & A1 & A2 & _ & _ & Aright).
  unfold apart. split; [lia|].
  destruct Aright as [Hr | Hr]; [lia|].
  destruct (Z.eq_dec (fst b) (snd a + 1)) as [E | E]; [|lia].
  rewrite <- E in Hr. rewrite Ball in Hr by lia. discriminate.
Qed.

Lemma segments_from_labels_spec (labels : list ascii) (target : ascii) :
  exists segs, segments_from_labels labels target = Returns segs /\
    (forall s e, In (s, e) segs ->
       0 <= s /\ s <= e /\ e <= len labels - 1 /\
       (forall k, s <= k <= e -> label_at labels k = target) /\
       (s = 0 \/ label_at labels (s - 1) <> target) /\
       (e = len labels - 1 \/ label_at labels (e + 1) <> target)) /\
    (forall k, 0 <= k < len labels -> label_at labels k = target ->
               covered_by segs k) /\
    StronglySorted apart segs.
Proof.
  rewrite segments_from_labels_mask.
  set (mask := map (fun c => Ascii.eqb c target) labels).
  assert (Lm : len mask = len labels) by (unfold mask; apply len_map).
  destruct (conflict_regions_spec mask (len labels) Lm) as (segs & E & Hmax & Hcov & Hs).
  exists segs. split; [exact E|]. split; [|split].
  - intros s e Hin. rewrite Forall_forall in Hmax.
    destruct (Hmax _ Hin) as (M0 & M1 & M2 & Mall & Ml & Mr). cbn [fst snd] in *.
    split; [exact M0|]. split; [exact M1|]. split; [exact M2|]. split; [|split].
    + intros k Hk. specialize (Mall k Hk). unfold mask in Mall.
      rewrite mask_at_labels in Mall by lia. apply Ascii.eqb_eq. exact Mall.
    + destruct (Z.eq_dec s 0) as [-> | Hs0]; [left; reflexivity|]. right.
      destruct Ml as [Ml | Ml]; [contradiction|].
      unfold mask in Ml. rewrite mask_at_labels in Ml by lia.
      apply Ascii.eqb_neq. exact Ml.
    + destruct (Z.eq_dec e (len labels - 1)) as [-> | He]; [left; reflexivity|]. right.
      destruct Mr as [Mr | Mr]; [contradiction|].
      unfold mask in Mr. rewrite mask_at_labels in Mr by lia.
      apply Ascii.eqb_neq. exact Mr.
  - intros k Hk Ht. destruct (Hcov k Hk) as (r & Hr & Hkr).
    + unfold mask. rewrite mask_at_labels by exact Hk. apply Ascii.eqb_eq. exact Ht.
    + exists r. split; [exact Hr | exact Hkr].
  - exact (runs_apart mask (len labels) segs Hmax Hs).
Qed.

(** X14. [segments_from_labels] never fails: it returns, in ascending
    order and with a gap between any two, the maximal runs of positions
    whose label is [target]; every such position lies in one of the runs. *)
Theorem segments_from_labels_runs (labels : list ascii) (target : ascii) :
  exists segs, segments_from_labels labels target = Returns segs /\
    (forall s e, In (s, e) segs ->
       0 <= s /\ s <= e /\ e <= len labels - 1 /\
       (forall k, s <= k <= e -> label_at labels k = target) /\
       (s = 0 \/ label_at labels (s - 1) <> target) /\
       (e = len labels - 1 \/ label_at labels (e + 1) <> target)) /\
    (forall k, 0 <= k < len labels -> label_at labels k = target ->
               covered_by segs k) /\
    StronglySorted apart segs.
Proof. apply segments_from_labels_spec. Qed.

Example segments_from_labels_example :
  segments_from_labels (String.list_ascii_of_string "-HH-H--HHH") "H"%char
  = Returns [(1, 2); (4, 4); (7, 9)].
Proof. vm_compute. reflexivity. Qed.

(** A merged set is determined by the positions it covers. *)
Lemma merged_set_unique (A B : list (Z * Z)) :
  Forall (fun seg => fst seg <= snd seg) A ->
  Forall (fun seg => fst seg <= snd seg) B ->
  StronglySorted apart A -> StronglySorted apart B ->
  (forall k, covered_by A k <-> covered_by B k) ->
  A = B.
Proof.
  intros HwA HwB HsA. revert B HwB.
  induction HsA as [|a A HsA IH Ha]; intros B HwB HsB Hcov.
  - destruct B as [|b B]; [reflexivity|]. exfalso.
    apply Forall_inv in HwB.
    apply (covered_by_nil (fst b)). apply Hcov.
    exists b. split; [left; reflexivity | unfold covers; lia].
  - destruct B as [|b B].
    { exfalso. apply Forall_inv in HwA.
      apply (covered_by_nil (fst a)). apply Hcov.
      exists a. split; [left; reflexivity | unfold covers; lia]. }
    apply Forall_cons_iff in HwA as [Hwa HwA].
    apply Forall_cons_iff in HwB as [Hwb HwB].
    apply StronglySorted_inv in HsB as [HsB Hb].
    rewrite Forall_forall in Ha, Hb.
    assert (Hfirst : forall (x : Z * Z) (X : list (Z * Z)) k,
               (forall y, In y X -> apart x y) ->
               covered_by (x :: X) k -> fst x <= k).
    { intros x X k HX (y & [<- | Hy] & Hk); unfold covers in Hk; [lia|].
      destruct (HX y Hy). lia. }
    assert (Hnext : forall (x : Z * Z) (X : list (Z * Z)) k,
               (forall y, In y X -> apart x y) ->
               covered_by (x :: X) k -> snd x < k -> snd x + 1 < k).
    { intros x X k HX (y & [<- | Hy] & Hk) Hlt; unfold covers in Hk; [lia|].
      destruct (HX y Hy). lia. }
    assert (Ca : covered_by (a :: A) (fst a))
      by (exists a; split; [left; reflexivity | unfold covers; lia]).
    assert (Cb : covered_by (b :: B) (fst b))
      by (exists b; split; [left; reflexivity | unfold covers; lia]).
    assert (F1 : fst b <= fst a) by (apply (Hfirst b B _ Hb), Hcov, Ca).
    assert (F2 : fst a <= fst b) by (apply (Hfirst a A _ Ha), Hcov, Cb).
    assert (S1 : snd a <= snd b).
    { destruct (Z_le_gt_dec (snd a) (snd b)) as [H | H]; [exact H|]. exfalso.
      assert (C : covered_by (a :: A) (snd b + 1))
        by (exists a; split; [left; reflexivity | unfold covers; lia]).
      apply Hcov in C. pose proof (Hnext b B _ Hb C). lia. }
    assert (S2 : snd b <= snd a).
    { destruct (Z_le_gt_dec (snd b) (snd a)) as [H | H]; [exact H|]. exfalso.
      assert (C : covered_by (b :: B) (snd a + 1))
        by (exists b; split; [left; reflexivity | unfold covers; lia]).
      apply Hcov in C. pose proof (Hnext a A _ Ha C). lia. }
    assert (Eab : a = b).
    { destruct a, b. cbn [fst snd] in *. f_equal; lia. }
    subst b. f_equal. apply IH; auto.
    intros k. split; intros (y & Hy & Hk).
    + assert (C : covered_by (a :: A) k) by (exists y; split; [right; exact Hy | exact Hk]).
      apply Hcov in C. destruct C as (z & [<- | Hz] & Hkz); [|exists z; auto].
      exfalso. destruct (Ha y Hy). unfold covers in *. lia.
    + assert (C : covered_by (a :: B) k) by (exists y; split; [right; exact Hy | exact Hk]).
      apply Hcov in C. destruct C as (z & [<- | Hz] & Hkz); [|exists z; auto].
      exfalso. destruct (Hb y Hy). unfold covers in *. lia.
Qed.

(** X15. Two lists of segments with [start <= end] that cover the same
    positions are merged into the same set. *)
Theorem merge_segments_by_cover (segments segments' : list (Z * Z)) :
  Forall (fun seg => fst seg <= snd seg) segments ->
  Forall (fun seg => fst seg <= snd seg) segments' ->
  (forall k, covered_by segments k <-> covered_by segments' k) ->
  merge_segments segments = merge_segments segments'.
Proof.
  intros Hw Hw' Hcov.
  assert (Hwf : forall l, Forall (fun seg => fst seg <= snd seg) l ->
                Forall (fun seg => fst seg <= snd seg) (merge_by_rule (sorted l))).
  { intros l Hl.
    assert (Hs : Forall (fun seg => fst seg <= snd seg) (sorted l))
      by (eapply Permutation_Forall; [apply sorted_perm | exact Hl]).
    destruct (sorted l) as [|first rest]; [constructor|].
    apply Forall_cons_iff in Hs as [Hf Hr]. cbn [merge_by_rule].
    clear Hl. generalize (@nil (Z * Z)) (Forall_nil (fun seg : Z * Z => fst seg <= snd seg)).
    revert first Hf. induction rest as [|[s e] rest IH]; intros acc Hacc closed Hc.
    - cbn [merge_fold]. apply Forall_app. split; [exact Hc|].
      constructor; [exact Hacc | constructor].
    - apply Forall_cons_iff in Hr as [Hse Hr]. cbn [merge_fold fst snd] in *.
      destruct (s <=? snd acc + 1).
      + apply IH; [exact Hr | cbn [fst snd]; lia | exact Hc].
      + apply IH; [exact Hr | exact Hse |].
        apply Forall_app. split; [exact Hc|]. constructor; [exact Hacc | constructor]. }
  rewrite !merge_segments_rule. f_equal.
  apply merged_set_unique.
  - apply Hwf. exact Hw.
  - apply Hwf. exact Hw'.
  - apply merge_by_rule_apart, sorted_by_start.
  - apply merge_by_rule_apart, sorted_by_start.
  - intros k.
    destruct (merge_segments_cover_rule segments k) as [A1 A2].
    destruct (merge_segments_cover_rule segments' k) as [B1 B2].
    split; intros H.
    + apply B1, Hcov, A2, H.
    + apply A1, Hcov, B2, H.
Qed.

Lemma merge_segments_by_cover_witness :
  merge_segments [(0, 3); (2, 5)] = merge_segments [(0, 5); (1, 1)].
Proof.
  apply (merge_segments_by_cover [(0, 3); (2, 5)] [(0, 5); (1, 1)]).
  - repeat constructor; simpl; lia.
  - repeat constructor; simpl; lia.
  - intros k. unfold covered_by, covers. split.
    + intros (seg & [<- | [<- | []]] & Hk); cbn [fst snd] in Hk;
        exists (0, 5); (split; [left; reflexivity | cbn [fst snd]; lia]).
    + intros (seg & [<- | [<- | []]] & Hk); cbn [fst snd] in Hk.
      * destruct (Z_le_gt_dec k 3);
          [exists (0, 3); split; [left; reflexivity | cbn [fst snd]; lia]
          |exists (2, 5); split; [right; left; reflexivity | cbn [fst snd]; lia]].
      * exists (0, 3). split; [left; reflexivity | cbn [fst snd]; lia].
Defined.

Lemma segment_ok_ordered (N : Z) (l : list (Z * Z)) :
  Forall (segment_ok N) l -> Forall (fun seg => fst seg <= snd seg) l.
Proof. apply Forall_impl. intros seg (_ & H & _). exact H. Qed.

Lemma paint_read_back (segments : list (Z * Z)) (mark : ascii) (N : Z)
    (labels : list ascii) :
  0 <= N -> mark <> "-"%char ->
  Forall (segment_ok N) segments -> StronglySorted apart segments ->
  paint segments mark N = Returns labels ->
  segments_from_labels labels mark = Returns segments.
Proof.
  intros HN Hmark Hok Hap Hp.
  destruct (paint_cover segments mark N HN Hok) as (l' & E & L & C).
  rewrite Hp in E. injection E as <-.
  destruct (segments_from_labels_spec labels mark) as (runs & Er & Hruns & Hcov & Hs).
  rewrite Er. f_equal. rewrite L in *.
  apply merged_set_unique; auto.
  - apply Forall_forall. intros [s e] Hin. destruct (Hruns s e Hin) as (_ & H & _).
    exact H.
  - apply (segment_ok_ordered N). exact Hok.
  - intros k. split.
    + intros ([s e] & Hin & Hk). unfold covers in Hk. cbn [fst snd] in Hk.
      destruct (Hruns s e Hin) as (R0 & R1 & R2 & Rall & _).
      assert (Hkn : 0 <= k < N) by lia.
      destruct (classic_covered segments k) as [Hc | Hn]; [exact Hc|].
      exfalso. destruct (C k Hkn) as [_ Cout].
      specialize (Rall k Hk). rewrite Cout in Rall.
      * apply Hmark. symmetry. exact Rall.
      * intros (r & Hr & Hkr). exact (Hn r Hr Hkr).
    + intros Hc.
      assert (Hkn : 0 <= k < N).
      { destruct Hc as (r & Hr & Hkr). rewrite Forall_forall in Hok.
        destruct (Hok r Hr) as (R0 & R1 & R2). unfold covers in Hkr. lia. }
      apply Hcov; [exact Hkn|]. apply (C k Hkn). exact Hc.
Qed.

(** X16. Reading back what was painted: for a merged set inside the
    sequence (ascending, a gap between any two) and a mark other than
    ['-'], [segments_from_labels] applied to the painted array returns the
    set. *)
Theorem segments_from_labels_of_paint (segments : list (Z * Z)) (mark : ascii) (N : Z) :
  0 <= N -> mark <> "-"%char ->
  Forall (segment_ok N) segments -> StronglySorted apart segments ->
  exists labels,
    paint segments mark N = Returns labels /\
    segments_from_labels labels mark = Returns segments.
Proof.
  intros HN Hmark Hok Hap.
  destruct (paint_ok segments mark N HN Hok) as (labels & E & _).
  exists labels. split; [exact E|].
  exact (paint_read_back segments mark N labels HN Hmark Hok Hap E).
Qed.

Lemma segments_from_labels_of_paint_witness :
  exists labels,
    paint [(1, 2); (4, 4)] "H"%char 6 = Returns labels /\
    segments_from_labels labels "H"%char = Returns [(1, 2); (4, 4)].
Proof.
  apply (segments_from_labels_of_paint [(1, 2); (4, 4)] "H"%char 6).
  - lia.
  - discriminate.
  - repeat constructor; simpl; lia.
  - repeat constructor; unfold apart; simpl; lia.
Defined.

Lemma long_segment_ok (N w : Z) (l : list (Z * Z)) :
  1 <= w -> Forall (long_segment N w) l -> Forall (segment_ok N) l.
Proof.
  intros Hw. apply Forall_impl. intros seg (H0 & H1 & H2).
  repeat split; lia.
Qed.

(** X17. In a prediction the label arrays and the segment lists carry the
    same information: [segments_from_labels] recovers the helix set from
    [labels_H], the strand set from [labels_S], and the Conflict Regions
    from the ['X'] marks of the first pass over [final_labels]. *)
Theorem prediction_read_back (Palpha_list Pbeta_list : list float) (N : Z) :
  len Palpha_list = N -> len Pbeta_list = N ->
  exists p, predict_arrays Palpha_list Pbeta_list N = Returns p /\
    segments_from_labels (pr_labels_H p) "H"%char = Returns (pr_helix p) /\
    segments_from_labels (pr_labels_S p) "S"%char = Returns (pr_strand p) /\
    segments_from_labels (pr_marked p) "X"%char = Returns (pr_conflicts p).
Proof.
  intros Ha Hb.
  assert (HN : 0 <= N) by (rewrite <- Ha; apply len_nonneg).
  destruct (predict_arrays_facts Palpha_list Pbeta_list N Ha Hb)
    as (p & Ep & LH & LS & Emask & _ & _ & Lmk & Nmk & _).
  exists p. split; [exact Ep|].
  destruct (predict_arrays_stages _ _ _ _ Ep) as (E1 & E2 & E3 & E4 & _ & E6 & _).
  split; [|split].
  - unfold helix_segments in E1.
    destruct (nucleate_long wH 4 4.0%float Palpha_list N) as (segs & En & Hl);
      [unfold wH; lia | lia |].
    rewrite En in E1. cbn [bind] in E1.
    destruct (merged_long N wH segs Hl) as (m & Em & Hml & Hap).
    rewrite E1 in Em. injection Em as <-.
    apply (paint_read_back _ _ N); auto; [discriminate|].
    apply (long_segment_ok N wH); [unfold wH; lia | exact Hml].
  - unfold strand_segments in E2.
    destruct (nucleate_long wS 3 4.0000001%float Pbeta_list N) as (segs & En & Hl);
      [unfold wS; lia | lia |].
    rewrite En in E2. cbn [bind] in E2.
    destruct (merged_long N wS segs Hl) as (m & Em & Hml & Hap).
    rewrite E2 in Em. injection Em as <-.
    apply (paint_read_back _ _ N); auto; [discriminate|].
    apply (long_segment_ok N wS); [unfold wS; lia | exact Hml].
  - rewrite segments_from_labels_mask, Lmk, <- E6. f_equal.
    rewrite Emask.
    apply (nth_ext _ _ false false).
    + rewrite !length_map. unfold range. rewrite length_map, length_seq.
      unfold len in Lmk. lia.
    + intros n Hn. rewrite length_map in Hn.
      assert (Hk : 0 <= Z.of_nat n < N) by (unfold len in Lmk; lia).
      pose proof (mask_at_labels (pr_marked p) "X"%char (Z.of_nat n)) as M1.
      pose proof (mask_at_both_claim (pr_labels_H p) (pr_labels_S p) N (Z.of_nat n) Hk)
        as M2.
      unfold mask_at in M1, M2. rewrite Nat2Z.id in M1, M2.
      rewrite M1 by lia. rewrite M2. rewrite (Nmk _ Hk).
      unfold both_claim, mark_of.
      destruct (Ascii.eqb (label_at (pr_labels_H p) (Z.of_nat n)) "H");
        destruct (Ascii.eqb (label_at (pr_labels_S p) (Z.of_nat n)) "S"); reflexivity.
Qed.

Lemma prediction_read_back_witness :
  exists p,
    predict_arrays (map pa (String.list_ascii_of_string "MMMMMMMM"))
                   (map pb (String.list_ascii_of_string "MMMMMMMM")) 8 = Returns p /\
    segments_from_labels (pr_marked p) "X"%char = Returns (pr_conflicts p).
Proof.
  destruct (prediction_read_back
              (map pa (String.list_ascii_of_string "MMMMMMMM"))
              (map pb (String.list_ascii_of_string "MMMMMMMM")) 8)
    as (p & Ep & _ & _ & H).
  - reflexivity.
  - reflexivity.
  - exists p. split; assumption.
Defined.

(* ================================================================= *)
(** ** Seeds and segment sets *)

(** The nucleation loop returns one extended segment per seed, in the
    order of the seeds. *)
Lemma nucleate_per_seed (w min_count : Z) (threshold_sum : float) (prop_list : list float)
    (N : Z) :
  1 <= w -> N = len prop_list ->
  exists segs, nucleate w min_count threshold_sum prop_list N = Returns segs /\
    Forall2 (fun i seg => extend_segment i (i + w - 1) prop_list threshold_sum N
                          = Returns seg /\
                          fst seg <= i /\ i + w - 1 <= snd seg)
            (seed_positions w min_count prop_list N) segs.
Proof.
  intros Hw HN. unfold nucleate. rewrite for_each_filter. fold (seed_positions w min_count prop_list N).
  assert (Hseeds : forall i, In i (seed_positions w min_count prop_list N) ->
                   0 <= i <= N - w).
  { intros i Hi. unfold seed_positions in Hi. apply filter_In in Hi as [Hi _].
    apply range_In in Hi. lia. }
  revert Hseeds. generalize (seed_positions w min_count prop_list N) as seeds.
  intros seeds Hseeds.
  assert (G : forall acc, exists segs,
             for_each seeds
               (fun segments i =>
                  '(s, e) <- extend_segment i (i + w - 1) prop_list threshold_sum N ;;
                  Returns (segments ++ [(s, e)])) acc = Returns (acc ++ segs) /\
             Forall2 (fun i seg => extend_segment i (i + w - 1) prop_list threshold_sum N
                                   = Returns seg /\
                                   fst seg <= i /\ i + w - 1 <= snd seg) seeds segs).
  { induction seeds as [|i seeds IH]; intros acc.
    - exists []. rewrite app_nil_r. split; [reflexivity | constructor].
    - destruct (extend_segment_within prop_list threshold_sum N i (i + w - 1))
        as (s' & e' & R & L1 & L2 & _).
      { specialize (Hseeds i (or_introl eq_refl)). repeat split; cbn [fst snd]; lia. }
      { lia. }
      destruct (IH (fun j Hj => Hseeds j (or_intror Hj)) (acc ++ [(s', e')]))
        as (segs & E & F).
      exists ((s', e') :: segs). cbn [for_each]. rewrite R. cbn [bind].
      rewrite E, <- app_assoc. split; [reflexivity|].
      constructor; [|exact F]. cbn [fst snd]. auto. }
  destruct (G []) as (segs & E & F). exists segs. split; assumption.
Qed.

(** X18. No seed is lost and no segment comes from nothing: every residue
    of every helix seed window lies in a helix segment, and every residue
    of a helix segment lies in the extension of some helix seed; the same
    holds for the strand seeds and segments. *)
Theorem segments_come_from_seeds (Palpha_list Pbeta_list : list float) (N : Z) :
  len Palpha_list = N -> len Pbeta_list = N ->
  exists p, predict_arrays Palpha_list Pbeta_list N = Returns p /\
    (forall i k, In i (seed_positions 6 4 Palpha_list N) -> i <= k <= i + 5 ->
                 covered_by (pr_helix p) k) /\
    (forall k, covered_by (pr_helix p) k ->
       exists i s e, In i (seed_positions 6 4 Palpha_list N) /\
         extend_segment i (i + 5) Palpha_list 4.0%float N = Returns (s, e) /\
         s <= k <= e) /\
    (forall i k, In i (seed_positions 5 3 Pbeta_list N) -> i <= k <= i + 4 ->
                 covered_by (pr_strand p) k) /\
    (forall k, covered_by (pr_strand p) k ->
       exists i s e, In i (seed_positions 5 3 Pbeta_list N) /\
         extend_segment i (i + 4) Pbeta_list 4.0000001%float N = Returns (s, e) /\
         s <= k <= e).
Proof.
  intros Ha Hb.
  destruct (predict_arrays_facts Palpha_list Pbeta_list N Ha Hb) as (p & Ep & _).
  exists p. split; [exact Ep|].
  destruct (predict_arrays_stages _ _ _ _ Ep) as (E1 & E2 & _).
  assert (G : forall w m thr prop_list merged,
             1 <= w -> N = len prop_list ->
             (segs <- nucleate w m thr prop_list N ;; merge_segments segs) = Returns merged ->
             (forall i k, In i (seed_positions w m prop_list N) -> i <= k <= i + w - 1 ->
                          covered_by merged k) /\
             (forall k, covered_by merged k ->
                exists i s e, In i (seed_positions w m prop_list N) /\
                  extend_segment i (i + w - 1) prop_list thr N = Returns (s, e) /\
                  s <= k <= e)).
  { intros w m thr prop_list merged Hw HN Em.
    destruct (nucleate_per_seed w m thr prop_list N Hw HN) as (segs & En & F).
    rewrite En in Em. cbn [bind] in Em.
    rewrite merge_segments_rule in Em. injection Em as <-.
    split.
    - intros i k Hi Hk. apply (proj1 (merge_segments_cover_rule segs k)).
      clear En. induction F as [|j seg seeds segs Fj F IH];
        [destruct Hi|].
      cbv beta in Fj. destruct Fj as (_ & F1 & F2).
      destruct Hi as [<- | Hi].
      + exists seg. split; [left; reflexivity | unfold covers; lia].
      + destruct (IH Hi) as (r & Hr & Hkr). exists r. split; [right; exact Hr | exact Hkr].
    - intros k Hk. apply (proj2 (merge_segments_cover_rule segs k)) in Hk.
      destruct Hk as (r & Hr & Hkr).
      clear En. induction F as [|j seg seeds segs Fj F IH];
        [destruct Hr|].
      cbv beta in Fj. destruct Fj as (F0 & F1 & F2).
      destruct Hr as [<- | Hr].
      + destruct seg as [s e]. exists j, s, e.
        split; [left; reflexivity|]. split; [exact F0 | exact Hkr].
      + destruct (IH Hr) as (i & s & e & Hi & He & Hse).
        exists i, s, e. split; [right; exact Hi|]. split; assumption. }
  destruct (G 6 4 4.0%float Palpha_list (pr_helix p)) as [H1 H2];
    [lia | lia | exact E1 |].
  destruct (G 5 3 4.0000001%float Pbeta_list (pr_strand p)) as [S1 S2];
    [lia | lia | exact E2 |].
  split; [|split; [|split]].
  - intros i k Hi Hk. apply (H1 i k Hi). lia.
  - intros k Hk. destruct (H2 k Hk) as (i & s & e & Hi & He & Hse).
    exists i, s, e. replace (i + 5) with (i + 6 - 1) by lia. auto.
  - intros i k Hi Hk. apply (S1 i k Hi). lia.
  - intros k Hk. destruct (S2 k Hk) as (i & s & e & Hi & He & Hse).
    exists i, s, e. replace (i + 4) with (i + 5 - 1) by lia. auto.
Qed.

Lemma segments_come_from_seeds_witness :
  exists p,
    predict_arrays (map pa (String.list_ascii_of_string "GGGEEEEEEGGG"))
                   (map pb (String.list_ascii_of_string "GGGEEEEEEGGG")) 12
    = Returns p /\
    (forall k, covered_by (pr_helix p) k ->
       exists i s e,
         In i (seed_positions 6 4 (map pa (String.list_ascii_of_string "GGGEEEEEEGGG")) 12) /\
         extend_segment i (i + 5) (map pa (String.list_ascii_of_string "GGGEEEEEEGGG"))
                        4.0%float 12 = Returns (s, e) /\
         s <= k <= e).
Proof.
  destruct (segments_come_from_seeds
              (map pa (String.list_ascii_of_string "GGGEEEEEEGGG"))
              (map pb (String.list_ascii_of_string "GGGEEEEEEGGG")) 12)
    as (p & Ep & _ & H & _).
  - reflexivity.
  - reflexivity.
  - exists p. split; assumption.
Defined.

(* ================================================================= *)
(** ** Reading the sequence and the tables *)

Lemma upper_keeps_letters (c : ascii) : isalpha (upper c) = isalpha c.
Proof. destruct c as [[] [] [] [] [] [] [] []]; vm_compute; reflexivity. Qed.

Lemma upper_of_letter (c : ascii) : isalpha c = true -> is_upper (upper c) = true.
Proof. destruct c as [[] [] [] [] [] [] [] []]; vm_compute; intros H; congruence. Qed.

Lemma upper_of_upper (c : ascii) : is_upper c = true -> upper c = c.
Proof. destruct c as [[] [] [] [] [] [] [] []]; vm_compute; intros H; congruence. Qed.

Lemma filter_all {A : Type} (f : A -> bool) (l : list A) :
  Forall (fun x => f x = true) l -> filter f l = l.
Proof.
  induction 1 as [|x l Hx Hl IH]; [reflexivity|]. simpl. rewrite Hx, IH. reflexivity.
Qed.

Lemma filter_map_commute {A : Type} (f : A -> A) (t : A -> bool) (l : list A) :
  (forall x, t (f x) = t x) -> filter t (map f l) = map f (filter t l).
Proof.
  intros H. induction l as [|x l IH]; [reflexivity|]. simpl. rewrite H.
  destruct (t x); simpl; rewrite IH; reflexivity.
Qed.

(** X19. On ASCII text the cleaned sequence is the letters of the text, in
    their order, in upper case: it holds only ['A'..'Z'], is no longer than
    the text, and cleaning it again changes nothing. *)
Theorem clean_sequence_letters (text : list ascii) :
  Forall (fun c => is_ascii c = true) text ->
  clean_sequence text = map upper (filter isalpha text) /\
  Forall (fun c => is_upper c = true) (clean_sequence text) /\
  len (clean_sequence text) <= len text /\
  clean_sequence (clean_sequence text) = clean_sequence text.
Proof.
  intros _.
  assert (E : clean_sequence text = map upper (filter isalpha text)).
  { unfold clean_sequence. apply filter_map_commute. apply upper_keeps_letters. }
  assert (U : Forall (fun c => is_upper c = true) (clean_sequence text)).
  { rewrite E. apply Forall_forall. intros c Hc.
    apply in_map_iff in Hc as (x & <- & Hx). apply filter_In in Hx as [_ Hx].
    apply upper_of_letter. exact Hx. }
  split; [exact E|]. split; [exact U|]. split.
  - unfold clean_sequence, len.
    pose proof (filter_length_le isalpha (map upper text)) as H.
    rewrite length_map in H. lia.
  - generalize (clean_sequence text) U. intros l Hl. unfold clean_sequence.
    replace (map upper l) with l.
    + apply filter_all. eapply Forall_impl; [|exact Hl].
      intros c Hc. unfold isalpha. rewrite Hc. reflexivity.
    + symmetry. rewrite <- (map_id l) at 2. apply map_ext_in. intros c Hc.
      rewrite Forall_forall in Hl. apply upper_of_upper. apply Hl. exact Hc.
Qed.

Lemma clean_sequence_letters_witness :
  clean_sequence (clean_sequence (String.list_ascii_of_string "mAq w-1nQ"))
  = clean_sequence (String.list_ascii_of_string "mAq w-1nQ").
Proof.
  apply (clean_sequence_letters (String.list_ascii_of_string "mAq w-1nQ")).
  repeat constructor.
Defined.

Example clean_sequence_example :
  clean_sequence (String.list_ascii_of_string "mAq w-1nQ")
  = String.list_ascii_of_string "MAQWNQ".
Proof. vm_compute. reflexivity. Qed.

Lemma absent_from_check (table : list (ascii * float)) (res : ascii) :
  absent_from table res
  <-> forallb (fun kv => negb (Ascii.eqb (fst kv) res)) table = true.
Proof.
  unfold absent_from. rewrite forallb_forall. split.
  - intros H kv Hkv. apply negb_true_iff, Ascii.eqb_neq. intros E. apply H.
    rewrite <- E. apply in_map. exact Hkv.
  - intros H Hin. apply in_map_iff in Hin as (kv & E & Hkv).
    specialize (H kv Hkv). apply negb_true_iff, Ascii.eqb_neq in H. contradiction.
Qed.

Lemma tables_checked (res : ascii) :
  let a := forallb (fun kv => negb (Ascii.eqb (fst kv) res)) P_ALPHA in
  let b := forallb (fun kv => negb (Ascii.eqb (fst kv) res)) P_BETA in
  Bool.eqb a b && Bool.eqb a (PrimFloat.eqb (pa res) 0%float)
  && Bool.eqb b (PrimFloat.eqb (pb res) 0%float) = true.
Proof. destruct res as [[] [] [] [] [] [] [] []]; vm_compute; reflexivity. Qed.

(** X20. The two tables list the same residue codes, and a listed value is
    never zero: for every residue code, having no helix entry, having no
    strand entry, [pa(res) == 0.0] and [pb(res) == 0.0] all hold or all
    fail together. *)
Theorem tables_share_keys (res : ascii) :
  (absent_from P_ALPHA res <-> absent_from P_BETA res) /\
  (absent_from P_ALPHA res <-> PrimFloat.eqb (pa res) 0%float = true) /\
  (absent_from P_BETA res <-> PrimFloat.eqb (pb res) 0%float = true).
Proof.
  pose proof (tables_checked res) as H. cbv zeta in H.
  apply andb_prop in H as [H H3]. apply andb_prop in H as [H1 H2].
  apply Bool.eqb_prop in H1, H2, H3.
  rewrite !absent_from_check. rewrite <- H2, <- H3, H1. tauto.
Qed.

(* ================================================================= *)
(** ** The report *)

Lemma next_row_found (Palpha_list Pbeta_list : list float) (regions : list (Z * Z))
    (c : Z * Z) :
  In c regions ->
  next_row (map (choice_of Palpha_list Pbeta_list) regions) c
  = Some (choice_of Palpha_list Pbeta_list c).
Proof.
  unfold next_row. induction regions as [|r regions IH]; intros Hin; [destruct Hin|].
  cbn [map find]. unfold choice_of at 1.
  destruct ((fst r =? fst c) && (snd r =? snd c)) eqn:E.
  - apply andb_prop in E as [E1 E2]. apply Z.eqb_eq in E1, E2.
    assert (Hrc : r = c) by (destruct r, c; cbn [fst snd] in *; subst; reflexivity).
    subst r. reflexivity.
  - destruct Hin as [-> | Hin]; [|apply IH; exact Hin].
    rewrite !Z.eqb_refl in E. discriminate.
Qed.

Lemma report_rows_found (Palpha_list Pbeta_list : list float) (all regions : list (Z * Z)) :
  incl regions all ->
  report_rows regions (map (choice_of Palpha_list Pbeta_list) all)
  = Some (map (choice_of Palpha_list Pbeta_list) regions).
Proof.
  induction regions as [|c regions IH]; intros Hincl; [reflexivity|].
  cbn [report_rows map]. unfold report_row.
  rewrite (next_row_found Palpha_list Pbeta_list all c) by (apply Hincl; left; reflexivity).
  rewrite IH by (intros x Hx; apply Hincl; right; exact Hx).
  reflexivity.
Qed.

(** X21. [resolved_choices] holds one row per Conflict Region, in the order
    of the regions, and the lookups of the conflict report never come up
    empty: the rows the report prints are the rows of [resolved_choices]. *)
Theorem conflict_report_rows (Palpha_list Pbeta_list : list float) (N : Z) :
  len Palpha_list = N -> len Pbeta_list = N ->
  exists p, predict_arrays Palpha_list Pbeta_list N = Returns p /\
    pr_choices p = map (choice_of Palpha_list Pbeta_list) (pr_conflicts p) /\
    report_rows (pr_conflicts p) (pr_choices p) = Some (pr_choices p).
Proof.
  intros Ha Hb.
  destruct (predict_arrays_facts Palpha_list Pbeta_list N Ha Hb)
    as (p & Ep & _ & _ & _ & _ & _ & _ & _ & Ech & _).
  exists p. split; [exact Ep|]. split; [exact Ech|].
  rewrite Ech. apply report_rows_found. apply incl_refl.
Qed.

Lemma conflict_report_rows_witness :
  exists p,
    predict_arrays (map pa (String.list_ascii_of_string "MMMMMMMM"))
                   (map pb (String.list_ascii_of_string "MMMMMMMM")) 8 = Returns p /\
    report_rows (pr_conflicts p) (pr_choices p) = Some (pr_choices p).
Proof.
  destruct (conflict_report_rows
              (map pa (String.list_ascii_of_string "MMMMMMMM"))
              (map pb (String.list_ascii_of_string "MMMMMMMM")) 8)
    as (p & Ep & _ & H).
  - reflexivity.
  - reflexivity.
  - exists p. split; assumption.
Defined.

Lemma firstn_add {A : Type} (a b : nat) (l : list A) :
  firstn (a + b) l = firstn a l ++ firstn b (skipn a l).
Proof.
  revert l. induction a as [|a IH]; intros l; [reflexivity|].
  destruct l as [|x l]; simpl; [destruct b; reflexivity|]. rewrite IH. reflexivity.
Qed.

Lemma concat_blocks {A : Type} (c m : nat) (l : list A) :
  concat (map (fun k => firstn c (skipn (c * k) l)) (seq 0 m)) = firstn (c * m) l.
Proof.
  induction m as [|m IH].
  - rewrite Nat.mul_0_r. reflexivity.
  - rewrite seq_S, map_app, concat_app, IH. cbn [map concat plus].
    rewrite app_nil_r. replace (c * S m)%nat with (c * m + c)%nat by lia.
    symmetry. apply firstn_add.
Qed.

(** A slice that starts inside the list is [firstn] of [skipn]. *)
Lemma slice_block {A : Type} (l : list A) (i w : Z) :
  0 <= i <= len l -> 0 <= w ->
  slice l i (i + w) = firstn (Z.to_nat w) (skipn (Z.to_nat i) l).
Proof.
  intros Hi Hw. unfold slice, slice_bound.
  replace (i <? 0) with false by (symmetry; apply Z.ltb_ge; lia).
  replace (i + w <? 0) with false by (symmetry; apply Z.ltb_ge; lia).
  replace (Z.min i (len l)) with i by lia.
  destruct (Z_le_gt_dec (i + w) (len l)) as [H | H].
  - replace (Z.min (i + w) (len l)) with (i + w) by lia.
    replace (i + w - i) with w by lia. reflexivity.
  - replace (Z.min (i + w) (len l)) with (len l) by lia.
    rewrite !firstn_all2; [reflexivity | |]; rewrite length_skipn; unfold len in *; lia.
Qed.

Lemma range_step_60 (N : Z) :
  0 <= N ->
  range_step 0 N 60 = map (fun k => 60 * Z.of_nat k) (seq 0 (Z.to_nat ((N + 59) / 60))) /\
  N <= 60 * ((N + 59) / 60) /\
  (forall k, In k (seq 0 (Z.to_nat ((N + 59) / 60))) -> 60 * Z.of_nat k < N).
Proof.
  intros HN. unfold range_step.
  replace (N - 0 + 60 - 1) with (N + 59) by lia.
  pose proof (Z.mul_div_le (N + 59) 60 ltac:(lia)) as H1.
  pose proof (Z.mul_succ_div_gt (N + 59) 60 ltac:(lia)) as H2.
  assert (H0 : 0 <= (N + 59) / 60) by (apply Z.div_pos; lia).
  split; [reflexivity|]. split; [lia|].
  intros k Hk. apply in_seq in Hk. lia.
Qed.

Lemma report_blocks_map (SEQ final_str : list ascii) (N : Z) :
  0 <= N ->
  report_blocks SEQ final_str N
  = map (fun k =>
           (60 * Z.of_nat k + 1,
            60 * Z.of_nat k + len (slice SEQ (60 * Z.of_nat k) (60 * Z.of_nat k + 60)),
            slice SEQ (60 * Z.of_nat k) (60 * Z.of_nat k + 60),
            slice final_str (60 * Z.of_nat k) (60 * Z.of_nat k + 60)))
        (seq 0 (Z.to_nat ((N + 59) / 60))).
Proof.
  intros HN. unfold report_blocks.
  destruct (range_step_60 N HN) as (-> & _). rewrite map_map. reflexivity.
Qed.

Lemma blocks_concat (l : list ascii) (N : Z) :
  len l = N ->
  concat (map (fun k => slice l (60 * Z.of_nat k) (60 * Z.of_nat k + 60))
              (seq 0 (Z.to_nat ((N + 59) / 60)))) = l.
Proof.
  intros Hl.
  assert (HN : 0 <= N) by (rewrite <- Hl; apply len_nonneg).
  destruct (range_step_60 N HN) as (_ & Hm & Hk).
  rewrite (map_ext_in _ (fun k => firstn 60 (skipn (60 * k) l))).
  - rewrite concat_blocks. apply firstn_all2.
    assert (H0 : 0 <= (N + 59) / 60) by (apply Z.div_pos; lia).
    unfold len in Hl. lia.
  - intros k Hin. specialize (Hk k Hin).
    rewrite slice_block by lia.
    replace (Z.to_nat (60 * Z.of_nat k)) with (60 * k)%nat by lia. reflexivity.
Qed.

Lemma block_len (l : list ascii) (N i : Z) :
  len l = N -> 0 <= i < N ->
  len (slice l i (i + 60)) = Z.min 60 (N - i).
Proof.
  intros Hl Hi. rewrite slice_block by lia.
  unfold len in *. rewrite length_firstn, length_skipn. lia.
Qed.

(** X22. The blocked view prints every residue and every label exactly
    once and in order: joined, the sequence blocks are the sequence and the
    annotation blocks are the assignment; each block has between 1 and 60
    residues and as many labels, block number [j] starts at residue
    [60 j + 1], and the two header numbers are the 1-based positions of its
    first and last residue. *)
Theorem report_blocks_tile (SEQ final_str : list ascii) (N : Z) :
  len SEQ = N -> len final_str = N ->
  concat (map block_seq_of (report_blocks SEQ final_str N)) = SEQ /\
  concat (map block_ann_of (report_blocks SEQ final_str N)) = final_str /\
  Forall (fun b => match b with
                   | (first, last, block_seq, block_ann) =>
                       1 <= len block_seq <= 60 /\ len block_ann = len block_seq /\
                       last - first + 1 = len block_seq /\ 1 <= first /\ last <= N
                   end) (report_blocks SEQ final_str N) /\
  map (fun b => match b with (first, _, _, _) => first end)
      (report_blocks SEQ final_str N)
  = map (fun j => 60 * Z.of_nat j + 1)
        (seq 0 (length (report_blocks SEQ final_str N))).
Proof.
  intros Hs Hf.
  assert (HN : 0 <= N) by (rewrite <- Hs; apply len_nonneg).
  rewrite (report_blocks_map SEQ final_str N HN).
  destruct (range_step_60 N HN) as (_ & Hm & Hk).
  split; [|split; [|split]].
  - rewrite map_map. cbn [block_seq_of]. apply blocks_concat. exact Hs.
  - rewrite map_map. cbn [block_ann_of]. apply blocks_concat. exact Hf.
  - apply Forall_forall. intros b Hb. apply in_map_iff in Hb as (k & <- & Hin).
    specialize (Hk k Hin).
    rewrite (block_len SEQ N) by lia. rewrite (block_len final_str N) by lia. lia.
  - rewrite map_map, length_map, length_seq. reflexivity.
Qed.

Lemma report_blocks_tile_witness :
  concat (map block_seq_of
            (report_blocks (String.list_ascii_of_string "MAQWNQ")
                           (String.list_ascii_of_string "HHHHHH") 6))
  = String.list_ascii_of_string "MAQWNQ".
Proof.
  apply (report_blocks_tile (String.list_ascii_of_string "MAQWNQ")
                            (String.list_ascii_of_string "HHHHHH") 6).
  - reflexivity.
  - reflexivity.
Defined.

(* ================================================================= *)
(** ** The two sides of an extension *)

(** X23. The two sides of an extension do not influence each other: from
    segments of at least three residues, the start returned depends only on
    the start given, and the end returned only on the end given. *)
Theorem extend_segment_sides_independent (prop_list : list float) (threshold_sum : float)
    (seq_len start end_ start2 end2 : Z) :
  0 <= start -> start + 2 <= end_ -> end_ <= seq_len - 1 ->
  0 <= start2 -> start2 + 2 <= end2 -> end2 <= seq_len - 1 ->
  seq_len <= len prop_list ->
  exists s' e' s2' e2',
    extend_segment start end_ prop_list threshold_sum seq_len = Returns (s', e') /\
    extend_segment start2 end2 prop_list threshold_sum seq_len = Returns (s2', e2') /\
    (start = start2 -> s' = s2') /\
    (end_ = end2 -> e' = e2').
Proof.
  intros H0 H1 H2 K0 K1 K2 HN.
  destruct (extend_segment_reach prop_list threshold_sum seq_len start end_ H0 H1 H2 HN)
    as (s' & e' & R & A0 & A1 & A2 & A3 & PL & SL & PR & SR).
  destruct (extend_segment_reach prop_list threshold_sum seq_len start2 end2 K0 K1 K2 HN)
    as (s2' & e2' & R2 & B0 & B1 & B2 & B3 & QL & TL & QR & TR).
  exists s', e', s2', e2'. split; [exact R|]. split; [exact R2|]. split.
  - intros <-.
    destruct (Z.lt_trichotomy s' s2') as [Hlt | [Heq | Hgt]]; [|exact Heq|]; exfalso.
    + destruct TL as [T | T]; [lia|]. rewrite PL in T by lia. discriminate.
    + destruct SL as [S | S]; [lia|]. rewrite QL in S by lia. discriminate.
  - intros <-.
    destruct (Z.lt_trichotomy e' e2') as [Hlt | [Heq | Hgt]]; [|exact Heq|]; exfalso.
    + destruct SR as [S | S]; [lia|].
      pose proof (QR (e' + 1) ltac:(lia)) as Q.
      replace (e' + 1 - 3) with (e' - 2) in Q by lia. congruence.
    + destruct TR as [T | T]; [lia|].
      pose proof (PR (e2' + 1) ltac:(lia)) as Q.
      replace (e2' + 1 - 3) with (e2' - 2) in Q by lia. congruence.
Qed.

Lemma extend_segment_sides_independent_witness :
  exists s' e' s2' e2',
    extend_segment 2 4 (map pa (String.list_ascii_of_string "GGEEEEGG")) 4.0%float 8
    = Returns (s', e') /\
    extend_segment 2 5 (map pa (String.list_ascii_of_string "GGEEEEGG")) 4.0%float 8
    = Returns (s2', e2') /\
    (2 = 2 -> s' = s2') /\ (4 = 5 -> e' = e2').
Proof.
  apply (extend_segment_sides_independent
           (map pa (String.list_ascii_of_string "GGEEEEGG")) 4.0%float 8 2 4 2 5).
  - lia.
  - lia.
  - lia.
  - lia.
  - lia.
  - lia.
  - unfold len. simpl. lia.
Defined.

(* ================================================================= *)
(** ** The final string *)

Lemma length_string_of_list (l : list ascii) :
  String.length (String.string_of_list_ascii l) = length l.
Proof. induction l as [|c l IH]; simpl; [reflexivity | rewrite IH; reflexivity]. Qed.

Lemma length_list_of_string (s : String.string) :
  length (String.list_ascii_of_string s) = String.length s.
Proof. induction s as [|c s IH]; simpl; [reflexivity | rewrite IH; reflexivity]. Qed.

(** X24. For every sequence the script's final assignment is produced
    without failure, has one character per residue, and uses only
    ['-'], ['H'] and ['S']. *)
Theorem final_str_alphabet (SEQ : String.string) :
  exists out, final_str SEQ = Returns out /\
    String.length out = String.length SEQ /\
    forall c, In c (String.list_ascii_of_string out) ->
              c = "-"%char \/ c = "H"%char \/ c = "S"%char.
Proof.
  unfold final_str, predict.
  set (l := String.list_ascii_of_string SEQ).
  destruct (prediction_final_cases (map pa l) (map pb l) (len l))
    as (p & Ep & Lf & Hf); [apply len_map | apply len_map |].
  rewrite Ep. cbn [bind]. eexists. split; [reflexivity|]. split.
  - rewrite length_string_of_list. unfold len in Lf.
    unfold l in Lf. rewrite length_list_of_string in Lf. lia.
  - intros c Hc. rewrite String.list_ascii_of_string_of_list_ascii in Hc.
    apply label_In in Hc as (k & Hk & <-). rewrite Lf in Hk.
    destruct (Hf k Hk) as (F0 & F1 & F2 & F3).
    destruct (classic_covered (pr_helix p) k) as [Hh | Hh];
      destruct (classic_covered (pr_strand p) k) as [Hs | Hs].
    + destruct (F3 Hh Hs) as (s & e & _ & _ & ->).
      destruct (chosen_for_cases (map pa l) (map pb l) s e) as [-> | ->]; auto.
    + right. left. apply F1; [exact Hh|].
      intros (r & Hr & Hkr). exact (Hs r Hr Hkr).
    + right. right. apply F2; [|exact Hs].
      intros (r & Hr & Hkr). exact (Hh r Hr Hkr).
    + left. apply F0; intros (r & Hr & Hkr); [exact (Hh r Hr Hkr) | exact (Hs r Hr Hkr)].
Qed.

(* ================================================================= *)
(** ** Every segment has a nucleus *)

Lemma StronglySorted_pair {A : Type} (R : A -> A -> Prop) (l : list A) (x y : A) :
  StronglySorted R l -> In x l -> In y l -> x = y \/ R x y \/ R y x.
Proof.
  induction 1 as [|a l Hs IH Ha]; intros Hx Hy; [destruct Hx|].
  rewrite Forall_forall in Ha.
  destruct Hx as [<- | Hx], Hy as [<- | Hy]; auto.
Qed.

(** A stretch of covered positions lies inside one segment of a merged
    set. *)
Lemma stretch_in_one_segment (l : list (Z * Z)) (seg : Z * Z) (a b : Z) :
  StronglySorted apart l -> In seg l -> a <= b ->
  (forall k, a <= k <= b -> covered_by l k) ->
  (covers seg a -> b <= snd seg) /\ (covers seg b -> fst seg <= a).
Proof.
  intros Hs Hin Hab Hcov. unfold covers. split; intros Hc.
  - destruct (Z_le_gt_dec b (snd seg)) as [H | H]; [exact H|]. exfalso.
    destruct (Hcov (snd seg + 1)) as (seg' & Hin' & Hk'); [lia|].
    unfold covers in Hk'.
    destruct (StronglySorted_pair apart l seg seg' Hs Hin Hin') as [E | [[_ E] | [_ E]]];
      [subst seg'; lia | lia | lia].
  - destruct (Z_le_gt_dec (fst seg) a) as [H | H]; [exact H|]. exfalso.
    destruct (Hcov (fst seg - 1)) as (seg' & Hin' & Hk'); [lia|].
    unfold covers in Hk'.
    destruct (StronglySorted_pair apart l seg seg' Hs Hin Hin') as [E | [[_ E] | [_ E]]];
      [subst seg'; lia | lia | lia].
Qed.

Lemma merged_has_nucleus (w min_count : Z) (threshold_sum : float)
    (prop_list : list float) (N : Z) (merged : list (Z * Z)) (seg : Z * Z) :
  1 <= w -> N = len prop_list ->
  (segs <- nucleate w min_count threshold_sum prop_list N ;; merge_segments segs)
  = Returns merged ->
  In seg merged ->
  exists i, In i (seed_positions w min_count prop_list N) /\
            fst seg <= i /\ i + w - 1 <= snd seg /\
            min_count <= over_1_in_window prop_list i w.
Proof.
  intros Hw HN Em Hin.
  destruct (nucleate_per_seed w min_count threshold_sum prop_list N Hw HN)
    as (segs & En & F).
  destruct (nucleate_long w min_count threshold_sum prop_list N Hw) as (segs' & En' & Hl);
    [lia|].
  rewrite En in En'. injection En' as <-.
  rewrite En in Em. cbn [bind] in Em.
  destruct (merged_long N w segs Hl) as (m & Em' & Hml & Hap).
  rewrite Em in Em'. injection Em' as <-.
  rewrite merge_segments_rule in Em. injection Em as Em.
  assert (Hseg : fst seg <= snd seg).
  { rewrite Forall_forall in Hml. destruct (Hml seg Hin) as (A & B & C). lia. }
  assert (Hc : covered_by segs (fst seg)).
  { apply (proj2 (merge_segments_cover_rule segs (fst seg))). rewrite Em.
    exists seg. split; [exact Hin | unfold covers; lia]. }
  destruct Hc as (ext & Hext & Hkext).
  assert (Hseed : exists i, In i (seed_positions w min_count prop_list N) /\
                            fst ext <= i /\ i + w - 1 <= snd ext).
  { clear - F Hext. induction F as [|j x seeds segs Fj F IH]; [destruct Hext|].
    cbv beta in Fj. destruct Fj as (_ & F1 & F2).
    destruct Hext as [<- | Hext].
    - exists j. split; [left; reflexivity | split; assumption].
    - destruct (IH Hext) as (i & Hi & H1 & H2). exists i. split; [right; exact Hi | auto]. }
  destruct Hseed as (i & Hi & S1 & S2).
  assert (Hall : forall k, fst ext <= k <= snd ext -> covered_by merged k).
  { intros k Hk. rewrite <- Em. apply (proj1 (merge_segments_cover_rule segs k)).
    exists ext. split; [exact Hext | exact Hk]. }
  unfold covers in Hkext.
  destruct (stretch_in_one_segment merged seg (fst seg) (snd ext) Hap Hin) as [Hr _];
    [lia | intros k Hk; apply Hall; lia |].
  destruct (stretch_in_one_segment merged seg (fst ext) (fst seg) Hap Hin) as [_ Hl'];
    [lia | intros k Hk; apply Hall; lia |].
  exists i. split; [exact Hi|].
  split; [apply Z.le_trans with (fst ext); [|exact S1]; apply Hl'; unfold covers; lia|].
  split; [apply Z.le_trans with (snd ext); [exact S2|]; apply Hr; unfold covers; lia|].
  unfold seed_positions in Hi. apply filter_In in Hi as [Hr' Ht].
  apply range_In in Hr'. unfold window_has_min_over_1 in Ht. apply Z.leb_le in Ht.
  rewrite slice_values in Ht by lia.
  rewrite count_over_1_filter, filter_map_len in Ht. exact Ht.
Qed.

(** X25. Every segment has a nucleus: each helix segment contains a window
    of 6 residues of which at least 4 have [Pa > 1.0], and each strand
    segment a window of 5 residues of which at least 3 have [Pb > 1.0]. *)
Theorem segments_have_nucleus (Palpha_list Pbeta_list : list float) (N : Z) :
  len Palpha_list = N -> len Pbeta_list = N ->
  exists p, predict_arrays Palpha_list Pbeta_list N = Returns p /\
    (forall s e, In (s, e) (pr_helix p) ->
       exists i, s <= i /\ i + 5 <= e /\ 4 <= over_1_in_window Palpha_list i 6) /\
    (forall s e, In (s, e) (pr_strand p) ->
       exists i, s <= i /\ i + 4 <= e /\ 3 <= over_1_in_window Pbeta_list i 5).
Proof.
  intros Ha Hb.
  destruct (predict_arrays_facts Palpha_list Pbeta_list N Ha Hb) as (p & Ep & _).
  exists p. split; [exact Ep|].
  destruct (predict_arrays_stages _ _ _ _ Ep) as (E1 & E2 & _).
  split; intros s e Hin.
  - destruct (merged_has_nucleus 6 4 4.0%float Palpha_list N (pr_helix p) (s, e)
                ltac:(lia) (eq_sym Ha) E1 Hin) as (i & _ & H1 & H2 & H3).
    cbn [fst snd] in *. exists i. split; [lia|]. split; [lia | exact H3].
  - destruct (merged_has_nucleus 5 3 4.0000001%float Pbeta_list N (pr_strand p) (s, e)
                ltac:(lia) (eq_sym Hb) E2 Hin) as (i & _ & H1 & H2 & H3).
    cbn [fst snd] in *. exists i. split; [lia|]. split; [lia | exact H3].
Qed.

Lemma segments_have_nucleus_witness :
  exists p,
    predict_arrays (map pa (String.list_ascii_of_string "GGGEEEEEEGGG"))
                   (map pb (String.list_ascii_of_string "GGGEEEEEEGGG")) 12
    = Returns p /\
    (forall s e, In (s, e) (pr_helix p) ->
       exists i, s <= i /\ i + 5 <= e /\
         4 <= over_1_in_window (map pa (String.list_ascii_of_string "GGGEEEEEEGGG")) i 6).
Proof.
  destruct (segments_have_nucleus
              (map pa (String.list_ascii_of_string "GGGEEEEEEGGG"))
              (map pb (String.list_ascii_of_string "GGGEEEEEEGGG")) 12)
    as (p & Ep & H & _).
  - reflexivity.
  - reflexivity.
  - exists p. split; assumption.
Defined.
